(** * f0: content caches and their invalidation

    A shallow embedding of the cache layer of the f0 documentation server:
    - [server/utils/llms-cache.ts]  (aggregate /llms.txt cache, content hash),
    - [server/utils/config.ts]      (per-directory [_config.md] resolver),
    - [server/utils/brand.ts]       ([_brand.md] configuration),
    - [server/utils/image-processor.ts] (on-demand image derivatives).

    A string is the UTF-8 encoding of the JavaScript string it stands for,
    byte by byte; JavaScript's default [sort] and the [<], [>=] comparisons
    on strings are the lexicographic order of [String.leb], which is the
    order of UTF-16 code units on the Basic Multilingual Plane.
    [stats.mtimeMs] is a whole number of milliseconds in [Z]. *)

From Stdlib Require Import ZArith List Bool Ascii String DecimalString DecimalZ Lia.
From stdpp Require Import gmap strings list sorting.

Local Open Scope Z_scope.

(** ** JavaScript outcomes: a call returns a value or throws. *)

Inductive Outcome (A : Type) : Type :=
| Returned (a : A)
| Thrown (message : string).
Arguments Returned {A} a.
Arguments Thrown {A} message.

Definition obind {A B} (m : Outcome A) (k : A -> Outcome B) : Outcome B :=
  match m with
  | Returned a => k a
  | Thrown e => Thrown e
  end.

Notation "'let!' x ':=' m 'in' k" := (obind m (fun x => k))
  (at level 10, x name, m at level 100, k at level 200).

(** [try { body } catch { handler }] *)
Definition try_catch {A} (body : Outcome A) (handler : string -> A) : A :=
  match body with
  | Returned a => a
  | Thrown e => handler e
  end.

(** ** String helpers (methods of JavaScript's [String]) *)

Module Str.

Fixpoint startsWith (s p : string) {struct p} : bool :=
  match p, s with
  | EmptyString, _ => true
  | String c p', String d s' => Ascii.eqb c d && startsWith s' p'
  | String _ _, EmptyString => false
  end.

(** [s.endsWith(p)]: some suffix of [s] is [p]. *)
Fixpoint endsWith (s p : string) : bool :=
  (s =? p)%string ||
  match s with
  | String _ s' => endsWith s' p
  | EmptyString => false
  end.

Fixpoint contains_char (c : ascii) (s : string) : bool :=
  match s with
  | EmptyString => false
  | String d s' => Ascii.eqb c d || contains_char c s'
  end.

(** [s.split(c)] for a one-character separator: never the empty list. *)
Fixpoint split (c : ascii) (s : string) : list string :=
  match s with
  | EmptyString => [EmptyString]
  | String d s' =>
      if Ascii.eqb d c then EmptyString :: split c s'
      else match split c s' with
           | h :: t => String d h :: t
           | [] => [String d EmptyString]
           end
  end.

Fixpoint last_char (s : string) : option ascii :=
  match s with
  | EmptyString => None
  | String c s' =>
      match last_char s' with
      | Some d => Some d
      | None => Some c
      end
  end.

Fixpoint drop (n : nat) (s : string) : string :=
  match n, s with
  | S n', String _ s' => drop n' s'
  | _, _ => s
  end.

(** [s.replace(/^p/, '')] for a literal [p]. *)
Definition strip_prefix (p s : string) : string :=
  if startsWith s p then drop (String.length p) s else s.

(** [s.replace(/\/$/, '')]: one trailing slash removed. *)
Fixpoint strip_trailing_slash (s : string) : string :=
  match s with
  | EmptyString => EmptyString
  | String c s' =>
      if (s' =? "")%string
      then (if Ascii.eqb c "/" then EmptyString else s)
      else String c (strip_trailing_slash s')
  end.

(** The text from the last occurrence of [c] on, if [c] occurs. *)
Fixpoint from_last (c : ascii) (s : string) : option string :=
  match s with
  | EmptyString => None
  | String d s' =>
      match from_last c s' with
      | Some t => Some t
      | None => if Ascii.eqb d c then Some s else None
      end
  end.

(** [s] without its suffix of [n] characters. *)
Definition drop_end (n : nat) (s : string) : string :=
  String.substring 0 (String.length s - n) s.

Definition lower_char (c : ascii) : ascii :=
  let n := N_of_ascii c in
  if ((65 <=? n) && (n <=? 90))%N then ascii_of_N (n + 32) else c.

(** [s.toLowerCase()] on the ASCII letters. The code compares the result
    with ASCII names only (formats, extensions), and no other character has
    a lower case made of ASCII letters of those names (U+212A gives [k],
    U+0130 gives [i] and a combining dot). *)
Fixpoint toLowerCase (s : string) : string :=
  match s with
  | EmptyString => EmptyString
  | String c s' => String (lower_char c) (toLowerCase s')
  end.

End Str.

(** ** Node's [path.join] (POSIX flavour) *)

Module Path.

(** One step of Node's [normalizeString]: the stack holds the kept segments,
    most recent first. *)
Definition seg_step (allowAboveRoot : bool) (stack : list string) (seg : string)
  : list string :=
  if (seg =? "")%string || (seg =? ".")%string then stack
  else if (seg =? "..")%string then
    match stack with
    | top :: below =>
        if (top =? "..")%string
        then (if allowAboveRoot then seg :: stack else stack)
        else below
    | [] => if allowAboveRoot then [seg] else []
    end
  else seg :: stack.

Definition isAbsolute (p : string) : bool := Str.startsWith p "/".

Definition segments (p : string) : list string :=
  fold_left (seg_step (negb (isAbsolute p))) (Str.split "/" p) [].

Definition render (abs : bool) (stack : list string) : string :=
  (if abs then "/" else "") +:+ String.concat "/" (rev stack).

Definition normalize (p : string) : string :=
  if (p =? "")%string then "."
  else
    let abs := isAbsolute p in
    let trailing :=
      match Str.last_char p with
      | Some c => Ascii.eqb c "/"
      | None => false
      end in
    match segments p with
    | [] => if abs then "/" else if trailing then "./" else "."
    | stack => render abs stack +:+ (if trailing then "/" else "")
    end.

(** [path.join(a, b)]: the non-empty arguments joined by a slash, normalised. *)
Definition join (a b : string) : string :=
  if (a =? "")%string then normalize b
  else if (b =? "")%string then normalize a
  else normalize (a +:+ "/" +:+ b).

(** [path.basename(p)]: the last non-empty segment. *)
Definition basename (p : string) : string :=
  List.last (filter (fun seg => negb (seg =? "")%string) (Str.split "/" p)) "".

(** [path.extname(p)]: from the last dot of the base name on, unless that
    dot leads the name or the name is [".."]. *)
Definition extname (p : string) : string :=
  let b := basename p in
  match Str.from_last "." b with
  | None => ""
  | Some ext =>
      if (ext =? b)%string || (b =? "..")%string then "" else ext
  end.

(** [path.basename(p, ext)] *)
Definition basename_ext (p ext : string) : string :=
  let b := basename p in
  if (ext =? "")%string then b
  else if (ext =? p)%string then ""
  else if Str.endsWith b ext && negb (b =? ext)%string
       then Str.drop_end (String.length ext) b
       else b.

End Path.

(** ** Node's [crypto.createHash('md5')] (RFC 1321), on 32-bit words in [Z] *)

Module Md5.

Definition w32 : Z := 2 ^ 32.
Definition add32 (a b : Z) : Z := (a + b) mod w32.
Definition not32 (x : Z) : Z := Z.lxor x 0xffffffff.
Definition rotl32 (x c : Z) : Z :=
  Z.lor (Z.shiftl x c mod w32) (Z.shiftr x (32 - c)).

Definition shifts : list Z :=
  [7; 12; 17; 22; 7; 12; 17; 22; 7; 12; 17; 22; 7; 12; 17; 22;
   5; 9; 14; 20; 5; 9; 14; 20; 5; 9; 14; 20; 5; 9; 14; 20;
   4; 11; 16; 23; 4; 11; 16; 23; 4; 11; 16; 23; 4; 11; 16; 23;
   6; 10; 15; 21; 6; 10; 15; 21; 6; 10; 15; 21; 6; 10; 15; 21].

Definition sines : list Z :=
  [0xd76aa478; 0xe8c7b756; 0x242070db; 0xc1bdceee;
   0xf57c0faf; 0x4787c62a; 0xa8304613; 0xfd469501;
   0x698098d8; 0x8b44f7af; 0xffff5bb1; 0x895cd7be;
   0x6b901122; 0xfd987193; 0xa679438e; 0x49b40821;
   0xf61e2562; 0xc040b340; 0x265e5a51; 0xe9b6c7aa;
   0xd62f105d; 0x02441453; 0xd8a1e681; 0xe7d3fbc8;
   0x21e1cde6; 0xc33707d6; 0xf4d50d87; 0x455a14ed;
   0xa9e3e905; 0xfcefa3f8; 0x676f02d9; 0x8d2a4c8a;
   0xfffa3942; 0x8771f681; 0x6d9d6122; 0xfde5380c;
   0xa4beea44; 0x4bdecfa9; 0xf6bb4b60; 0xbebfbc70;
   0x289b7ec6; 0xeaa127fa; 0xd4ef3085; 0x04881d05;
   0xd9d4d039; 0xe6db99e5; 0x1fa27cf8; 0xc4ac5665;
   0xf4292244; 0x432aff97; 0xab9423a7; 0xfc93a039;
   0x655b59c3; 0x8f0ccc92; 0xffeff47d; 0x85845dd1;
   0x6fa87e4f; 0xfe2ce6e0; 0xa3014314; 0x4e0811a1;
   0xf7537e82; 0xbd3af235; 0x2ad7d2bb; 0xeb86d391].

Definition bytes_of_string (s : string) : list Z :=
  map (fun c => Z.of_N (N_of_ascii c)) (list_ascii_of_string s).

(** [n] bytes of [x], least significant first. *)
Fixpoint le_bytes (n : nat) (x : Z) : list Z :=
  match n with
  | O => []
  | S n' => (x mod 256) :: le_bytes n' (x / 256)
  end.

Fixpoint of_le_bytes (bs : list Z) : Z :=
  match bs with
  | [] => 0
  | b :: bs' => b + 256 * of_le_bytes bs'
  end.

Definition pad (msg : list Z) : list Z :=
  let len := Z.of_nat (length msg) in
  msg ++ [0x80] ++ repeat 0 (Z.to_nat ((55 - len) mod 64))
      ++ le_bytes 8 ((8 * len) mod 2 ^ 64).

(** The message cut in blocks of [k] items; the fuel is the length. *)
Fixpoint chunks {A} (fuel k : nat) (l : list A) : list (list A) :=
  match fuel, l with
  | O, _ | _, [] => []
  | S fuel', _ => firstn k l :: chunks fuel' k (skipn k l)
  end.

Definition words (block : list Z) : list Z :=
  map of_le_bytes (chunks 16 4 block).

Definition step (M : list Z) (st : Z * Z * Z * Z) (i : nat) : Z * Z * Z * Z :=
  let '(A, B, C, D) := st in
  let iz := Z.of_nat i in
  let '(F, g) :=
    if iz <? 16 then (Z.lor (Z.land B C) (Z.land (not32 B) D), iz)
    else if iz <? 32 then (Z.lor (Z.land D B) (Z.land (not32 D) C), (5 * iz + 1) mod 16)
    else if iz <? 48 then (Z.lxor (Z.lxor B C) D, (3 * iz + 5) mod 16)
    else (Z.lxor C (Z.lor B (not32 D)), (7 * iz) mod 16) in
  let F' := add32 (add32 (add32 F A) (nth i sines 0)) (nth (Z.to_nat g) M 0) in
  (D, add32 B (rotl32 F' (nth i shifts 0)), B, C).

Definition block_step (st : Z * Z * Z * Z) (block : list Z) : Z * Z * Z * Z :=
  let '(a0, b0, c0, d0) := st in
  let '(A, B, C, D) := fold_left (step (words block)) (seq 0 64) st in
  (add32 a0 A, add32 b0 B, add32 c0 C, add32 d0 D).

Definition hex_digit (n : Z) : ascii :=
  if n <? 10 then ascii_of_N (Z.to_N (48 + n)) else ascii_of_N (Z.to_N (87 + n)).

Definition hex_byte (b : Z) : string :=
  String (hex_digit (b / 16)) (String (hex_digit (b mod 16)) EmptyString).

Definition digest (msg : list Z) : list Z :=
  let padded := pad msg in
  let '(a, b, c, d) :=
    fold_left block_step (chunks (length padded) 64 padded)
      (0x67452301, 0xefcdab89, 0x98badcfe, 0x10325476) in
  le_bytes 4 a ++ le_bytes 4 b ++ le_bytes 4 c ++ le_bytes 4 d.

(** [createHash('md5').update(s).digest('hex')] *)
Definition md5_hex (s : string) : string :=
  String.concat "" (map hex_byte (digest (bytes_of_string s))).

End Md5.

(** [String(n)] for a whole number. *)
Definition showZ (z : Z) : string := NilZero.string_of_int (Z.to_int z).

Definition newline : string := String (ascii_of_nat 10) EmptyString.

(** ** The filesystem below a directory, as [readdir] and [stat] see it *)

(** A directory entry is a directory ([Dirent.isDirectory()]) or anything
    else; [stat] on a file gives its [mtimeMs] or throws ([None]), [readdir]
    on a directory gives its entries in filesystem order or throws ([None]). *)
#[warnings="-register-all"]
Inductive node : Type :=
| File (mtimeMs : option Z)
| Dir (listing : option (list (string * node))).

(** ** llms-cache.ts *)

Module LlmsCache.

Definition skipped (name : string) : bool :=
  Str.startsWith name "." || Str.startsWith name "_"
  || (name =? "assets")%string || (name =? "images")%string
  || (name =? "nav.md")%string.

Definition tracked (name : string) : bool :=
  Str.endsWith name ".md" || Str.endsWith name ".json".

Definition entry (fullPath : string) (mtime : Z) : string :=
  fullPath +:+ ":" +:+ showZ mtime.

(** [walk]: the strings pushed on [entries], in push order. *)
Fixpoint walk (currentDir : string) (n : node) {struct n} : list string :=
  match n with
  | File _ => []
  | Dir None => []
  | Dir (Some dirEntries) =>
      (fix loop (es : list (string * node)) : list string :=
         match es with
         | [] => []
         | (name, child) :: rest =>
             if skipped name then loop rest
             else
               let fullPath := Path.join currentDir name in
               match child with
               | Dir _ => walk fullPath child ++ loop rest
               | File st =>
                   if tracked name then
                     match st with
                     | Some mtime => entry fullPath mtime :: loop rest
                     | None => loop rest
                     end
                   else loop rest
               end
         end) dirEntries
  end.

(** The sorted entries, before they are joined and hashed. *)
Definition sortedEntries (dir : string) (tree : node) : list string :=
  merge_sort String.le (walk dir tree).

Definition computeContentHash (dir : string) (tree : node) : string :=
  Md5.md5_hex (String.concat newline (sortedEntries dir tree)).

Record LlmGeneratorOptions : Type := { sections : option (list string) }.

Record SectionEntry : Type := { text : string; hash : string }.

Record State : Type := {
  cachedLlmsTxt : option string;
  cachedLlmsHash : option string;
  cachedLlmsGeneratedAt : Z;
  sectionCache : gmap string SectionEntry
}.

Definition initial : State :=
  {| cachedLlmsTxt := None; cachedLlmsHash := None;
     cachedLlmsGeneratedAt := 0; sectionCache := ∅ |}.

(** What one call meets: the tree found at a directory path, the generator
    of [llm-generator.ts] (a collaborator: it returns a text or throws) and
    the clock. *)
Record World : Type := {
  treeAt : string -> node;
  generateLlmText : string -> string -> LlmGeneratorOptions -> Outcome string;
  now : Z
}.

(** The result of a call: what it returns, the cache afterwards and how
    many times the generator ran. *)
Record Result : Type := {
  outcome : Outcome string;
  after : State;
  generated : nat
}.

Definition truthy_text (t : option string) : bool :=
  match t with
  | Some s => negb (s =? "")%string
  | None => false
  end.

(** [cached && cached.hash === currentHash]: the text served. *)
Definition section_hit (st : State) (sectionKey currentHash : string)
  : option string :=
  match sectionCache st !! sectionKey with
  | Some cached =>
      if (hash cached =? currentHash)%string then Some (text cached) else None
  | None => None
  end.

(** [cachedLlmsTxt && cachedLlmsHash === currentHash]: the text served. *)
Definition full_hit (st : State) (currentHash : string) : option string :=
  match cachedLlmsTxt st, cachedLlmsHash st with
  | Some t, Some h =>
      if truthy_text (Some t) && (h =? currentHash)%string then Some t else None
  | _, _ => None
  end.

Definition getCachedLlmsTxt (w : World) (st : State)
    (contentDir siteName : string) (options : LlmGeneratorOptions) : Result :=
  match sections options with
  | Some ((_ :: _) as secs) =>
      let sortedSecs := merge_sort String.le secs in
      let options' := {| sections := Some sortedSecs |} in
      let sectionKey := String.concat "," sortedSecs in
      let currentHash := computeContentHash contentDir (treeAt w contentDir) in
      match section_hit st sectionKey currentHash with
      | Some t => {| outcome := Returned t; after := st; generated := 0 |}
      | None =>
          match generateLlmText w contentDir siteName options' with
          | Returned t =>
              {| outcome := Returned t;
                 after := {| cachedLlmsTxt := cachedLlmsTxt st;
                             cachedLlmsHash := cachedLlmsHash st;
                             cachedLlmsGeneratedAt := cachedLlmsGeneratedAt st;
                             sectionCache :=
                               <[sectionKey := {| text := t; hash := currentHash |}]>
                                 (sectionCache st) |};
                 generated := 1 |}
          | Thrown e => {| outcome := Thrown e; after := st; generated := 1 |}
          end
      end
  | _ =>
      let currentHash := computeContentHash contentDir (treeAt w contentDir) in
      match full_hit st currentHash with
      | Some t => {| outcome := Returned t; after := st; generated := 0 |}
      | None =>
          match generateLlmText w contentDir siteName options with
          | Returned t =>
              {| outcome := Returned t;
                 after := {| cachedLlmsTxt := Some t;
                             cachedLlmsHash := Some currentHash;
                             cachedLlmsGeneratedAt := now w;
                             sectionCache := sectionCache st |};
                 generated := 1 |}
          | Thrown e => {| outcome := Thrown e; after := st; generated := 1 |}
          end
      end
  end.

Definition invalidateLlmsCache (st : State) : State := initial.

End LlmsCache.


(** ** JavaScript values, as [yaml.parse] produces them *)

(** A number is held by its [String(n)] rendering: the front matter's
    numbers are tested and passed on, never computed with. *)
#[warnings="-register-all"]
Inductive JsVal : Type :=
| JUndefined
| JNull
| JBool (b : bool)
| JNum (shown : string)
| JStr (s : string)
| JArr (items : list JsVal)
| JObj (fields : list (string * JsVal)).

Module Js.

Definition truthy (v : JsVal) : bool :=
  match v with
  | JUndefined | JNull => false
  | JBool b => b
  | JNum shown => negb ((shown =? "0")%string || (shown =? "NaN")%string)
  | JStr s => negb (s =? "")%string
  | JArr _ | JObj _ => true
  end.

(** [a || b] *)
Definition or (a b : JsVal) : JsVal := if truthy a then a else b.

Fixpoint assoc (key : string) (fields : list (string * JsVal)) : option JsVal :=
  match fields with
  | [] => None
  | (k, v) :: rest => if (k =? key)%string then Some v else assoc key rest
  end.

(** [v.key] for one of the front-matter keys: only an object has them;
    reading a property of [null] or [undefined] throws. *)
Definition get (v : JsVal) (key : string) : Outcome JsVal :=
  match v with
  | JUndefined | JNull => Thrown "TypeError: cannot read properties"
  | JObj fields =>
      Returned (match assoc key fields with Some x => x | None => JUndefined end)
  | _ => Returned JUndefined
  end.

(** [String(v)] *)
Fixpoint toString (v : JsVal) : string :=
  match v with
  | JUndefined => "undefined"
  | JNull => "null"
  | JBool true => "true"
  | JBool false => "false"
  | JNum shown => shown
  | JStr s => s
  | JArr items =>
      String.concat ","
        (map (fun x => match x with
                       | JUndefined | JNull => ""
                       | _ => toString x
                       end) items)
  | JObj _ => "[object Object]"
  end.

(** [typeof v === 'string' ? v : a method call on it throws] *)
Definition as_string (v : JsVal) : Outcome string :=
  match v with
  | JStr s => Returned s
  | _ => Thrown "TypeError: not a function"
  end.

End Js.

(** ** config.ts *)

Module Config.

Inductive Layout : Type := docs | blog.
Inductive DateFormat : Type := long | short | relative.

(** The fields keep what the code stores in them at run time: a truthy
    front-matter value of any type, or the default. *)
Record DirectoryConfig : Type := {
  layout : Layout;
  title : JsVal;
  description : JsVal;
  postsPerPage : JsVal;
  defaultAuthor : JsVal;
  showToc : bool;
  dateFormat : DateFormat;
  heroImage : string;
  heroSubtitle : JsVal
}.

Definition DEFAULT_DOCS_CONFIG : DirectoryConfig :=
  {| layout := docs; title := JStr ""; description := JStr "";
     postsPerPage := JNum "10"; defaultAuthor := JStr ""; showToc := true;
     dateFormat := long; heroImage := ""; heroSubtitle := JStr "" |}.

Definition DEFAULT_BLOG_CONFIG : DirectoryConfig :=
  {| layout := blog; title := JStr "Blog"; description := JStr "";
     postsPerPage := JNum "10"; defaultAuthor := JStr ""; showToc := false;
     dateFormat := long; heroImage := ""; heroSubtitle := JStr "" |}.

Definition CACHE_TTL : Z := 5000.

Record State : Type := {
  configCache : gmap string DirectoryConfig;
  cacheTimestamp : Z
}.

Definition initial : State := {| configCache := ∅; cacheTimestamp := 0 |}.

Record Env : Type := {
  NODE_ENV : option string;
  F0_MODE : option string;
  NUXT_PUBLIC_SITE_NAME : option string;
  NUXT_PUBLIC_SITE_DESCRIPTION : option string
}.

(** What one call meets: the environment, the files, the YAML parser and
    the two readings of [Date.now()] (the validity test, the store). *)
Record World : Type := {
  env : Env;
  existsSync : string -> bool;
  readFileSync : string -> Outcome string;
  yaml_parse : string -> Outcome JsVal;
  nowAtCheck : Z;
  nowAtStore : Z
}.

Definition production (w : World) : bool :=
  match NODE_ENV (env w) with
  | Some v => (v =? "production")%string
  | None => false
  end.

Definition isCacheValid (w : World) (st : State) : bool :=
  if production w then true
  else nowAtCheck w - cacheTimestamp st <? CACHE_TTL.

Definition invalidateConfigCache (st : State) : State := initial.

Definition fence : string := newline +:+ "---".

(** The lazy group of [/^---\n([\s\S]*?)\n---/]: the text before the first
    line break that is followed by three dashes. *)
Fixpoint until_fence (s : string) : option string :=
  match s with
  | EmptyString => None
  | String c s' =>
      if Str.startsWith s fence then Some EmptyString
      else option_map (String c) (until_fence s')
  end.

Definition frontmatter_match (content : string) : option string :=
  let opening := "---" +:+ newline in
  if Str.startsWith content opening
  then until_fence (Str.drop (String.length opening) content)
  else None.

(** The front matter and the warnings logged. *)
Definition extractConfigFrontmatter (w : World) (content : string)
  : JsVal * list string :=
  match frontmatter_match content with
  | None => (JObj [], [])
  | Some body =>
      match yaml_parse w body with
      | Returned v => (Js.or v (JObj []), [])
      | Thrown _ => (JObj [], ["Failed to parse _config.md frontmatter"])
      end
  end.

Definition resolveAssetUrl (path : JsVal) : Outcome string :=
  if negb (Js.truthy path) then Returned ""
  else
    let! p := Js.as_string path in
    if Str.startsWith p "http://" || Str.startsWith p "https://" then Returned p
    else Returned ("/api/content/" +:+ Str.strip_prefix "./" p).

Definition parse_date_format (v : JsVal) : option DateFormat :=
  match v with
  | JStr s =>
      if (s =? "long")%string then Some long
      else if (s =? "short")%string then Some short
      else if (s =? "relative")%string then Some relative
      else None
  | _ => None
  end.

(** The body of the [try] of [parseConfigFile], with the warnings logged
    before it returned or threw. *)
Definition parseConfigFile_try (w : World) (configPath : string)
  : Outcome DirectoryConfig * list string :=
  match readFileSync w configPath with
  | Thrown e => (Thrown e, [])
  | Returned content =>
      let '(fm, warned) := extractConfigFrontmatter w content in
      (let! fm_layout := Js.get fm "layout" in
       let layout := match fm_layout with
                     | JStr s => if (s =? "blog")%string then blog else docs
                     | _ => docs
                     end in
       let defaults := match layout with
                       | blog => DEFAULT_BLOG_CONFIG
                       | docs => DEFAULT_DOCS_CONFIG
                       end in
       let! fm_title := Js.get fm "title" in
       let! fm_description := Js.get fm "description" in
       let! fm_posts := Js.get fm "posts_per_page" in
       let! fm_author := Js.get fm "default_author" in
       let! fm_toc := Js.get fm "show_toc" in
       let! fm_date := Js.get fm "date_format" in
       let! fm_hero := Js.get fm "hero_image" in
       let! hero := resolveAssetUrl (Js.or fm_hero (JStr "")) in
       let! fm_subtitle := Js.get fm "hero_subtitle" in
       Returned
         {| layout := layout;
            title := Js.or fm_title (title defaults);
            description := Js.or fm_description (description defaults);
            postsPerPage := match fm_posts with
                            | JNum _ => fm_posts
                            | _ => postsPerPage defaults
                            end;
            defaultAuthor := Js.or fm_author (defaultAuthor defaults);
            showToc := match fm_toc with
                       | JBool b => b
                       | _ => showToc defaults
                       end;
            dateFormat := match parse_date_format fm_date with
                          | Some d => d
                          | None => dateFormat defaults
                          end;
            heroImage := hero;
            heroSubtitle := Js.or fm_subtitle (heroSubtitle defaults) |},
       warned)
  end.

Definition parseConfigFile (w : World) (configPath : string)
  : DirectoryConfig * list string :=
  match parseConfigFile_try w configPath with
  | (Returned config, warned) => (config, warned)
  | (Thrown _, warned) => (DEFAULT_DOCS_CONFIG, warned ++ ["Error reading config"])
  end.

Definition from_env (v : option string) (fallback : string) : string :=
  match v with
  | Some s => if (s =? "")%string then fallback else s
  | None => fallback
  end.

Definition normalizeDir (dirPath : string) : string :=
  Str.strip_trailing_slash (Str.strip_prefix "/" dirPath).

Definition cacheKeyOf (contentDir dirPath : string) : string :=
  contentDir +:+ ":" +:+ normalizeDir dirPath.

Definition configPathOf (contentDir dirPath : string) : string :=
  let normalizedDir := normalizeDir dirPath in
  let fullDirPath :=
    if (normalizedDir =? "")%string then contentDir
    else Path.join contentDir normalizedDir in
  Path.join fullDirPath "_config.md".

(** The result of a call: what it returns, the cache afterwards, whether
    the cached entry was served, and the warnings logged. *)
Record Result : Type := {
  outcome : Outcome DirectoryConfig;
  after : State;
  fromCache : bool;
  warnings : list string
}.

Definition store (w : World) (st : State) (cacheKey : string)
    (config : DirectoryConfig) (warned : list string) : Result :=
  {| outcome := Returned config;
     after := {| configCache := <[cacheKey := config]> (configCache st);
                 cacheTimestamp := nowAtStore w |};
     fromCache := false;
     warnings := warned |}.

Definition resolveDirectoryConfig (w : World) (st : State)
    (contentDir dirPath : string) : Result :=
  let normalizedDir := normalizeDir dirPath in
  let cacheKey := cacheKeyOf contentDir dirPath in
  let compute :=
    let configPath := configPathOf contentDir dirPath in
    if existsSync w configPath then
      let '(config, warned) := parseConfigFile w configPath in
      store w st cacheKey config warned
    else if (normalizedDir =? "")%string
            && (from_env (F0_MODE (env w)) "" =? "blog")%string then
      store w st cacheKey
        {| layout := blog;
           title := JStr (from_env (NUXT_PUBLIC_SITE_NAME (env w)) "Blog");
           description :=
             JStr (from_env (NUXT_PUBLIC_SITE_DESCRIPTION (env w)) "");
           postsPerPage := postsPerPage DEFAULT_BLOG_CONFIG;
           defaultAuthor := defaultAuthor DEFAULT_BLOG_CONFIG;
           showToc := showToc DEFAULT_BLOG_CONFIG;
           dateFormat := dateFormat DEFAULT_BLOG_CONFIG;
           heroImage := heroImage DEFAULT_BLOG_CONFIG;
           heroSubtitle := heroSubtitle DEFAULT_BLOG_CONFIG |} []
    else store w st cacheKey DEFAULT_DOCS_CONFIG [] in
  match configCache st !! cacheKey with
  | Some cached =>
      if isCacheValid w st
      then {| outcome := Returned cached; after := st;
              fromCache := true; warnings := [] |}
      else compute
  | None => compute
  end.

End Config.

(** ** brand.ts *)

Module Brand.

Inductive HeaderStyle : Type := logo_only | logo_and_text | text_only.

Record FooterLink : Type := { label : string; url : string }.

Record BrandConfig : Type := {
  logo : string;
  logoDark : string;
  favicon : string;
  accentColor : JsVal;
  headerStyle : HeaderStyle;
  footerText : JsVal;
  footerLinks : list FooterLink;
  customCss : string;
  ogImage : string
}.

Definition DEFAULT_BRAND : BrandConfig :=
  {| logo := ""; logoDark := ""; favicon := ""; accentColor := JStr "";
     headerStyle := text_only; footerText := JStr ""; footerLinks := [];
     customCss := ""; ogImage := "" |}.

Record State : Type := {
  brandCache : option BrandConfig;
  brandMtime : Z
}.

Definition initial : State := {| brandCache := None; brandMtime := 0 |}.

Record World : Type := {
  existsSync : string -> bool;
  statSync : string -> Outcome Z;
  readFileSync : string -> Outcome string;
  yaml_parse : string -> Outcome JsVal
}.

Definition resolveAssetUrl (relativePath : JsVal) : Outcome string :=
  if negb (Js.truthy relativePath) then Returned ""
  else
    let! p := Js.as_string relativePath in
    Returned ("/api/content/" +:+ Str.strip_prefix "./" p).

Definition parse_header_style (v : JsVal) : HeaderStyle :=
  match v with
  | JStr s =>
      if (s =? "logo_only")%string then logo_only
      else if (s =? "logo_and_text")%string then logo_and_text
      else text_only
  | _ => text_only
  end.

(** [l && typeof l === 'object' && 'label' in l && 'url' in l] *)
Definition is_link (l : JsVal) : bool :=
  match l with
  | JObj fields =>
      match Js.assoc "label" fields, Js.assoc "url" fields with
      | Some _, Some _ => true
      | _, _ => false
      end
  | _ => false
  end.

Definition to_link (l : JsVal) : Outcome FooterLink :=
  let! l_label := Js.get l "label" in
  let! l_url := Js.get l "url" in
  Returned {| label := Js.toString (Js.or l_label (JStr ""));
              url := Js.toString (Js.or l_url (JStr "")) |}.

Fixpoint map_links (ls : list JsVal) : Outcome (list FooterLink) :=
  match ls with
  | [] => Returned []
  | l :: rest =>
      let! link := to_link l in
      let! links := map_links rest in
      Returned (link :: links)
  end.

(** The parse of a front matter [fm] into a brand configuration. *)
Definition parse_brand (fm : JsVal) : Outcome BrandConfig :=
  let! fm_links := Js.get fm "footer_links" in
  let! links := match fm_links with
                | JArr items => map_links (filter is_link items)
                | _ => Returned []
                end in
  let! fm_logo := Js.get fm "logo" in
  let! the_logo := resolveAssetUrl (Js.or fm_logo (JStr "")) in
  let! fm_logo_dark := Js.get fm "logo_dark" in
  let! the_logo_dark :=
    resolveAssetUrl (Js.or (Js.or fm_logo_dark fm_logo) (JStr "")) in
  let! fm_favicon := Js.get fm "favicon" in
  let! the_favicon := resolveAssetUrl (Js.or fm_favicon (JStr "")) in
  let! fm_accent := Js.get fm "accent_color" in
  let! fm_header := Js.get fm "header_style" in
  let! fm_footer := Js.get fm "footer_text" in
  let! fm_css := Js.get fm "custom_css" in
  let! the_css := resolveAssetUrl (Js.or fm_css (JStr "")) in
  let! fm_og := Js.get fm "og_image" in
  let! the_og := resolveAssetUrl (Js.or fm_og (JStr "")) in
  Returned
    {| logo := the_logo; logoDark := the_logo_dark; favicon := the_favicon;
       accentColor := Js.or fm_accent (JStr "");
       headerStyle := parse_header_style fm_header;
       footerText := Js.or fm_footer (JStr "");
       footerLinks := links; customCss := the_css; ogImage := the_og |}.

Definition brandPathOf (contentDir : string) : string :=
  Path.join contentDir "_brand.md".

(** The body of the [try] of [getBrandConfig]: the configuration returned
    and the state it left, or the throw. *)
Definition getBrandConfig_try (w : World) (st : State) (brandPath : string)
  : Outcome (BrandConfig * State) :=
  let! mtimeMs := statSync w brandPath in
  let parse :=
    let! content := readFileSync w brandPath in
    match Config.frontmatter_match content with
    | None =>
        Returned (DEFAULT_BRAND,
                  {| brandCache := Some DEFAULT_BRAND; brandMtime := mtimeMs |})
    | Some body =>
        let! parsed := yaml_parse w body in
        let! config := parse_brand (Js.or parsed (JObj [])) in
        Returned (config, {| brandCache := Some config; brandMtime := mtimeMs |})
    end in
  match brandCache st with
  | Some cached =>
      if mtimeMs =? brandMtime st then Returned (cached, st) else parse
  | None => parse
  end.

Definition getBrandConfig (w : World) (st : State) (contentDir : string)
  : BrandConfig * State :=
  let brandPath := brandPathOf contentDir in
  if negb (existsSync w brandPath) then
    match brandCache st with
    | Some cached => (cached, st)
    | None =>
        (DEFAULT_BRAND,
         {| brandCache := Some DEFAULT_BRAND; brandMtime := brandMtime st |})
    end
  else
    match getBrandConfig_try w st brandPath with
    | Returned r => r
    | Thrown _ =>
        (DEFAULT_BRAND,
         {| brandCache := Some DEFAULT_BRAND; brandMtime := brandMtime st |})
    end.

Definition invalidateBrandCache (st : State) : State := initial.

(** A run of calls, each in the world it meets. *)
Fixpoint run (calls : list (World * string)) (st : State)
  : list BrandConfig * State :=
  match calls with
  | [] => ([], st)
  | (w, contentDir) :: rest =>
      let '(config, st') := getBrandConfig w st contentDir in
      let '(configs, st'') := run rest st' in
      (config :: configs, st'')
  end.

End Brand.

(** ** image-processor.ts *)

Module ImageProcessor.

Definition Buffer : Type := list Byte.byte.

Inductive Format : Type := webp | avif | jpeg | jpg | png | original.

Record ImageOptions : Type := {
  width : option Z;
  height : option Z;
  format : option Format;
  quality : option Z
}.

Record ProcessedImage : Type := {
  buffer : Buffer;
  mimeType : string;
  outWidth : option Z;
  outHeight : option Z
}.

Definition MAX_WIDTH : Z := 3840.
Definition MAX_HEIGHT : Z := 2160.
Definition DEFAULT_QUALITY : Z := 80.

Definition format_name (f : Format) : string :=
  match f with
  | webp => "webp" | avif => "avif" | jpeg => "jpeg"
  | jpg => "jpg" | png => "png" | original => "original"
  end.

(** [SUPPORTED_FORMATS.includes(name)] and the format it names. *)
Definition supported_format (name : string) : option Format :=
  if (name =? "webp")%string then Some webp
  else if (name =? "avif")%string then Some avif
  else if (name =? "jpeg")%string then Some jpeg
  else if (name =? "jpg")%string then Some jpg
  else if (name =? "png")%string then Some png
  else None.

(** A number option that is set and not zero. *)
Definition truthy_num (n : option Z) : bool :=
  match n with
  | Some v => negb (v =? 0)
  | None => false
  end.

Definition getCacheKey (originalName : string) (options : ImageOptions) : string :=
  let name := Path.basename_ext originalName (Path.extname originalName) in
  let parts :=
    [name]
    ++ (match width options with
        | Some w => if truthy_num (Some w) then ["w" +:+ showZ w] else []
        | None => []
        end)
    ++ (match height options with
        | Some h => if truthy_num (Some h) then ["h" +:+ showZ h] else []
        | None => []
        end)
    ++ (match quality options with
        | Some q =>
            if truthy_num (Some q) && negb (q =? DEFAULT_QUALITY)
            then ["q" +:+ showZ q] else []
        | None => []
        end) in
  let ext :=
    match format options with
    | Some original | None => Path.extname originalName
    | Some jpeg => ".jpg"
    | Some f => "." +:+ format_name f
    end in
  String.concat "-" parts +:+ ext.

Definition getMimeType (fmt : string) : string :=
  if (fmt =? "webp")%string then "image/webp"
  else if (fmt =? "avif")%string then "image/avif"
  else if (fmt =? "jpeg")%string then "image/jpeg"
  else if (fmt =? "jpg")%string then "image/jpeg"
  else if (fmt =? "png")%string then "image/png"
  else if (fmt =? "gif")%string then "image/gif"
  else if (fmt =? "svg")%string then "image/svg+xml"
  else "application/octet-stream".

(** What the code asks of sharp: the resize box and the output encoder. *)
Inductive Encoder : Type :=
| ToWebp (q : Z) | ToAvif (q : Z) | ToJpeg (q : Z) | ToPng | Keep.

Record Pipeline : Type := {
  resize : option (option Z * option Z);
  encoder : Encoder
}.

(** [info] of [toBuffer({ resolveWithObject: true })]. *)
Record Info : Type := { infoFormat : string; infoWidth : Z; infoHeight : Z }.

Record State : Type := {
  sharpModule : bool;
  sharpAvailable : bool
}.

Definition initial : State := {| sharpModule := false; sharpAvailable := true |}.

(** What one call meets: whether [import('sharp')] succeeds, what sharp
    does with a buffer and a pipeline, the files, and whether the
    derivative can be written ([mkdir] and [writeFile]). *)
Record World : Type := {
  importSharp : bool;
  sharp : Buffer -> Pipeline -> Outcome (Buffer * Info);
  existsSync : string -> bool;
  stat : string -> Outcome Z;
  readFile : string -> Outcome Buffer;
  writeDerivative : string -> Buffer -> Outcome unit
}.

Inductive Event : Type :=
| SharpUnavailable
| CodecRun (source : Buffer) (p : Pipeline)
| CodecRaised
| Wrote (path : string) (data : Buffer)
| WriteFailed (path : string).

Definition getSharp (w : World) (st : State) : bool * State * list string :=
  if negb (sharpAvailable st) then (false, st, [])
  else if sharpModule st then (true, st, [])
  else if importSharp w
       then (true, {| sharpModule := true; sharpAvailable := sharpAvailable st |}, [])
       else (false, {| sharpModule := sharpModule st; sharpAvailable := false |},
             ["sharp not available"]).

Definition pipeline_of (options : ImageOptions) : Pipeline :=
  let q := match quality options with
           | Some v => if truthy_num (Some v) then v else DEFAULT_QUALITY
           | None => DEFAULT_QUALITY
           end in
  {| resize :=
       if truthy_num (width options) || truthy_num (height options)
       then Some (match width options with
                  | Some v => if truthy_num (Some v) then Some (Z.min v MAX_WIDTH) else None
                  | None => None
                  end,
                  match height options with
                  | Some v => if truthy_num (Some v) then Some (Z.min v MAX_HEIGHT) else None
                  | None => None
                  end)
       else None;
     encoder :=
       match format options with
       | Some webp => ToWebp q
       | Some avif => ToAvif q
       | Some jpeg | Some jpg => ToJpeg q
       | Some png => ToPng
       | Some original | None => Keep
       end |}.

(** The image or [null], the loader state, the events and the warnings. *)
Definition processImageBuffer (w : World) (st : State)
    (sourceBuffer : Buffer) (options : ImageOptions)
  : option ProcessedImage * State * list Event * list string :=
  let '(loaded, st', warned) := getSharp w st in
  if negb loaded then (None, st', [SharpUnavailable], warned)
  else
    match sharp w sourceBuffer (pipeline_of options) with
    | Returned (data, info) =>
        let outputFormat :=
          match format options with
          | Some original | None => infoFormat info
          | Some f => format_name f
          end in
        (Some {| buffer := data; mimeType := getMimeType outputFormat;
                 outWidth := Some (infoWidth info);
                 outHeight := Some (infoHeight info) |},
         st', [CodecRun sourceBuffer (pipeline_of options)], warned)
    | Thrown _ =>
        (None, st',
         [CodecRun sourceBuffer (pipeline_of options); CodecRaised],
         warned ++ ["Image processing failed"])
    end.

(** [w], [h], [f], [q] of a query: absent, a string, or a repeated
    parameter (an array of strings). *)
Inductive QueryValue : Type :=
| QString (s : string)
| QArray (items : list string).

Definition Query : Type := string -> option QueryValue.

Definition q_truthy (v : option QueryValue) : bool :=
  match v with
  | Some (QString s) => negb (s =? "")%string
  | Some (QArray _) => true
  | None => false
  end.

(** [a || b] *)
Definition q_or (a b : option QueryValue) : option QueryValue :=
  if q_truthy a then a else b.

(** [String(v)] *)
Definition q_string (v : QueryValue) : string :=
  match v with
  | QString s => s
  | QArray items => String.concat "," items
  end.

(** The white space that [parseInt] skips ([StrWhiteSpaceChar]: the white
    space and the line terminators of ECMAScript), by the length of its
    UTF-8 encoding. One byte: U+0009 to U+000D and U+0020. *)
Definition is_space (c : ascii) : bool :=
  let n := N_of_ascii c in ((9 <=? n) && (n <=? 13) || (n =? 32))%N.

Definition byte_is (c : ascii) (n : N) : bool := (N_of_ascii c =? n)%N.

(** Two bytes: U+00A0. *)
Definition is_space2 (c1 c2 : ascii) : bool :=
  byte_is c1 194 && byte_is c2 160.

(** Three bytes: U+1680, U+2000 to U+200A, U+2028, U+2029, U+202F, U+205F,
    U+3000 and U+FEFF. *)
Definition is_space3 (c1 c2 c3 : ascii) : bool :=
  let n3 := N_of_ascii c3 in
  byte_is c1 225 && byte_is c2 154 && byte_is c3 128
  || byte_is c1 226 && byte_is c2 128
     && ((128 <=? n3) && (n3 <=? 138) || (n3 =? 168) || (n3 =? 169)
         || (n3 =? 175))%N
  || byte_is c1 226 && byte_is c2 129 && byte_is c3 159
  || byte_is c1 227 && byte_is c2 128 && byte_is c3 128
  || byte_is c1 239 && byte_is c2 187 && byte_is c3 191.

Definition digit_of (c : ascii) : option Z :=
  let n := N_of_ascii c in
  if ((48 <=? n) && (n <=? 57))%N then Some (Z.of_N n - 48) else None.

Fixpoint skip_spaces (s : string) : string :=
  match s with
  | String c1 s1 =>
      if is_space c1 then skip_spaces s1
      else
        match s1 with
        | String c2 s2 =>
            if is_space2 c1 c2 then skip_spaces s2
            else
              match s2 with
              | String c3 s3 =>
                  if is_space3 c1 c2 c3 then skip_spaces s3 else s
              | EmptyString => s
              end
        | EmptyString => s
        end
  | EmptyString => s
  end.

(** The value of the longest prefix of digits, if there is one. *)
Fixpoint digits (acc : option Z) (s : string) : option Z :=
  match s with
  | String c s' =>
      match digit_of c with
      | Some d => digits (Some (10 * match acc with Some a => a | None => 0 end + d)) s'
      | None => acc
      end
  | EmptyString => acc
  end.

(** [parseInt(s, 10)]; [None] is [NaN]. *)
Definition parseInt (s : string) : option Z :=
  match skip_spaces s with
  | String "-" s' => option_map Z.opp (digits None s')
  | String "+" s' => digits None s'
  | s' => digits None s'
  end.

Definition parse_bounded (lo hi : Z) (v : option QueryValue) : option Z :=
  match v with
  | Some raw =>
      if q_truthy v then
        match parseInt (q_string raw) with
        | Some n => if (lo <=? n) && (n <=? hi) then Some n else None
        | None => None
        end
      else None
  | None => None
  end.

Definition parseImageOptions (query : Query) : option ImageOptions :=
  let w := q_or (query "w") (query "width") in
  let h := q_or (query "h") (query "height") in
  let f := q_or (query "f") (query "format") in
  let q := q_or (query "q") (query "quality") in
  if negb (q_truthy w) && negb (q_truthy h) && negb (q_truthy f) && negb (q_truthy q)
  then None
  else
    let options :=
      {| width := parse_bounded 1 MAX_WIDTH w;
         height := parse_bounded 1 MAX_HEIGHT h;
         format := match f with
                   | Some raw =>
                       if q_truthy f
                       then supported_format (Str.toLowerCase (q_string raw))
                       else None
                   | None => None
                   end;
         quality := parse_bounded 1 100 q |} in
    match width options, height options, format options, quality options with
    | None, None, None, None => None
    | _, _, _, _ => Some options
    end.

Definition cachePathOf (sourcePath cacheDir : string) (options : ImageOptions)
  : string :=
  Path.join cacheDir (getCacheKey (Path.basename sourcePath) options).

(** The disk-cache stage: the derivative served, if it is. *)
Definition cached_derivative (w : World) (sourcePath cachePath : string)
  : option ProcessedImage :=
  if existsSync w cachePath then
    match stat w sourcePath, stat w cachePath with
    | Returned sourceMtime, Returned cacheMtime =>
        if cacheMtime >=? sourceMtime then
          match readFile w cachePath with
          | Returned data =>
              Some {| buffer := data;
                      mimeType :=
                        getMimeType
                          (Str.strip_prefix "."
                             (Str.toLowerCase (Path.extname cachePath)));
                      outWidth := None; outHeight := None |}
          | Thrown _ => None
          end
        else None
    | _, _ => None
    end
  else None.

Record Result : Type := {
  outcome : Outcome (option ProcessedImage);
  after : State;
  events : list Event;
  warnings : list string
}.

Definition getProcessedImage (w : World) (st : State)
    (sourcePath cacheDir : string) (options : ImageOptions) : Result :=
  let cachePath := cachePathOf sourcePath cacheDir options in
  match cached_derivative w sourcePath cachePath with
  | Some image =>
      {| outcome := Returned (Some image); after := st;
         events := []; warnings := [] |}
  | None =>
      match readFile w sourcePath with
      | Thrown e =>
          {| outcome := Thrown e; after := st; events := []; warnings := [] |}
      | Returned sourceBuffer =>
          let '(result, st', evs, warned) :=
            processImageBuffer w st sourceBuffer options in
          match result with
          | None =>
              {| outcome := Returned None; after := st';
                 events := evs; warnings := warned |}
          | Some image =>
              match writeDerivative w cachePath (buffer image) with
              | Returned _ =>
                  {| outcome := Returned (Some image); after := st';
                     events := evs ++ [Wrote cachePath (buffer image)];
                     warnings := warned |}
              | Thrown _ =>
                  {| outcome := Returned (Some image); after := st';
                     events := evs ++ [WriteFailed cachePath];
                     warnings := warned ++ ["Failed to write image cache"] |}
              end
          end
      end
  end.

End ImageProcessor.

(** * Notions used to state the properties *)

(** [free c s]: the character [c] does not occur in [s]. *)
Definition free (c : ascii) (s : string) : Prop := Str.contains_char c s = false.

(** A name that [readdir] can return: not empty, not [.] or [..], and
    without a slash. *)
Definition valid_name (name : string) : bool :=
  negb (name =? "")%string && negb (name =? ".")%string
  && negb (name =? "..")%string && negb (Str.contains_char "/" name).

(** A kept stack of [normalizeString]: names, above the [..] that climb
    out of a relative path. *)
Definition normal (allowAboveRoot : bool) (stack : list string) : Prop :=
  exists plains k,
    stack = plains ++ repeat ".." k
    /\ Forall (fun s => valid_name s = true) plains
    /\ (allowAboveRoot = false -> k = 0%nat).

(** The path of the entry reached from [dir] through [names]. *)
Definition pathOf (dir : string) (names : list string) : string :=
  fold_left Path.join names dir.

(** The tree holds names that [readdir] can return. *)
Fixpoint wf (n : node) : bool :=
  match n with
  | Dir (Some dirEntries) =>
      (fix all (es : list (string * node)) : bool :=
         match es with
         | [] => true
         | (name, child) :: rest => valid_name name && wf child && all rest
         end) dirEntries
  | _ => true
  end.

(** The qualifying content files of a tree, in the words of the
    specification: the [(path, mtime)] pairs of the [.md] and [.json] files
    that can be [stat]ed, below readable directories, with no name on the
    path that is skipped. The path is the list of names from the root. *)
Inductive qualifying : node -> list string -> Z -> Prop :=
| qualifying_file dirEntries name mtime :
    In (name, File (Some mtime)) dirEntries ->
    LlmsCache.skipped name = false ->
    LlmsCache.tracked name = true ->
    qualifying (Dir (Some dirEntries)) [name] mtime
| qualifying_below dirEntries name listing names mtime :
    In (name, Dir listing) dirEntries ->
    LlmsCache.skipped name = false ->
    qualifying (Dir listing) names mtime ->
    qualifying (Dir (Some dirEntries)) (name :: names) mtime.

(** [located n names n']: the entry [n'] lies in the tree [n] at [names]. *)
Inductive located : node -> list string -> node -> Prop :=
| located_here n : located n [] n
| located_below dirEntries name child names n' :
    In (name, child) dirEntries ->
    located child names n' ->
    located (Dir (Some dirEntries)) (name :: names) n'.

(** Induction on a tree, with the property known of every entry of a
    directory. *)
Section node_induction.
Variable P : node -> Prop.
Hypothesis Pfile : forall st, P (File st).
Hypothesis Punreadable : P (Dir None).
Hypothesis Pdir :
  forall es, List.Forall (fun e => P (snd e)) es -> P (Dir (Some es)).

Fixpoint node_induction (n : node) : P n :=
  match n with
  | File st => Pfile st
  | Dir None => Punreadable
  | Dir (Some es) =>
      Pdir es
        ((fix all (l : list (string * node)) : List.Forall (fun e => P (snd e)) l :=
            match l with
            | [] => List.Forall_nil _
            | (name, child) :: rest =>
                @List.Forall_cons _ (fun e => P (snd e)) (name, child) rest
                  (node_induction child) (all rest)
            end) es)
  end.
End node_induction.

(** The qualifying files as a list, in the order of the walk. *)
Fixpoint content_files (n : node) : list (list string * Z) :=
  match n with
  | File _ => []
  | Dir None => []
  | Dir (Some dirEntries) =>
      (fix loop (es : list (string * node)) : list (list string * Z) :=
         match es with
         | [] => []
         | (name, child) :: rest =>
             if LlmsCache.skipped name then loop rest
             else
               match child with
               | Dir _ =>
                   map (fun f => (name :: fst f, snd f)) (content_files child)
                   ++ loop rest
               | File st =>
                   if LlmsCache.tracked name then
                     match st with
                     | Some mtime => ([name], mtime) :: loop rest
                     | None => loop rest
                     end
                   else loop rest
               end
         end) dirEntries
  end.

Definition entry_of (dir : string) (f : list string * Z) : string :=
  LlmsCache.entry (pathOf dir (fst f)) (snd f).

(** The tree without what the walk leaves aside: the entries with a
    skipped name and the files that are neither [.md] nor [.json]. *)
Fixpoint prune (n : node) : node :=
  match n with
  | Dir (Some dirEntries) =>
      Dir (Some
        ((fix loop (es : list (string * node)) : list (string * node) :=
            match es with
            | [] => []
            | (name, child) :: rest =>
                if LlmsCache.skipped name then loop rest
                else
                  match child with
                  | Dir _ => (name, prune child) :: loop rest
                  | File _ =>
                      if LlmsCache.tracked name then (name, child) :: loop rest
                      else loop rest
                  end
            end) dirEntries))
  | _ => n
  end.

(** Two lists of qualifying files that differ by one file: added, deleted,
    renamed (moved) or modified. *)
Inductive one_file_change (before after : list (list string * Z)) : Prop :=
| file_added p t :
    after ≡ₚ (p, t) :: before -> one_file_change before after
| file_deleted p t :
    before ≡ₚ (p, t) :: after -> one_file_change before after
| file_renamed p p' t t' others :
    p <> p' ->
    before ≡ₚ (p, t) :: others -> after ≡ₚ (p', t') :: others ->
    one_file_change before after
| file_modified p t t' others :
    t <> t' ->
    before ≡ₚ (p, t) :: others -> after ≡ₚ (p, t') :: others ->
    one_file_change before after.

(** Whether a request is scoped to sections, and its cache key. *)
Definition scoped (options : LlmsCache.LlmGeneratorOptions) : bool :=
  match LlmsCache.sections options with
  | Some (_ :: _) => true
  | _ => false
  end.

Definition sectionKeyOf (options : LlmsCache.LlmGeneratorOptions) : string :=
  match LlmsCache.sections options with
  | Some secs => String.concat "," (merge_sort String.le secs)
  | None => ""
  end.

(** The text that a request for [options] is served from the cache, when
    the tree has the fingerprint [currentHash]. *)
Definition entry_hit (st : LlmsCache.State)
    (options : LlmsCache.LlmGeneratorOptions) (currentHash : string)
  : option string :=
  if scoped options
  then LlmsCache.section_hit st (sectionKeyOf options) currentHash
  else LlmsCache.full_hit st currentHash.

Definition hash_at (w : LlmsCache.World) (contentDir : string) : string :=
  LlmsCache.computeContentHash contentDir (LlmsCache.treeAt w contentDir).

(** Repeated calls of [getCachedLlmsTxt] with the same arguments, each in
    the world it meets. *)
Fixpoint repeated_get (worlds : list LlmsCache.World) (st : LlmsCache.State)
    (contentDir siteName : string) (options : LlmsCache.LlmGeneratorOptions)
  : list LlmsCache.Result :=
  match worlds with
  | [] => []
  | w :: rest =>
      let r := LlmsCache.getCachedLlmsTxt w st contentDir siteName options in
      r :: repeated_get rest (LlmsCache.after r) contentDir siteName options
  end.

(** ** Sample content trees *)

Module Sample.

Definition site : node :=
  Dir (Some
    [("guides", Dir (Some [("intro.md", File (Some 100));
                           ("_draft.md", File (Some 101));
                           ("notes.txt", File (Some 102))]));
     ("api", Dir (Some [("users.json", File (Some 200))]));
     (".git", Dir (Some [("HEAD.md", File (Some 300))]));
     ("assets", Dir (Some [("logo.md", File (Some 400))]));
     ("nav.md", File (Some 500))]).

(** [site] after an edit of [guides/intro.md] only. *)
Definition site_guides_edited : node :=
  Dir (Some
    [("guides", Dir (Some [("intro.md", File (Some 999));
                           ("_draft.md", File (Some 101));
                           ("notes.txt", File (Some 102))]));
     ("api", Dir (Some [("users.json", File (Some 200))]));
     (".git", Dir (Some [("HEAD.md", File (Some 300))]));
     ("assets", Dir (Some [("logo.md", File (Some 400))]));
     ("nav.md", File (Some 500))]).

Definition two_pages : node :=
  Dir (Some [("x.md", File (Some 10)); ("y.md", File (Some 20))]).

Definition one_page : node :=
  Dir (Some [("x.md", File (Some 10))]).

Definition one_page_and_hidden : node :=
  Dir (Some [(".cache", Dir (Some [("t.md", File (Some 7))]));
             ("x.md", File (Some 10));
             ("_config.md", File (Some 30))]).

(** Directory names that hold a line break. *)
Definition p_and_break : string := "p.md:1" +:+ newline +:+ "content".
Definition q_and_break : string := "q.md:1" +:+ newline +:+ "content".

Definition broken_names : node :=
  Dir (Some
    [(p_and_break,
      Dir (Some [(q_and_break, Dir (Some [("p.md", File (Some 1))]))]));
     (q_and_break, Dir (Some [("p.md", File (Some 1))]))]).

(** [broken_names] after the move of the page of the second directory
    into the first, as [q.md]. *)
Definition broken_names_moved : node :=
  Dir (Some
    [(p_and_break,
      Dir (Some [(q_and_break, Dir (Some [("p.md", File (Some 1))]));
                 ("q.md", File (Some 1))]));
     (q_and_break, Dir (Some []))]).

(** A world with the tree [tree] at every path and a generator that
    returns [text]. *)
Definition llms_world (tree : node) (text : string) : LlmsCache.World :=
  {| LlmsCache.treeAt := fun _ => tree;
     LlmsCache.generateLlmText := fun _ _ _ => Returned text;
     LlmsCache.now := 0 |}.

Definition api_only : LlmsCache.LlmGeneratorOptions :=
  {| LlmsCache.sections := Some ["api"] |}.

Definition everything : LlmsCache.LlmGeneratorOptions :=
  {| LlmsCache.sections := None |}.

End Sample.

(** A run of [resolveDirectoryConfig] calls, each in the world it meets:
    the results, in order. *)
Fixpoint resolve_all (calls : list (Config.World * string * string))
    (st : Config.State) : list Config.Result :=
  match calls with
  | [] => []
  | (w, contentDir, dirPath) :: rest =>
      let r := Config.resolveDirectoryConfig w st contentDir dirPath in
      r :: resolve_all rest (Config.after r)
  end.

(** The cache after the run. *)
Fixpoint resolve_final (calls : list (Config.World * string * string))
    (st : Config.State) : Config.State :=
  match calls with
  | [] => st
  | (w, contentDir, dirPath) :: rest =>
      resolve_final rest
        (Config.after (Config.resolveDirectoryConfig w st contentDir dirPath))
  end.

Module SampleConfig.

Definition development : Config.Env :=
  {| Config.NODE_ENV := Some "development"; Config.F0_MODE := None;
     Config.NUXT_PUBLIC_SITE_NAME := None;
     Config.NUXT_PUBLIC_SITE_DESCRIPTION := None |}.

Definition in_production : Config.Env :=
  {| Config.NODE_ENV := Some "production"; Config.F0_MODE := None;
     Config.NUXT_PUBLIC_SITE_NAME := None;
     Config.NUXT_PUBLIC_SITE_DESCRIPTION := None |}.

Definition blog_settings : string :=
  "---" +:+ newline +:+ "layout: blog" +:+ newline +:+ "---" +:+ newline.

(** A YAML parser for the samples: it knows one document. *)
Definition sample_yaml (body : string) : Outcome JsVal :=
  if (body =? "layout: blog")%string
  then Returned (JObj [("layout", JStr "blog")])
  else Thrown "YAMLParseError".

(** A world at time [t] where the files [present] exist, each holding
    [content]. *)
Definition world_at (e : Config.Env) (t : Z) (present : list string)
    (content : string) : Config.World :=
  {| Config.env := e;
     Config.existsSync := fun path => bool_decide (path ∈ present);
     Config.readFileSync := fun _ => Returned content;
     Config.yaml_parse := sample_yaml;
     Config.nowAtCheck := t;
     Config.nowAtStore := t |}.

(** A world where the settings file of [docs] exists and cannot be read. *)
Definition unreadable_world : Config.World :=
  {| Config.env := development;
     Config.existsSync := fun _ => true;
     Config.readFileSync := fun _ => Thrown "EACCES";
     Config.yaml_parse := sample_yaml;
     Config.nowAtCheck := 0;
     Config.nowAtStore := 0 |}.

End SampleConfig.

Module SampleBrand.

Definition acme_settings : string :=
  "---" +:+ newline +:+ "accent_color: '#2563eb'" +:+ newline +:+ "---" +:+ newline.

Definition acme : Brand.BrandConfig :=
  {| Brand.logo := ""; Brand.logoDark := ""; Brand.favicon := "";
     Brand.accentColor := JStr "#2563eb"; Brand.headerStyle := Brand.text_only;
     Brand.footerText := JStr ""; Brand.footerLinks := [];
     Brand.customCss := ""; Brand.ogImage := "" |}.

(** The brand file is there, last modified at 1000. *)
Definition with_file : Brand.World :=
  {| Brand.existsSync := fun _ => true;
     Brand.statSync := fun _ => Returned 1000;
     Brand.readFileSync := fun _ => Returned acme_settings;
     Brand.yaml_parse :=
       fun _ => Returned (JObj [("accent_color", JStr "#2563eb")]) |}.

(** The brand file has been deleted. *)
Definition file_deleted : Brand.World :=
  {| Brand.existsSync := fun _ => false;
     Brand.statSync := fun _ => Thrown "ENOENT";
     Brand.readFileSync := fun _ => Thrown "ENOENT";
     Brand.yaml_parse := fun _ => Thrown "YAMLParseError" |}.

End SampleBrand.

(** Whether [getSharp] gives the module. *)
Definition sharp_loads (w : ImageProcessor.World) (st : ImageProcessor.State)
  : bool :=
  ImageProcessor.sharpAvailable st
  && (ImageProcessor.sharpModule st || ImageProcessor.importSharp w).

(** The world [w] with another fate for the write of the derivative. *)
Definition with_write (w : ImageProcessor.World)
    (write : string -> ImageProcessor.Buffer -> Outcome unit)
  : ImageProcessor.World :=
  {| ImageProcessor.importSharp := ImageProcessor.importSharp w;
     ImageProcessor.sharp := ImageProcessor.sharp w;
     ImageProcessor.existsSync := ImageProcessor.existsSync w;
     ImageProcessor.stat := ImageProcessor.stat w;
     ImageProcessor.readFile := ImageProcessor.readFile w;
     ImageProcessor.writeDerivative := write |}.

(** A requested value that gives no number in [lo..hi]: absent, not
    numeric for [parseInt], or out of range. *)
Definition no_number_in (lo hi : Z) (v : option ImageProcessor.QueryValue)
  : Prop :=
  match v with
  | Some raw =>
      match ImageProcessor.parseInt (ImageProcessor.q_string raw) with
      | Some n => n < lo \/ hi < n
      | None => True
      end
  | None => True
  end.

Definition no_format (v : option ImageProcessor.QueryValue) : Prop :=
  match v with
  | Some raw =>
      ImageProcessor.supported_format
        (Str.toLowerCase (ImageProcessor.q_string raw)) = None
  | None => True
  end.

Module SampleImage.

Definition photo : ImageProcessor.Buffer := [Byte.x89; Byte.x50; Byte.x4e; Byte.x47].
Definition small : ImageProcessor.Buffer := [Byte.x52; Byte.x49; Byte.x46; Byte.x46].

Definition w800_webp : ImageProcessor.ImageOptions :=
  {| ImageProcessor.width := Some 800; ImageProcessor.height := None;
     ImageProcessor.format := Some ImageProcessor.webp;
     ImageProcessor.quality := None |}.

(** The source was modified at [sourceMtime]; the derivative, if
    [derivativeMtime] is given, exists and holds [small]; sharp can be
    imported if [canImport] and throws on every buffer if [raises]. *)
Definition world (sourceMtime : Z) (derivativeMtime : option Z)
    (canImport raises writeFails : bool) : ImageProcessor.World :=
  {| ImageProcessor.importSharp := canImport;
     ImageProcessor.sharp :=
       fun _ _ =>
         if raises then Thrown "Input buffer contains unsupported image format"
         else Returned (small, {| ImageProcessor.infoFormat := "webp";
                                  ImageProcessor.infoWidth := 800;
                                  ImageProcessor.infoHeight := 600 |});
     ImageProcessor.existsSync :=
       fun path =>
         (path =? "/srv/content/assets/photo.png")%string
         || match derivativeMtime with Some _ => true | None => false end;
     ImageProcessor.stat :=
       fun path =>
         if (path =? "/srv/content/assets/photo.png")%string
         then Returned sourceMtime
         else match derivativeMtime with
              | Some t => Returned t
              | None => Thrown "ENOENT"
              end;
     ImageProcessor.readFile :=
       fun path =>
         if (path =? "/srv/content/assets/photo.png")%string
         then Returned photo
         else match derivativeMtime with
              | Some _ => Returned small
              | None => Thrown "ENOENT"
              end;
     ImageProcessor.writeDerivative :=
       fun _ _ => if writeFails then Thrown "ENOSPC" else Returned tt |}.

Definition query_of (w h f q : option string) : ImageProcessor.Query :=
  fun key =>
    if (key =? "w")%string then option_map ImageProcessor.QString w
    else if (key =? "h")%string then option_map ImageProcessor.QString h
    else if (key =? "f")%string then option_map ImageProcessor.QString f
    else if (key =? "q")%string then option_map ImageProcessor.QString q
    else None.

End SampleImage.

(** * The rest of the cited files and their callers *)

(** ** config.ts: the settings of a content path *)

Module ConfigPaths.

(** [normalized.split('/')[0] || ''] of [contentPath.replace(/^\//, '')]. *)
Definition firstSegment (contentPath : string) : string :=
  match Str.split "/" (Str.strip_prefix "/" contentPath) with
  | seg :: _ => seg
  | [] => ""
  end.

Definition getConfigForPath (w : Config.World) (st : Config.State)
    (contentDir contentPath : string) : Config.Result :=
  Config.resolveDirectoryConfig w st contentDir (firstSegment contentPath).

(** The layout returned, and the cache afterwards. *)
Definition resolveLayoutForPath (w : Config.World) (st : Config.State)
    (contentDir contentPath : string) : Outcome Config.Layout * Config.State :=
  let r := Config.resolveDirectoryConfig w st contentDir (firstSegment contentPath) in
  (let! config := Config.outcome r in Returned (Config.layout config),
   Config.after r).

End ConfigPaths.

(** ** llms-cache.ts: the status, and the /llms.txt route *)

Module LlmsRoute.

(** [size] counts the bytes of the text (its UTF-16 units when it is
    ASCII). *)
Record CacheStatus : Type := {
  cached : bool;
  generatedAt : Z;
  size : nat;
  hash : option string
}.

Definition getLlmsCacheStatus (st : LlmsCache.State) : CacheStatus :=
  {| cached := match LlmsCache.cachedLlmsTxt st with
               | Some _ => true
               | None => false
               end;
     generatedAt := LlmsCache.cachedLlmsGeneratedAt st;
     size := match LlmsCache.cachedLlmsTxt st with
             | Some t => String.length t
             | None => 0%nat
             end;
     hash := LlmsCache.cachedLlmsHash st |}.

Definition errorDocument : string :=
  "# Error" +:+ newline +:+ newline
  +:+ "Failed to generate documentation context." +:+ newline
  +:+ "Please try again later.".

(** The handler of [GET /llms.txt]: the body sent, the cache afterwards and
    the number of generator runs. *)
Definition handler (w : LlmsCache.World) (st : LlmsCache.State)
    (contentDir siteName : string) : string * LlmsCache.State * nat :=
  let r := LlmsCache.getCachedLlmsTxt w st contentDir siteName
             {| LlmsCache.sections := None |} in
  (try_catch (LlmsCache.outcome r) (fun _ => errorDocument),
   LlmsCache.after r, LlmsCache.generated r).

End LlmsRoute.

(** ** image-processor.ts: processable images, and the asset route *)

Module Assets.

Definition IMAGE_EXTENSIONS : list string :=
  [".jpg"; ".jpeg"; ".png"; ".webp"; ".avif"; ".gif"; ".svg"].

Definition isProcessableImage (filename : string) : bool :=
  let ext := Str.toLowerCase (Path.extname filename) in
  existsb (String.eqb ext) IMAGE_EXTENSIONS
  && negb (ext =? ".svg")%string && negb (ext =? ".gif")%string.

(** [s.includes(sub)] *)
Fixpoint includes (s sub : string) : bool :=
  Str.startsWith s sub ||
  match s with
  | String _ s' => includes s' sub
  | EmptyString => false
  end.

(** What the route answers: an HTTP error, or a body with its
    [Content-Type], its [Cache-Control] and whether [X-Image-Processed] is
    set. *)
Inductive Response : Type :=
| HttpError (statusCode : Z)
| Served (body : ImageProcessor.Buffer) (contentType cacheControl : string)
         (processed : bool).

(** What the route meets besides the world of the image processor: the
    resolved content directory, [stat(path).isFile()] (a rejected [stat]
    throws its error code), the query and the MIME table of mrmime. A
    thrown string is the [code] of the error. *)
Record Request : Type := {
  contentDir : string;
  isFile : string -> Outcome bool;
  query : ImageProcessor.Query;
  mimeLookup : string -> option string
}.

Definition assetsDirOf (req : Request) : string :=
  Path.join (contentDir req) "assets".

Definition filePathOf (req : Request) (assetPath : string) : string :=
  Path.normalize (Path.join (assetsDirOf req) assetPath).

(** The [catch] of the route: [ENOENT] is a 404, an HTTP error is thrown
    again, anything else is a 500. *)
Definition on_error (code : string) : Response :=
  if (code =? "ENOENT")%string then HttpError 404 else HttpError 500.

Definition serve_original (w : ImageProcessor.World) (req : Request)
    (filePath : string) : Response :=
  match ImageProcessor.readFile w filePath with
  | Thrown code => on_error code
  | Returned content =>
      Served content
        (match mimeLookup req (Str.toLowerCase (Path.extname filePath)) with
         | Some m => if (m =? "")%string then "application/octet-stream" else m
         | None => "application/octet-stream"
         end)
        "public, max-age=86400" false
  end.

Definition handler (w : ImageProcessor.World) (req : Request)
    (st : ImageProcessor.State) (assetPath : string)
  : Response * ImageProcessor.State :=
  if includes assetPath ".." || includes assetPath "//" then (HttpError 403, st)
  else
    let assetsDir := assetsDirOf req in
    let filePath := filePathOf req assetPath in
    if negb (Str.startsWith filePath assetsDir) then (HttpError 403, st)
    else
      match isFile req filePath with
      | Thrown code => (on_error code, st)
      | Returned false => (HttpError 404, st)
      | Returned true =>
          match ImageProcessor.parseImageOptions (query req) with
          | Some imageOptions =>
              if isProcessableImage filePath then
                let cacheDir :=
                  Path.join (Path.join (contentDir req) ".cache") "images" in
                let r := ImageProcessor.getProcessedImage w st filePath cacheDir
                           imageOptions in
                match ImageProcessor.outcome r with
                | Thrown code => (on_error code, ImageProcessor.after r)
                | Returned (Some image) =>
                    (Served (ImageProcessor.buffer image)
                       (ImageProcessor.mimeType image)
                       "public, max-age=604800" true,
                     ImageProcessor.after r)
                | Returned None =>
                    (serve_original w req filePath, ImageProcessor.after r)
                end
              else (serve_original w req filePath, st)
          | None => (serve_original w req filePath, st)
          end
      end.

End Assets.

(** ** feed.xml.ts: [escapeXml] *)

Module Feed.

(** [s.replace(/c/g, rep)] for one character [c]. *)
Fixpoint replaceAll (c : ascii) (rep : string) (s : string) : string :=
  match s with
  | EmptyString => EmptyString
  | String d s' =>
      if Ascii.eqb d c then rep +:+ replaceAll c rep s'
      else String d (replaceAll c rep s')
  end.

Definition quote : ascii := ascii_of_nat 34.

Definition escapeXml (text : string) : string :=
  replaceAll "'" "&apos;"
    (replaceAll quote "&quot;"
       (replaceAll ">" "&gt;"
          (replaceAll "<" "&lt;"
             (replaceAll "&" "&amp;" text)))).

End Feed.

(** ** The content API: the slug whose layout is resolved *)

Module ContentApi.

(** [slug === '' ? 'home' : slug] *)
Definition contentSlugOf (slug : string) : string :=
  if (slug =? "")%string then "home" else slug.

(** The layout that the content API gives a page. *)
Definition layoutOf (w : Config.World) (st : Config.State)
    (contentDir slug : string) : Outcome Config.Layout * Config.State :=
  ConfigPaths.resolveLayoutForPath w st contentDir (contentSlugOf slug).

End ContentApi.

(** ** The blog index: pagination *)

Module BlogIndex.

(** The numbers of the pagination are whole numbers: the page, and a
    [posts_per_page] that the settings give as a whole number. A division
    by zero leaves them. *)
Inductive Count : Type :=
| Finite (n : Z)
| Infinite
| NotANumber.

(** [Math.ceil(a / b)] for whole [a >= 0] and [b]. *)
Definition ceil_div (a b : Z) : Count :=
  if b =? 0 then (if a =? 0 then NotANumber else Infinite)
  else Finite (- ((- a) / b)).

(** [Math.max(1, x)] *)
Definition at_least_one (x : Count) : Count :=
  match x with
  | Finite n => Finite (Z.max 1 n)
  | Infinite => Infinite
  | NotANumber => NotANumber
  end.

Definition totalPages (totalPosts postsPerPage : Z) : Count :=
  at_least_one (ceil_div totalPosts postsPerPage).

(** [l.slice(start, stop)] *)
Definition slice {A} (l : list A) (start stop : Z) : list A :=
  let len := Z.of_nat (length l) in
  let clamp i := if i <? 0 then Z.max (len + i) 0 else Z.min i len in
  firstn (Z.to_nat (Z.max (clamp stop - clamp start) 0))
    (skipn (Z.to_nat (clamp start)) l).

Definition paginatedPosts {A} (posts : list A) (page postsPerPage : Z)
  : list A :=
  let startIndex := (page - 1) * postsPerPage in
  slice posts startIndex (startIndex + postsPerPage).

End BlogIndex.

(** ** Notions used for the rest of the code *)

(** Two trees that the walk cannot tell apart: the listings of [readdir]
    in another order, at any depth, and the entries that cannot be read or
    hold nothing. *)
Inductive relisted : node -> node -> Prop :=
| relisted_same n : relisted n n
| relisted_back n n' : relisted n n' -> relisted n' n
| relisted_then n1 n2 n3 : relisted n1 n2 -> relisted n2 n3 -> relisted n1 n3
| relisted_order es es' :
    es ≡ₚ es' -> relisted (Dir (Some es)) (Dir (Some es'))
| relisted_below name listing listing' before after :
    relisted (Dir listing) (Dir listing') ->
    relisted (Dir (Some (before ++ (name, Dir listing) :: after)))
             (Dir (Some (before ++ (name, Dir listing') :: after)))
| relisted_unreadable : relisted (Dir None) (Dir (Some []))
| relisted_vanished name before after :
    relisted (Dir (Some (before ++ (name, File None) :: after)))
             (Dir (Some (before ++ after)))
| relisted_empty name before after :
    relisted (Dir (Some (before ++ (name, Dir (Some [])) :: after)))
             (Dir (Some (before ++ after))).

(** The world [w] with another value of [F0_MODE]. *)
Definition with_mode (w : Config.World) (mode : option string) : Config.World :=
  {| Config.env :=
       {| Config.NODE_ENV := Config.NODE_ENV (Config.env w);
          Config.F0_MODE := mode;
          Config.NUXT_PUBLIC_SITE_NAME :=
            Config.NUXT_PUBLIC_SITE_NAME (Config.env w);
          Config.NUXT_PUBLIC_SITE_DESCRIPTION :=
            Config.NUXT_PUBLIC_SITE_DESCRIPTION (Config.env w) |};
     Config.existsSync := Config.existsSync w;
     Config.readFileSync := Config.readFileSync w;
     Config.yaml_parse := Config.yaml_parse w;
     Config.nowAtCheck := Config.nowAtCheck w;
     Config.nowAtStore := Config.nowAtStore w |}.

(** A hero image that the site can show: none, an absolute [http(s)] URL,
    or a URL of the content API. *)
Definition served_url (s : string) : bool :=
  (s =? "")%string || Str.startsWith s "http://" || Str.startsWith s "https://"
  || Str.startsWith s "/api/content/".

(** An asset of the brand: none, or a URL of the content API. *)
Definition content_url (s : string) : bool :=
  (s =? "")%string || Str.startsWith s "/api/content/".

Definition content_urls (c : Brand.BrandConfig) : bool :=
  content_url (Brand.logo c) && content_url (Brand.logoDark c)
  && content_url (Brand.favicon c) && content_url (Brand.customCss c)
  && content_url (Brand.ogImage c).

(** Calls of [processImageBuffer] in one process. [getSharp] awaits
    [import('sharp')] between its tests of [sharpAvailable] and
    [sharpModule] and the assignment that follows the import: a call that
    has to import waits there, and other calls enter or run on in between.
    A call that finds sharp unavailable, or the module loaded, runs to its
    end with no part in the loader's state. *)
Module Loader.

Definition Call : Type :=
  (ImageProcessor.World * ImageProcessor.Buffer
   * ImageProcessor.ImageOptions)%type.

(** What a call returns, the events and the warnings logged. *)
Definition Output : Type :=
  (option ImageProcessor.ProcessedImage * list ImageProcessor.Event
   * list string)%type.

(** What a call does once [getSharp] gave it the module: the [try] of
    [processImageBuffer]. *)
Definition with_module (c : Call) : Output :=
  let '(w, src, options) := c in
  let '(result, _, evs, warned) :=
    ImageProcessor.processImageBuffer w
      {| ImageProcessor.sharpModule := true;
         ImageProcessor.sharpAvailable := true |} src options in
  (result, evs, warned).

(** A call enters [processImageBuffer]; or the import that the [i]-th
    waiting call awaits settles, and that call runs to its end. *)
Inductive Action : Type :=
| Enter (c : Call)
| Settle (i : nat).

Record Process : Type := {
  loader : ImageProcessor.State;
  waiting : list Call
}.

Definition step (p : Process) (a : Action) : Process * option Output :=
  match a with
  | Enter c =>
      if negb (ImageProcessor.sharpAvailable (loader p))
      then (p, Some (None, [ImageProcessor.SharpUnavailable], []))
      else if ImageProcessor.sharpModule (loader p)
      then (p, Some (with_module c))
      else ({| loader := loader p; waiting := waiting p ++ [c] |}, None)
  | Settle i =>
      match nth_error (waiting p) i with
      | None => (p, None)
      | Some c =>
          let others := firstn i (waiting p) ++ skipn (S i) (waiting p) in
          if ImageProcessor.importSharp (fst (fst c))
          then ({| loader :=
                     {| ImageProcessor.sharpModule := true;
                        ImageProcessor.sharpAvailable :=
                          ImageProcessor.sharpAvailable (loader p) |};
                   waiting := others |},
                Some (with_module c))
          else ({| loader :=
                     {| ImageProcessor.sharpModule :=
                          ImageProcessor.sharpModule (loader p);
                        ImageProcessor.sharpAvailable := false |};
                   waiting := others |},
                Some (None, [ImageProcessor.SharpUnavailable],
                      ["sharp not available"]))
      end
  end.

(** The actions of a schedule, each with what it made a call return. *)
Fixpoint run (acts : list Action) (p : Process)
  : list (Action * option Output) :=
  match acts with
  | [] => []
  | a :: rest => (a, snd (step p a)) :: run rest (fst (step p a))
  end.

Fixpoint final (acts : list Action) (p : Process) : Process :=
  match acts with
  | [] => p
  | a :: rest => final rest (fst (step p a))
  end.

(** The warnings logged along a schedule. *)
Definition warned (trace : list (Action * option Output)) : list string :=
  flat_map (fun x => match snd x with
                     | Some out => snd out
                     | None => []
                     end) trace.

(** Calls that do not overlap: each is awaited before the next is made. *)
Definition one_after_another (calls : list Call) : list Action :=
  flat_map (fun c => [Enter c; Settle 0]) calls.

(** A process where no call is waiting. *)
Definition idle (st : ImageProcessor.State) : Process :=
  {| loader := st; waiting := [] |}.

End Loader.

(** How many of the warnings logged say that sharp is not available. *)
Definition unavailable_warnings (warned : list string) : nat :=
  length (List.filter (String.eqb "sharp not available") warned).

(** The entity that stands for a character in XML text, or the character
    itself. *)
Definition xml_entity (c : ascii) : string :=
  if Ascii.eqb c "&" then "&amp;"
  else if Ascii.eqb c "<" then "&lt;"
  else if Ascii.eqb c ">" then "&gt;"
  else if Ascii.eqb c Feed.quote then "&quot;"
  else if Ascii.eqb c "'" then "&apos;"
  else String c "".

Fixpoint xml_entities (s : string) : string :=
  match s with
  | EmptyString => EmptyString
  | String c s' => xml_entity c +:+ xml_entities s'
  end.

(** The first character that an escaped text stands for, and the rest of
    the text. *)
Definition xml_first (escaped : string) : option (ascii * string) :=
  if Str.startsWith escaped "&amp;" then Some ("&"%char, Str.drop 5 escaped)
  else if Str.startsWith escaped "&lt;" then Some ("<"%char, Str.drop 4 escaped)
  else if Str.startsWith escaped "&gt;" then Some (">"%char, Str.drop 4 escaped)
  else if Str.startsWith escaped "&quot;"
       then Some (Feed.quote, Str.drop 6 escaped)
  else if Str.startsWith escaped "&apos;" then Some ("'"%char, Str.drop 6 escaped)
  else match escaped with
       | String c rest => Some (c, rest)
       | EmptyString => None
       end.

(** * Properties *)

(** ** MD5 *)

(** RFC 1321, appendix A.5. *)
Example md5_empty : Md5.md5_hex "" = "d41d8cd98f00b204e9800998ecf8427e".
Proof. vm_compute. reflexivity. Qed.

Example md5_abc : Md5.md5_hex "abc" = "900150983cd24fb0d6963f7d28e17f72".
Proof. vm_compute. reflexivity. Qed.

Example md5_alphabet :
  Md5.md5_hex "abcdefghijklmnopqrstuvwxyz" = "c3fcd3d76192e4007dfb496cca67e13b".
Proof. vm_compute. reflexivity. Qed.

Example md5_two_blocks :
  Md5.md5_hex "12345678901234567890123456789012345678901234567890123456789012345678901234567890"
  = "57edf4a22be3c955ac49da2e2107b67a".
Proof. vm_compute. reflexivity. Qed.

(** ** Strings *)

#[local] Arguments String.append : simpl nomatch.
#[local] Arguments Ascii.eqb : simpl never.

Lemma append_nil_r (s : string) : s +:+ "" = s.
Proof. induction s as [|c s IH]; simpl; [reflexivity | now rewrite IH]. Qed.

Lemma append_assoc (a b c : string) : (a +:+ b) +:+ c = a +:+ (b +:+ c).
Proof. induction a as [|x a IH]; simpl; [reflexivity | now rewrite IH]. Qed.

Lemma free_cons c d s : free c (String d s) <-> c <> d /\ free c s.
Proof.
  unfold free; simpl. rewrite orb_false_iff.
  split; intros [H1 H2]; split; auto.
  - intros ->. now rewrite Ascii.eqb_refl in H1.
  - now apply Ascii.eqb_neq.
Qed.

Lemma free_append c a b : free c (a +:+ b) <-> free c a /\ free c b.
Proof.
  induction a as [|x a IH]; simpl.
  - unfold free at 2; simpl. tauto.
  - rewrite !free_cons, IH. tauto.
Qed.

Lemma split_free c s : free c s -> Str.split c s = [s].
Proof.
  induction s as [|d s IH]; intros H; simpl; [reflexivity|].
  apply free_cons in H as [Hne Hs].
  destruct (Ascii.eqb d c) eqn:E.
  - apply Ascii.eqb_eq in E. congruence.
  - now rewrite (IH Hs).
Qed.

Lemma split_nonempty c s : Str.split c s <> [].
Proof.
  destruct s as [|d s]; simpl; [discriminate|].
  destruct (Ascii.eqb d c); [discriminate|].
  destruct (Str.split c s); discriminate.
Qed.

Lemma split_append c x y :
  Str.split c (x +:+ String c y) = Str.split c x ++ Str.split c y.
Proof.
  induction x as [|d x IH]; simpl.
  - now rewrite Ascii.eqb_refl.
  - destruct (Ascii.eqb d c); rewrite IH; [reflexivity|].
    destruct (Str.split c x) eqn:E; [|reflexivity].
    now apply split_nonempty in E.
Qed.

Lemma split_pieces_free c s : Forall (free c) (Str.split c s).
Proof.
  induction s as [|d s IH]; simpl.
  - constructor; [reflexivity | constructor].
  - destruct (Ascii.eqb d c) eqn:E.
    + constructor; [reflexivity | exact IH].
    + destruct (Str.split c s) as [|h t] eqn:Es; [now apply split_nonempty in Es|].
      inversion IH; subst.
      constructor; [|assumption].
      apply free_cons. split; [|assumption].
      apply Ascii.eqb_neq in E. congruence.
Qed.

(** Splitting undoes joining, for pieces that do not hold the separator. *)
Lemma split_concat c (pieces : list string) :
  pieces <> [] -> Forall (free c) pieces ->
  Str.split c (String.concat (String c "") pieces) = pieces.
Proof.
  induction pieces as [|p rest IH]; intros Hne Hfree; [congruence|].
  inversion Hfree as [|? ? Hp Hrest]; subst.
  destruct rest as [|q rest'].
  - simpl. now apply split_free.
  - change (String.concat (String c "") (p :: q :: rest'))
      with (p +:+ String c (String.concat (String c "") (q :: rest'))).
    rewrite (split_append c p), (split_free _ _ Hp), IH; [reflexivity|discriminate|assumption].
Qed.

(** A text is cut in one way only at its last separator. *)
Lemma append_sep_inj c x x' y y' :
  free c y -> free c y' ->
  x +:+ String c y = x' +:+ String c y' -> x = x' /\ y = y'.
Proof.
  intros Hy Hy'. revert x'.
  induction x as [|d x IH]; intros [|d' x'] H; simpl in H.
  - injection H as ->. auto.
  - injection H as _ Hyy. rewrite Hyy in Hy.
    apply free_append in Hy as [_ Hy]. apply free_cons in Hy as [Hy _]. congruence.
  - injection H as _ Hyy. rewrite <- Hyy in Hy'.
    apply free_append in Hy' as [_ Hy']. apply free_cons in Hy' as [Hy' _]. congruence.
  - injection H as -> H. destruct (IH _ H) as [-> ->]. auto.
Qed.

Lemma last_char_append a b :
  b <> "" -> Str.last_char (a +:+ b) = Str.last_char b.
Proof.
  intros Hb. induction a as [|c a IH]; simpl; [reflexivity|].
  rewrite IH. destruct b as [|d b]; [congruence|].
  simpl. destruct (Str.last_char b); reflexivity.
Qed.

Lemma last_char_free c s :
  free c s -> forall d, Str.last_char s = Some d -> d <> c.
Proof.
  induction s as [|x s IH]; intros H d; simpl; [discriminate|].
  apply free_cons in H as [Hx Hs].
  destruct (Str.last_char s) as [e|] eqn:E.
  - intros [= <-]. now apply IH.
  - intros [= <-]. congruence.
Qed.

(** ** Paths *)

Lemma valid_name_inv name :
  valid_name name = true ->
  name <> "" /\ name <> "." /\ name <> ".." /\ free "/" name.
Proof.
  unfold valid_name, free. rewrite !andb_true_iff, !negb_true_iff.
  intros [[[H1 H2] H3] H4].
  apply String.eqb_neq in H1, H2, H3. auto.
Qed.

Lemma seg_step_valid allow stack name :
  valid_name name = true -> Path.seg_step allow stack name = name :: stack.
Proof.
  intros H. apply valid_name_inv in H as (H1 & H2 & H3 & _).
  unfold Path.seg_step.
  apply String.eqb_neq in H1, H2, H3. now rewrite H1, H2, H3.
Qed.

Lemma normal_nil allow : normal allow [].
Proof. exists [], 0%nat. simpl. auto. Qed.

Lemma normal_cons allow stack name :
  valid_name name = true -> normal allow stack -> normal allow (name :: stack).
Proof.
  intros Hn (plains & k & -> & Hp & Hk).
  exists (name :: plains), k. simpl. auto.
Qed.

Lemma normal_app allow stack names :
  Forall (fun s => valid_name s = true) names ->
  normal allow stack -> normal allow (names ++ stack).
Proof.
  induction 1 as [|n ns Hn _ IH]; intros Hs; simpl; [assumption|].
  apply normal_cons; auto.
Qed.

Lemma normal_pieces allow stack :
  normal allow stack -> Forall (fun s => s <> "" /\ free "/" s) stack.
Proof.
  intros (plains & k & -> & Hp & _). apply Forall_app. split.
  - eapply List.Forall_impl; [|exact Hp]. intros n Hn.
    apply valid_name_inv in Hn. tauto.
  - clear. induction k; simpl; constructor; auto. split; [discriminate|reflexivity].
Qed.

Lemma seg_step_normal allow stack seg :
  free "/" seg -> normal allow stack -> normal allow (Path.seg_step allow stack seg).
Proof.
  intros Hfree Hn. unfold Path.seg_step.
  destruct (String.eqb_spec seg "") as [->|H1]; simpl; [assumption|].
  destruct (String.eqb_spec seg ".") as [->|H2]; simpl; [assumption|].
  destruct (String.eqb_spec seg "..") as [->|H3].
  - destruct Hn as (plains & k & -> & Hp & Hk).
    destruct plains as [|p plains]; simpl.
    + destruct k as [|k]; simpl.
      * destruct allow; [|apply normal_nil].
        exists [], 1%nat. repeat split; [constructor | discriminate].
      * destruct allow.
        -- exists [], (S (S k)). repeat split; [constructor | discriminate].
        -- specialize (Hk eq_refl). discriminate.
    + inversion Hp as [|? ? Hv Hps]; subst.
      apply valid_name_inv in Hv as (_ & _ & Hv & _).
      apply String.eqb_neq in Hv. rewrite Hv.
      exists plains, k. auto.
  - apply normal_cons; [|assumption].
    unfold valid_name. apply String.eqb_neq in H1, H2, H3.
    rewrite H1, H2, H3. unfold free in Hfree. now rewrite Hfree.
Qed.

Lemma fold_seg_step_normal allow segs stack :
  Forall (free "/") segs -> normal allow stack ->
  normal allow (fold_left (Path.seg_step allow) segs stack).
Proof.
  intros H. revert stack.
  induction H as [|seg segs Hseg _ IH]; intros stack Hs; simpl; [assumption|].
  apply IH. now apply seg_step_normal.
Qed.

Lemma segments_normal p : normal (negb (Path.isAbsolute p)) (Path.segments p).
Proof.
  unfold Path.segments.
  apply fold_seg_step_normal; [apply split_pieces_free | apply normal_nil].
Qed.

Lemma fold_left_rev_fold_right {A B} (g : A -> B -> A) (l : list B) (a : A) :
  fold_left g (rev l) a = fold_right (fun x acc => g acc x) a l.
Proof.
  induction l as [|x l IH]; simpl; [reflexivity|].
  now rewrite fold_left_app, IH.
Qed.

(** Normalising a kept stack again gives it back. *)
Lemma fold_seg_step_rev allow stack :
  normal allow stack ->
  fold_left (Path.seg_step allow) (rev stack) [] = stack.
Proof.
  intros (plains & k & -> & Hp & Hk).
  rewrite fold_left_rev_fold_right, fold_right_app.
  assert (Hdots : fold_right (fun x acc => Path.seg_step allow acc x) []
                    (repeat ".." k) = repeat ".." k).
  { destruct allow; [|now rewrite Hk].
    clear. induction k as [|k IH]; simpl; [reflexivity|].
    rewrite IH. destruct k; reflexivity. }
  rewrite Hdots. clear Hdots Hk.
  induction Hp as [|p plains Hv _ IH]; simpl; [reflexivity|].
  rewrite IH. now apply seg_step_valid.
Qed.

Lemma startsWith_concat_slash (pieces : list string) :
  pieces <> [] -> Forall (fun s => s <> "" /\ free "/" s) pieces ->
  Str.startsWith (String.concat "/" pieces) "/" = false.
Proof.
  intros Hne H. destruct H as [|p rest [Hp Hfree] _]; [congruence|].
  destruct p as [|c p]; [congruence|].
  apply free_cons in Hfree as [Hc _].
  assert (E : Ascii.eqb "/" c = false) by now apply Ascii.eqb_neq.
  destruct rest; simpl; now rewrite E.
Qed.

Lemma render_roundtrip abs stack :
  stack <> [] -> normal (negb abs) stack ->
  Path.isAbsolute (Path.render abs stack) = abs
  /\ Path.segments (Path.render abs stack) = stack.
Proof.
  intros Hne Hn.
  pose proof (normal_pieces _ _ Hn) as Hpieces.
  assert (Hrev : rev stack <> []).
  { intros E. apply Hne. now rewrite <- (rev_involutive stack), E. }
  assert (Hpieces' : Forall (fun s => s <> "" /\ free "/" s) (rev stack)).
  { apply List.Forall_forall. intros x Hx. apply in_rev in Hx.
    revert x Hx. now apply List.Forall_forall. }
  assert (Hfree : Forall (free "/") (rev stack)).
  { eapply List.Forall_impl; [|exact Hpieces']. intros ? [_ ?]. assumption. }
  assert (Habs : Path.isAbsolute (Path.render abs stack) = abs).
  { unfold Path.isAbsolute, Path.render. destruct abs; [reflexivity|].
    now apply startsWith_concat_slash. }
  split; [exact Habs|].
  unfold Path.segments. rewrite Habs.
  unfold Path.render. destruct abs; simpl.
  - rewrite (split_concat "/" _ Hrev Hfree). now apply fold_seg_step_rev.
  - rewrite (split_concat "/" _ Hrev Hfree). now apply fold_seg_step_rev.
Qed.

Lemma isAbsolute_append d rest :
  d <> "" -> Path.isAbsolute (d +:+ rest) = Path.isAbsolute d.
Proof. destruct d; [congruence|reflexivity]. Qed.

Lemma normalize_name name :
  valid_name name = true -> Path.normalize name = name.
Proof.
  intros Hv. pose proof (valid_name_inv _ Hv) as (Hne & _ & _ & Hfree).
  unfold Path.normalize.
  apply String.eqb_neq in Hne as Hne'. rewrite Hne'.
  assert (Habs : Path.isAbsolute name = false).
  { destruct name as [|c name]; [congruence|].
    apply free_cons in Hfree as [Hc _]. unfold Path.isAbsolute. simpl.
    assert (E : Ascii.eqb "/" c = false) by now apply Ascii.eqb_neq.
    now rewrite E. }
  unfold Path.segments. rewrite Habs, (split_free _ _ Hfree). simpl.
  rewrite (seg_step_valid _ _ _ Hv).
  destruct (Str.last_char name) as [c|] eqn:El.
  - assert (E : Ascii.eqb c "/" = false).
    { apply Ascii.eqb_neq. eapply last_char_free; eauto. }
    rewrite E. unfold Path.render. simpl. apply append_nil_r.
  - unfold Path.render. simpl. apply append_nil_r.
Qed.

(** Joining a directory path and an entry name. *)
Lemma join_name d name :
  valid_name name = true ->
  Path.join d name = Path.render (Path.isAbsolute d) (name :: Path.segments d).
Proof.
  intros Hv. pose proof (valid_name_inv _ Hv) as (Hne & _ & _ & Hfree).
  unfold Path.join.
  destruct (String.eqb_spec d "") as [->|Hd].
  - rewrite (normalize_name _ Hv). unfold Path.render. reflexivity.
  - apply String.eqb_neq in Hne as Hne'. rewrite Hne'.
    unfold Path.normalize.
    assert (Hjoined : (d +:+ "/" +:+ name =? "")%string = false).
    { apply String.eqb_neq. destruct d; [congruence|discriminate]. }
    rewrite Hjoined, (isAbsolute_append _ _ Hd).
    assert (Hsegs : Path.segments (d +:+ "/" +:+ name) = name :: Path.segments d).
    { unfold Path.segments. rewrite (isAbsolute_append _ _ Hd).
      change (d +:+ "/" +:+ name) with (d +:+ String "/" name).
      rewrite (split_append "/" d), (split_free _ _ Hfree), fold_left_app. simpl.
      now apply seg_step_valid. }
    rewrite Hsegs.
    assert (Hlast : Str.last_char (d +:+ "/" +:+ name) = Str.last_char name).
    { rewrite <- append_assoc. now apply last_char_append. }
    rewrite Hlast.
    destruct (Str.last_char name) as [c|] eqn:El.
    + assert (E : Ascii.eqb c "/" = false).
      { apply Ascii.eqb_neq. eapply last_char_free; eauto. }
      rewrite E. apply append_nil_r.
    + apply append_nil_r.
Qed.

Lemma pathOf_render names :
  names <> [] -> Forall (fun s => valid_name s = true) names ->
  forall d,
    pathOf d names
    = Path.render (Path.isAbsolute d) (rev names ++ Path.segments d).
Proof.
  induction names as [|name rest IH]; intros Hne Hv d; [congruence|].
  inversion Hv as [|? ? Hname Hrest]; subst.
  unfold pathOf. simpl. fold (pathOf (Path.join d name) rest).
  destruct rest as [|r rest'].
  - simpl. now apply join_name.
  - rewrite IH; [|discriminate|assumption].
    rewrite (join_name _ _ Hname).
    destruct (render_roundtrip (Path.isAbsolute d) (name :: Path.segments d))
      as [Ha Hs]; [discriminate| |].
    { apply normal_cons; [assumption|apply segments_normal]. }
    rewrite Ha, Hs. f_equal. simpl. now rewrite <- !app_assoc.
Qed.

(** Two different name paths below one directory are different paths. *)
Lemma pathOf_inj d names names' :
  names <> [] -> names' <> [] ->
  Forall (fun s => valid_name s = true) names ->
  Forall (fun s => valid_name s = true) names' ->
  pathOf d names = pathOf d names' -> names = names'.
Proof.
  intros Hne Hne' Hv Hv' E.
  rewrite (pathOf_render _ Hne Hv), (pathOf_render _ Hne' Hv') in E.
  assert (Hn : forall l, l <> [] -> Forall (fun s => valid_name s = true) l ->
            rev l ++ Path.segments d <> []
            /\ normal (negb (Path.isAbsolute d)) (rev l ++ Path.segments d)).
  { intros l Hl Hvl. split.
    - destruct l as [|x l]; [congruence|]. simpl.
      destruct (rev l); discriminate.
    - apply normal_app; [|apply segments_normal].
      apply List.Forall_forall. intros x Hx. apply in_rev in Hx.
      revert x Hx. now apply List.Forall_forall. }
  destruct (Hn _ Hne Hv) as [H1 H2]. destruct (Hn _ Hne' Hv') as [H1' H2'].
  destruct (render_roundtrip _ _ H1 H2) as [_ Hs].
  destruct (render_roundtrip _ _ H1' H2') as [_ Hs'].
  rewrite E, Hs' in Hs. apply app_inv_tail in Hs.
  rewrite <- (rev_involutive names), <- (rev_involutive names'). now rewrite Hs.
Qed.

(** ** Decimal renderings *)

Lemma string_of_uint_free d : free ":" (NilEmpty.string_of_uint d).
Proof.
  induction d; simpl; try reflexivity;
    (apply free_cons; split; [discriminate | assumption]).
Qed.

Lemma showZ_free z : free ":" (showZ z).
Proof.
  unfold showZ.
  assert (H : forall d, free ":" (NilZero.string_of_uint d)).
  { intros d. destruct d; try reflexivity; apply (string_of_uint_free (_ _)). }
  destruct (Z.to_int z) as [d|d]; simpl; [apply H|].
  apply free_cons. split; [discriminate | apply H].
Qed.

Lemma to_int_not_nil z : Z.to_int z <> Decimal.Pos Decimal.Nil
                         /\ Z.to_int z <> Decimal.Neg Decimal.Nil.
Proof.
  split; intros E; pose proof (DecimalZ.of_to z) as H; rewrite E in H;
    simpl in H; subst z; discriminate E.
Qed.

Lemma showZ_inj a b : showZ a = showZ b -> a = b.
Proof.
  unfold showZ. intros E.
  destruct (to_int_not_nil a) as [Ha1 Ha2], (to_int_not_nil b) as [Hb1 Hb2].
  apply (f_equal NilZero.int_of_string) in E.
  rewrite !NilZero.isi in E by assumption.
  injection E as E. now apply DecimalZ.to_int_inj.
Qed.

Lemma entry_inj p t p' t' :
  LlmsCache.entry p t = LlmsCache.entry p' t' -> p = p' /\ t = t'.
Proof.
  unfold LlmsCache.entry. intros E.
  change (p +:+ String ":" (showZ t) = p' +:+ String ":" (showZ t')) in E.
  apply append_sep_inj in E as [-> E]; [|apply showZ_free..].
  split; [reflexivity | now apply showZ_inj].
Qed.

(** ** The walk *)

Lemma skipped_iff name :
  LlmsCache.skipped name = true <->
  Str.startsWith name "." = true \/ Str.startsWith name "_" = true
  \/ name = "assets" \/ name = "images" \/ name = "nav.md".
Proof.
  unfold LlmsCache.skipped. rewrite !orb_true_iff, !String.eqb_eq. tauto.
Qed.

Lemma walk_nil dir : LlmsCache.walk dir (Dir (Some [])) = [].
Proof. reflexivity. Qed.

Lemma walk_cons dir name child rest :
  LlmsCache.walk dir (Dir (Some ((name, child) :: rest)))
  = if LlmsCache.skipped name then LlmsCache.walk dir (Dir (Some rest))
    else match child with
         | Dir _ =>
             LlmsCache.walk (Path.join dir name) child
             ++ LlmsCache.walk dir (Dir (Some rest))
         | File st =>
             if LlmsCache.tracked name then
               match st with
               | Some mtime =>
                   LlmsCache.entry (Path.join dir name) mtime
                   :: LlmsCache.walk dir (Dir (Some rest))
               | None => LlmsCache.walk dir (Dir (Some rest))
               end
             else LlmsCache.walk dir (Dir (Some rest))
         end.
Proof. reflexivity. Qed.

Lemma content_files_cons name child rest :
  content_files (Dir (Some ((name, child) :: rest)))
  = if LlmsCache.skipped name then content_files (Dir (Some rest))
    else match child with
         | Dir _ =>
             map (fun f => (name :: fst f, snd f)) (content_files child)
             ++ content_files (Dir (Some rest))
         | File st =>
             if LlmsCache.tracked name then
               match st with
               | Some mtime => ([name], mtime) :: content_files (Dir (Some rest))
               | None => content_files (Dir (Some rest))
               end
             else content_files (Dir (Some rest))
         end.
Proof. reflexivity. Qed.

#[local] Arguments LlmsCache.walk : simpl never.
#[local] Arguments content_files : simpl never.

(** The walk pushes the entries of the qualifying files, and only them. *)
Lemma walk_content_files n :
  forall dir, LlmsCache.walk dir n = map (entry_of dir) (content_files n).
Proof.
  induction n as [st| |es IH] using node_induction; intros dir; try reflexivity.
  induction IH as [|[name child] rest Hchild _ IHrest]; [reflexivity|].
  rewrite walk_cons, content_files_cons.
  destruct (LlmsCache.skipped name); [exact IHrest|].
  destruct child as [st|listing].
  - destruct (LlmsCache.tracked name); [|exact IHrest].
    destruct st as [mtime|]; [|exact IHrest].
    simpl. now rewrite IHrest.
  - rewrite map_app, map_map, IHrest. f_equal.
    cbn [snd] in Hchild. rewrite Hchild. reflexivity.
Qed.

Lemma qualifying_weaken e es names mtime :
  qualifying (Dir (Some es)) names mtime ->
  qualifying (Dir (Some (e :: es))) names mtime.
Proof.
  intros H. inversion H; subst.
  - apply qualifying_file; auto. now right.
  - eapply qualifying_below; eauto. now right.
Qed.

Lemma content_files_sound n :
  forall names mtime,
    In (names, mtime) (content_files n) -> qualifying n names mtime.
Proof.
  induction n as [st| |es IH] using node_induction; intros names mtime;
    try (intros []).
  induction IH as [|[name child] rest Hchild _ IHrest]; [intros []|].
  rewrite content_files_cons. intros Hin.
  destruct (LlmsCache.skipped name) eqn:Hskip.
  { apply qualifying_weaken. auto. }
  destruct child as [st|listing].
  - destruct (LlmsCache.tracked name) eqn:Htr;
      [|apply qualifying_weaken; auto].
    destruct st as [t|]; [|apply qualifying_weaken; auto].
    destruct Hin as [[= <- <-]|Hin]; [|apply qualifying_weaken; auto].
    apply qualifying_file; auto. now left.
  - apply in_app_or in Hin as [Hin|Hin]; [|apply qualifying_weaken; auto].
    apply in_map_iff in Hin as ([p t] & [= <- <-] & Hin).
    eapply qualifying_below; [now left | assumption |].
    cbn [snd] in Hchild. now apply Hchild.
Qed.

Lemma content_files_complete n names mtime :
  qualifying n names mtime -> In (names, mtime) (content_files n).
Proof.
  induction 1 as [es name t Hin Hskip Htr
                 |es name listing names t Hin Hskip _ IH].
  - induction es as [|[name' child] rest IHes]; [destruct Hin|].
    rewrite content_files_cons.
    destruct Hin as [[= -> ->]|Hin].
    + rewrite Hskip, Htr. now left.
    + specialize (IHes Hin).
      destruct (LlmsCache.skipped name'); [assumption|].
      destruct child as [st|l]; [|apply in_or_app; now right].
      destruct (LlmsCache.tracked name'); [|assumption].
      destruct st; [now right | assumption].
  - induction es as [|[name' child] rest IHes]; [destruct Hin|].
    rewrite content_files_cons.
    destruct Hin as [[= -> ->]|Hin].
    + rewrite Hskip. apply in_or_app. left.
      apply in_map_iff. exists (names, t). auto.
    + specialize (IHes Hin).
      destruct (LlmsCache.skipped name'); [assumption|].
      destruct child as [st|l]; [|apply in_or_app; now right].
      destruct (LlmsCache.tracked name'); [|assumption].
      destruct st; [now right | assumption].
Qed.

Lemma qualifying_not_skipped n names mtime :
  qualifying n names mtime ->
  List.Forall (fun name => LlmsCache.skipped name = false) names.
Proof. induction 1; constructor; auto. Qed.

Lemma qualifying_nonempty n names mtime : qualifying n names mtime -> names <> [].
Proof. destruct 1; discriminate. Qed.

Lemma wf_cons name child rest :
  wf (Dir (Some ((name, child) :: rest))) = true <->
  valid_name name = true /\ wf child = true /\ wf (Dir (Some rest)) = true.
Proof.
  change (wf (Dir (Some ((name, child) :: rest))))
    with (valid_name name && wf child && wf (Dir (Some rest))).
  rewrite !andb_true_iff. tauto.
Qed.

Lemma wf_child es name child :
  wf (Dir (Some es)) = true -> In (name, child) es ->
  valid_name name = true /\ wf child = true.
Proof.
  induction es as [|[name' child'] rest IH]; intros Hwf Hin; [destruct Hin|].
  apply wf_cons in Hwf as (Hn & Hc & Hrest).
  destruct Hin as [[= -> ->]|Hin]; auto.
Qed.

Lemma located_valid n names n' :
  located n names n' -> wf n = true ->
  List.Forall (fun name => valid_name name = true) names.
Proof.
  induction 1 as [|es name child names n' Hin _ IH]; intros Hwf; constructor.
  - eapply wf_child; eauto.
  - apply IH. eapply wf_child; eauto.
Qed.

Lemma qualifying_located n names mtime :
  qualifying n names mtime -> located n names (File (Some mtime)).
Proof.
  induction 1.
  - eapply located_below; [eassumption | constructor].
  - eapply located_below; eassumption.
Qed.

Lemma qualifying_valid n names mtime :
  wf n = true -> qualifying n names mtime ->
  names <> [] /\ List.Forall (fun name => valid_name name = true) names.
Proof.
  intros Hwf H. split; [eapply qualifying_nonempty; eauto|].
  eapply located_valid; [eapply qualifying_located|]; eauto.
Qed.

(** Distinct files below one directory have distinct entries. *)
Lemma entry_of_inj dir f f' :
  fst f <> [] -> fst f' <> [] ->
  List.Forall (fun name => valid_name name = true) (fst f) ->
  List.Forall (fun name => valid_name name = true) (fst f') ->
  entry_of dir f = entry_of dir f' -> f = f'.
Proof.
  destruct f as [p t], f' as [p' t']. unfold entry_of. simpl.
  intros Hne Hne' Hv Hv' E.
  apply entry_inj in E as [Hp ->].
  f_equal. eapply pathOf_inj; eauto.
Qed.

(** ** Sorting *)

Lemma sort_eq_iff (l l' : list string) :
  merge_sort String.le l = merge_sort String.le l' <-> l ≡ₚ l'.
Proof.
  split; intros H.
  - rewrite <- (merge_sort_Permutation String.le l),
            <- (merge_sort_Permutation String.le l'), H. reflexivity.
  - apply (Sorted_unique String.le); try apply Sorted_merge_sort; try apply _.
    now rewrite !merge_sort_Permutation.
Qed.

Lemma in_sortedEntries dir tree e :
  In e (LlmsCache.sortedEntries dir tree) <-> In e (LlmsCache.walk dir tree).
Proof.
  unfold LlmsCache.sortedEntries.
  split; apply Permutation_in; [|symmetry]; apply merge_sort_Permutation.
Qed.

Lemma map_inj_on {A B} (f : A -> B) (ok : A -> Prop) (l l' : list A) :
  (forall x y, ok x -> ok y -> f x = f y -> x = y) ->
  List.Forall ok l -> List.Forall ok l' -> map f l = map f l' -> l = l'.
Proof.
  intros Hinj Hl. revert l'.
  induction Hl as [|x l Hx _ IH]; intros [|y l'] Hl' E; try discriminate; auto.
  inversion Hl'; subst. injection E as E1 E2.
  f_equal; auto.
Qed.

Lemma perm_map_inj_on {A B} (f : A -> B) (ok : A -> Prop) (l l' : list A) :
  (forall x y, ok x -> ok y -> f x = f y -> x = y) ->
  List.Forall ok l -> List.Forall ok l' -> map f l ≡ₚ map f l' -> l ≡ₚ l'.
Proof.
  intros Hinj Hl Hl' Hp.
  apply Permutation_map_inv in Hp as (l3 & E & Hp3).
  assert (Hl3 : List.Forall ok l3).
  { apply List.Forall_forall. intros x Hx.
    eapply List.Forall_forall; [exact Hl'|].
    eapply Permutation_in; [symmetry; exact Hp3 | exact Hx]. }
  apply (map_inj_on f ok) in E; auto. subst l3. now symmetry.
Qed.

Lemma perm_cons_same_tail {A} `{EqDecision A} (x y : A) (l : list A) :
  x :: l ≡ₚ y :: l -> x = y.
Proof.
  intros Hp.
  pose proof (proj1 (Permutation_count_occ EqDecision0 _ _) Hp x) as Hc.
  simpl in Hc. destruct (EqDecision0 x x) as [_|Hn]; [|congruence].
  destruct (EqDecision0 y x) as [->|_]; [reflexivity|]. lia.
Qed.

(** ** Pruned trees *)

Lemma prune_cons name child rest :
  prune (Dir (Some ((name, child) :: rest)))
  = Dir (Some
      (let kept := match prune (Dir (Some rest)) with
                   | Dir (Some es) => es
                   | _ => []
                   end in
       if LlmsCache.skipped name then kept
       else match child with
            | Dir _ => (name, prune child) :: kept
            | File _ =>
                if LlmsCache.tracked name then (name, child) :: kept else kept
            end)).
Proof. reflexivity. Qed.

Lemma prune_dir es : exists kept, prune (Dir (Some es)) = Dir (Some kept).
Proof. eexists. reflexivity. Qed.

#[local] Arguments prune : simpl never.

Lemma content_files_prune n : content_files (prune n) = content_files n.
Proof.
  induction n as [st| |es IH] using node_induction; try reflexivity.
  induction IH as [|[name child] rest Hchild _ IHrest]; [reflexivity|].
  rewrite prune_cons, content_files_cons.
  destruct (prune_dir rest) as [kept Ek]. rewrite Ek in *. cbn zeta.
  destruct (LlmsCache.skipped name) eqn:Hskip; [exact IHrest|].
  destruct child as [st|listing].
  - destruct (LlmsCache.tracked name) eqn:Htr; [|exact IHrest].
    rewrite content_files_cons, Hskip, Htr, IHrest. reflexivity.
  - rewrite content_files_cons, Hskip.
    cbn [snd] in Hchild.
    assert (Hd : exists l, prune (Dir listing) = Dir l)
      by (destruct listing; eexists; reflexivity).
    destruct Hd as [l El]. rewrite El, <- El, Hchild, IHrest. reflexivity.
Qed.

Lemma content_files_valid n :
  wf n = true ->
  List.Forall
    (fun f => fst f <> [] /\ List.Forall (fun name => valid_name name = true) (fst f))
    (content_files n).
Proof.
  intros Hwf. apply List.Forall_forall. intros [names t] Hin.
  apply content_files_sound in Hin. simpl.
  now apply (qualifying_valid n names t).
Qed.

Lemma sortedEntries_perm dir tree tree' :
  content_files tree ≡ₚ content_files tree' ->
  LlmsCache.sortedEntries dir tree = LlmsCache.sortedEntries dir tree'.
Proof.
  intros Hp. unfold LlmsCache.sortedEntries. apply sort_eq_iff.
  rewrite !walk_content_files. now apply Permutation_map.
Qed.

Lemma sortedEntries_inv dir tree tree' :
  wf tree = true -> wf tree' = true ->
  LlmsCache.sortedEntries dir tree = LlmsCache.sortedEntries dir tree' ->
  content_files tree ≡ₚ content_files tree'.
Proof.
  intros Hwf Hwf' E. unfold LlmsCache.sortedEntries in E.
  apply sort_eq_iff in E. rewrite !walk_content_files in E.
  eapply (perm_map_inj_on (entry_of dir)
            (fun f => fst f <> []
                      /\ List.Forall (fun name => valid_name name = true) (fst f)));
    [| | |exact E].
  - intros x y [Hx1 Hx2] [Hy1 Hy2]. now apply entry_of_inj.
  - now apply content_files_valid.
  - now apply content_files_valid.
Qed.

(** ** The content hash of llms-cache.ts *)

(** The digest input of the code holds the entry of every content file
    that the walk keeps and nothing else: each entry of the sorted list is
    the entry of a [.md] or [.json] file reached through names that are not
    skipped (no leading dot or underscore, not [assets], [images] or
    [nav.md]); and in a tree of proper names, a file with a skipped name on
    its path contributes no entry, whatever its modification time. The
    walk has no rule for a directory named [private]. *)
Theorem digest_input_is_the_qualifying_files (dir : string) (tree : node) :
  (forall names mtime,
      qualifying tree names mtime ->
      In (LlmsCache.entry (pathOf dir names) mtime)
         (LlmsCache.sortedEntries dir tree))
  /\ (forall e,
      In e (LlmsCache.sortedEntries dir tree) ->
      exists names mtime,
        qualifying tree names mtime
        /\ e = LlmsCache.entry (pathOf dir names) mtime)
  /\ (wf tree = true ->
      forall names st mtime,
        located tree names (File st) ->
        List.Exists (fun name => LlmsCache.skipped name = true) names ->
        ~ In (LlmsCache.entry (pathOf dir names) mtime)
             (LlmsCache.sortedEntries dir tree)).
Proof.
  assert (Hsound : forall e,
      In e (LlmsCache.sortedEntries dir tree) ->
      exists names mtime,
        qualifying tree names mtime
        /\ e = LlmsCache.entry (pathOf dir names) mtime).
  { intros e He. apply in_sortedEntries in He.
    rewrite walk_content_files in He.
    apply in_map_iff in He as ([names t] & <- & Hin).
    exists names, t. split; [now apply content_files_sound | reflexivity]. }
  split; [|split; [exact Hsound|]].
  - intros names mtime Hq. apply in_sortedEntries.
    rewrite walk_content_files.
    apply in_map_iff. exists (names, mtime).
    split; [reflexivity | now apply content_files_complete].
  - intros Hwf names st mtime Hloc Hex Hin.
    destruct (Hsound _ Hin) as (names' & t' & Hq & E).
    apply entry_inj in E as [Hp _].
    destruct (qualifying_valid _ _ _ Hwf Hq) as [Hne' Hv'].
    assert (Hne : names <> []) by (intros ->; inversion Hex).
    pose proof (located_valid _ _ _ Hloc Hwf) as Hv.
    apply pathOf_inj in Hp; auto. subst names'.
    apply qualifying_not_skipped in Hq.
    apply List.Exists_exists in Hex as (name & Hname & Hskip).
    eapply List.Forall_forall in Hq; [|exact Hname]. congruence.
Qed.

Lemma digest_input_is_the_qualifying_files_witness :
  In "content/guides/intro.md:100"
     (LlmsCache.sortedEntries "./content" Sample.site)
  /\ ~ In "content/guides/_draft.md:101"
          (LlmsCache.sortedEntries "./content" Sample.site).
Proof.
  destruct (digest_input_is_the_qualifying_files "./content" Sample.site)
    as (Hall & _ & Hnone).
  split.
  - apply (Hall ["guides"; "intro.md"] 100).
    eapply qualifying_below; [left; reflexivity | reflexivity |].
    apply qualifying_file; [left; reflexivity | reflexivity | reflexivity].
  - apply (Hnone eq_refl ["guides"; "_draft.md"] (Some 101) 101).
    + eapply located_below; [left; reflexivity|].
      eapply located_below; [right; left; reflexivity | constructor].
    + apply List.Exists_cons_tl, List.Exists_cons_hd. reflexivity.
Defined.

(** C2 fails on the code where it speaks of private files: the walk skips
    the names that begin with a dot or an underscore, [assets], [images]
    and [nav.md], and nothing else, so that a page below a directory named
    [private] has its entry in the digest input, and an edit of it changes
    the fingerprint. The other walkers of the repository skip that
    directory. *)
Lemma private_file_contributes_to_the_digest :
  let tree :=
    Dir (Some [("private", Dir (Some [("secret.md", File (Some 8))]));
               ("x.md", File (Some 10))]) in
  let edited :=
    Dir (Some [("private", Dir (Some [("secret.md", File (Some 9))]));
               ("x.md", File (Some 10))]) in
  LlmsCache.sortedEntries "./content" tree
  = ["content/private/secret.md:8"; "content/x.md:10"]
  /\ LlmsCache.computeContentHash "./content" tree
     <> LlmsCache.computeContentHash "./content" edited.
Proof. vm_compute. split; [reflexivity|discriminate]. Qed.



(** The step from the sorted entries to the digest is outside that
    statement: [entries.join('\n')] does not escape line breaks. Two trees
    with a line break in directory names, the second obtained from the first
    by moving one page, have different sorted entries, the same joined text
    and the same hash. *)
Remark joined_entries_with_line_breaks :
  wf Sample.broken_names = true
  /\ wf Sample.broken_names_moved = true
  /\ LlmsCache.sortedEntries "./content" Sample.broken_names
     <> LlmsCache.sortedEntries "./content" Sample.broken_names_moved
  /\ LlmsCache.computeContentHash "./content" Sample.broken_names
     = LlmsCache.computeContentHash "./content" Sample.broken_names_moved.
Proof. vm_compute. repeat split. discriminate. Qed.

(** ** The cache of llms-cache.ts *)

Lemma scoped_sections options :
  scoped options = true ->
  exists s rest, LlmsCache.sections options = Some (s :: rest).
Proof.
  unfold scoped. destruct (LlmsCache.sections options) as [[|s rest]|];
    try discriminate. eauto.
Qed.

Lemma unscoped_sections options :
  scoped options = false ->
  LlmsCache.sections options = None \/ LlmsCache.sections options = Some [].
Proof.
  unfold scoped. destruct (LlmsCache.sections options) as [[|s rest]|];
    try discriminate; auto.
Qed.

Lemma get_scoped w st contentDir siteName options :
  scoped options = true ->
  LlmsCache.getCachedLlmsTxt w st contentDir siteName options
  = match LlmsCache.section_hit st (sectionKeyOf options) (hash_at w contentDir) with
    | Some t => {| LlmsCache.outcome := Returned t; LlmsCache.after := st;
                   LlmsCache.generated := 0 |}
    | None =>
        match LlmsCache.generateLlmText w contentDir siteName
                {| LlmsCache.sections :=
                     Some (merge_sort String.le
                             (default [] (LlmsCache.sections options))) |} with
        | Returned t =>
            {| LlmsCache.outcome := Returned t;
               LlmsCache.after :=
                 {| LlmsCache.cachedLlmsTxt := LlmsCache.cachedLlmsTxt st;
                    LlmsCache.cachedLlmsHash := LlmsCache.cachedLlmsHash st;
                    LlmsCache.cachedLlmsGeneratedAt :=
                      LlmsCache.cachedLlmsGeneratedAt st;
                    LlmsCache.sectionCache :=
                      <[sectionKeyOf options :=
                          {| LlmsCache.text := t;
                             LlmsCache.hash := hash_at w contentDir |}]>
                        (LlmsCache.sectionCache st) |};
               LlmsCache.generated := 1 |}
        | Thrown e => {| LlmsCache.outcome := Thrown e; LlmsCache.after := st;
                         LlmsCache.generated := 1 |}
        end
    end.
Proof.
  intros Hs. apply scoped_sections in Hs as (s & rest & Es).
  unfold LlmsCache.getCachedLlmsTxt, sectionKeyOf, hash_at. rewrite Es.
  reflexivity.
Qed.

Lemma get_unscoped w st contentDir siteName options :
  scoped options = false ->
  LlmsCache.getCachedLlmsTxt w st contentDir siteName options
  = match LlmsCache.full_hit st (hash_at w contentDir) with
    | Some t => {| LlmsCache.outcome := Returned t; LlmsCache.after := st;
                   LlmsCache.generated := 0 |}
    | None =>
        match LlmsCache.generateLlmText w contentDir siteName options with
        | Returned t =>
            {| LlmsCache.outcome := Returned t;
               LlmsCache.after :=
                 {| LlmsCache.cachedLlmsTxt := Some t;
                    LlmsCache.cachedLlmsHash := Some (hash_at w contentDir);
                    LlmsCache.cachedLlmsGeneratedAt := LlmsCache.now w;
                    LlmsCache.sectionCache := LlmsCache.sectionCache st |};
               LlmsCache.generated := 1 |}
        | Thrown e => {| LlmsCache.outcome := Thrown e; LlmsCache.after := st;
                         LlmsCache.generated := 1 |}
        end
    end.
Proof.
  intros Hs. unfold LlmsCache.getCachedLlmsTxt, hash_at.
  apply unscoped_sections in Hs as [-> | ->]; reflexivity.
Qed.

(** After a call that returned [t], the entry of its key holds [t] with the
    fingerprint of the tree that the call met. *)
Lemma get_leaves_hit w st contentDir siteName options t :
  LlmsCache.outcome
    (LlmsCache.getCachedLlmsTxt w st contentDir siteName options) = Returned t ->
  scoped options = true \/ t <> "" ->
  entry_hit
    (LlmsCache.after (LlmsCache.getCachedLlmsTxt w st contentDir siteName options))
    options (hash_at w contentDir) = Some t.
Proof.
  unfold entry_hit. destruct (scoped options) eqn:Hs.
  - rewrite (get_scoped _ _ _ _ _ Hs). intros Ho _.
    destruct (LlmsCache.section_hit st _ _) as [t0|] eqn:Eh; simpl in *.
    + now injection Ho as ->.
    + destruct (LlmsCache.generateLlmText w _ _ _) as [t1|e]; simpl in *;
        [|discriminate].
      injection Ho as ->. unfold LlmsCache.section_hit. simpl.
      rewrite lookup_insert_eq. simpl. now rewrite String.eqb_refl.
  - rewrite (get_unscoped _ _ _ _ _ Hs). intros Ho [Hf|Ht]; [discriminate|].
    destruct (LlmsCache.full_hit st _) as [t0|] eqn:Eh; simpl in *.
    + now injection Ho as ->.
    + destruct (LlmsCache.generateLlmText w _ _ _) as [t1|e]; simpl in *;
        [|discriminate].
      injection Ho as ->. unfold LlmsCache.full_hit. simpl.
      apply String.eqb_neq in Ht. now rewrite Ht, String.eqb_refl.
Qed.

(** A hit returns the stored text, leaves the cache as it is and does not
    run the generator. *)
Lemma get_on_hit w st contentDir siteName options t :
  entry_hit st options (hash_at w contentDir) = Some t ->
  LlmsCache.getCachedLlmsTxt w st contentDir siteName options
  = {| LlmsCache.outcome := Returned t; LlmsCache.after := st;
       LlmsCache.generated := 0 |}.
Proof.
  unfold entry_hit. destruct (scoped options) eqn:Hs; intros Hh.
  - now rewrite (get_scoped _ _ _ _ _ Hs), Hh.
  - now rewrite (get_unscoped _ _ _ _ _ Hs), Hh.
Qed.







(** ** The directory settings cache of config.ts *)

Lemma resolve_cached_valid w st contentDir dirPath cached :
  Config.configCache st !! Config.cacheKeyOf contentDir dirPath = Some cached ->
  Config.isCacheValid w st = true ->
  Config.resolveDirectoryConfig w st contentDir dirPath
  = {| Config.outcome := Returned cached; Config.after := st;
       Config.fromCache := true; Config.warnings := [] |}.
Proof.
  intros Hc Hv. unfold Config.resolveDirectoryConfig. now rewrite Hc, Hv.
Qed.

(** A call that is not served from the cache stores what it returns and
    stamps the cache with the time of the store. *)
Lemma resolve_miss_stores w st contentDir dirPath :
  let r := Config.resolveDirectoryConfig w st contentDir dirPath in
  Config.fromCache r = false ->
  exists config,
    Config.outcome r = Returned config
    /\ Config.after r
       = {| Config.configCache :=
              <[Config.cacheKeyOf contentDir dirPath := config]>
                (Config.configCache st);
            Config.cacheTimestamp := Config.nowAtStore w |}.
Proof.
  unfold Config.resolveDirectoryConfig.
  set (compute := if Config.existsSync w _ then _ else _).
  assert (Hcompute : exists config,
    Config.outcome compute = Returned config
    /\ Config.after compute
       = {| Config.configCache :=
              <[Config.cacheKeyOf contentDir dirPath := config]>
                (Config.configCache st);
            Config.cacheTimestamp := Config.nowAtStore w |}).
  { subst compute.
    destruct (Config.existsSync w _).
    - destruct (Config.parseConfigFile w _) as [config warned].
      exists config. split; reflexivity.
    - destruct (_ && _); eexists; split; reflexivity. }
  cbn zeta.
  destruct (Config.configCache st !! _) as [cached|]; [|intros _; exact Hcompute].
  destruct (Config.isCacheValid w st); [discriminate|intros _; exact Hcompute].
Qed.

Lemma resolve_returns w st contentDir dirPath :
  exists config,
    Config.outcome (Config.resolveDirectoryConfig w st contentDir dirPath)
    = Returned config.
Proof.
  destruct (Config.fromCache (Config.resolveDirectoryConfig w st contentDir dirPath))
    eqn:Hf.
  - revert Hf. unfold Config.resolveDirectoryConfig.
    destruct (Config.configCache st !! _) as [cached|].
    + destruct (Config.isCacheValid w st); [intros _; eexists; reflexivity|].
      destruct (Config.existsSync w _).
      * destruct (Config.parseConfigFile w _). discriminate.
      * destruct (_ && _); discriminate.
    + destruct (Config.existsSync w _).
      * destruct (Config.parseConfigFile w _). discriminate.
      * destruct (_ && _); discriminate.
  - destruct (resolve_miss_stores w st contentDir dirPath Hf) as (config & Ho & _).
    eauto.
Qed.

Lemma production_valid w st : Config.production w = true -> Config.isCacheValid w st = true.
Proof. unfold Config.isCacheValid. now intros ->. Qed.

Lemma production_keeps_entry w st contentDir dirPath k cached :
  Config.production w = true ->
  Config.configCache st !! k = Some cached ->
  Config.configCache
    (Config.after (Config.resolveDirectoryConfig w st contentDir dirPath)) !! k
  = Some cached.
Proof.
  intros Hp Hk.
  destruct (Config.configCache st !! Config.cacheKeyOf contentDir dirPath)
    as [c|] eqn:Hc.
  - rewrite (resolve_cached_valid _ _ _ _ _ Hc (production_valid _ _ Hp)).
    exact Hk.
  - destruct (resolve_miss_stores w st contentDir dirPath) as (config & _ & ->).
    + unfold Config.resolveDirectoryConfig. rewrite Hc.
      destruct (Config.existsSync w _).
      * now destruct (Config.parseConfigFile w _).
      * now destruct (_ && _).
    + simpl. rewrite lookup_insert_ne; [exact Hk|]. congruence.
Qed.

Lemma production_run_keeps_entry calls :
  forall st k cached,
    List.Forall (fun c => Config.production (fst (fst c)) = true) calls ->
    Config.configCache st !! k = Some cached ->
    Config.configCache (resolve_final calls st) !! k = Some cached.
Proof.
  induction calls as [|[[w d] p] rest IH]; intros st k cached Hall Hk;
    [exact Hk|].
  inversion Hall as [|? ? Hw Hrest]; subst. simpl in Hw.
  cbn [resolve_final]. apply IH; [exact Hrest|].
  now apply production_keeps_entry.
Qed.

Lemma resolve_miss_reads_file w st contentDir dirPath :
  let r := Config.resolveDirectoryConfig w st contentDir dirPath in
  Config.existsSync w (Config.configPathOf contentDir dirPath) = true ->
  Config.fromCache r = false ->
  Config.outcome r
  = Returned (fst (Config.parseConfigFile w (Config.configPathOf contentDir dirPath)))
  /\ Config.warnings r
     = snd (Config.parseConfigFile w (Config.configPathOf contentDir dirPath)).
Proof.
  unfold Config.resolveDirectoryConfig. cbn zeta. intros He.
  rewrite He.
  destruct (Config.parseConfigFile w _) as [config warned].
  destruct (Config.configCache st !! _) as [cached|]; [|intros _; split; reflexivity].
  destruct (Config.isCacheValid w st); [discriminate|intros _; split; reflexivity].
Qed.

Lemma parse_unreadable w path e :
  Config.readFileSync w path = Thrown e ->
  Config.parseConfigFile w path
  = (Config.DEFAULT_DOCS_CONFIG, ["Error reading config"]).
Proof.
  intros Hr. unfold Config.parseConfigFile, Config.parseConfigFile_try.
  now rewrite Hr.
Qed.

Lemma parse_yaml_error w path content body e :
  Config.readFileSync w path = Returned content ->
  Config.frontmatter_match content = Some body ->
  Config.yaml_parse w body = Thrown e ->
  Config.parseConfigFile w path
  = (Config.DEFAULT_DOCS_CONFIG, ["Failed to parse _config.md frontmatter"]).
Proof.
  intros Hr Hm Hy.
  unfold Config.parseConfigFile, Config.parseConfigFile_try,
    Config.extractConfigFrontmatter.
  now rewrite Hr, Hm, Hy.
Qed.

Lemma parse_no_frontmatter w path content :
  Config.readFileSync w path = Returned content ->
  Config.frontmatter_match content = None ->
  Config.parseConfigFile w path = (Config.DEFAULT_DOCS_CONFIG, []).
Proof.
  intros Hr Hm.
  unfold Config.parseConfigFile, Config.parseConfigFile_try,
    Config.extractConfigFrontmatter.
  now rewrite Hr, Hm.
Qed.

(** C7 does not hold as stated in development: the entry of
    [guides] is computed at time 0, another entry is stored at 4000, and at
    6000 the entry of [guides], 6000 ms old, is still served from the
    cache although its settings file has changed since. *)
Lemma stale_settings_entry_served_after_ttl :
  let w1 := SampleConfig.world_at SampleConfig.development 0 [] "" in
  let w2 := SampleConfig.world_at SampleConfig.development 4000 [] "" in
  let w3 := SampleConfig.world_at SampleConfig.development 6000
              ["content/guides/_config.md"] SampleConfig.blog_settings in
  let r1 := Config.resolveDirectoryConfig w1 Config.initial "./content" "guides" in
  let r2 := Config.resolveDirectoryConfig w2 (Config.after r1) "./content" "api" in
  let r3 := Config.resolveDirectoryConfig w3 (Config.after r2) "./content" "guides" in
  Config.fromCache r1 = false
  /\ Config.CACHE_TTL <= Config.nowAtCheck w3 - Config.nowAtStore w1
  /\ Config.fromCache r3 = true
  /\ Config.outcome r3 = Returned Config.DEFAULT_DOCS_CONFIG
  /\ Config.layout
       (fst (Config.parseConfigFile w3 (Config.configPathOf "./content" "guides")))
     = Config.blog.
Proof. vm_compute. repeat split; congruence. Qed.

(** C7, amended. In production a stored entry never expires: after any run
    of calls it is still served, whatever the clock says. In development
    the cache has one timestamp for all its entries: a stored entry is
    served exactly when fewer than 5000 ms have passed since the last store
    of any entry, and every call that is not served from the cache sets
    that timestamp. *)
Theorem settings_never_expire_in_production_shared_ttl_in_development :
  (forall calls st w contentDir dirPath cached,
      List.Forall (fun c => Config.production (fst (fst c)) = true) calls ->
      Config.production w = true ->
      Config.configCache st !! Config.cacheKeyOf contentDir dirPath = Some cached ->
      Config.resolveDirectoryConfig w (resolve_final calls st) contentDir dirPath
      = {| Config.outcome := Returned cached;
           Config.after := resolve_final calls st;
           Config.fromCache := true; Config.warnings := [] |})
  /\ (forall w st contentDir dirPath cached,
      Config.production w = false ->
      Config.configCache st !! Config.cacheKeyOf contentDir dirPath = Some cached ->
      (Config.fromCache (Config.resolveDirectoryConfig w st contentDir dirPath) = true
       <-> Config.nowAtCheck w - Config.cacheTimestamp st < Config.CACHE_TTL))
  /\ (forall w st contentDir dirPath,
      Config.fromCache (Config.resolveDirectoryConfig w st contentDir dirPath) = false ->
      Config.cacheTimestamp
        (Config.after (Config.resolveDirectoryConfig w st contentDir dirPath))
      = Config.nowAtStore w).
Proof.
  split; [|split].
  - intros calls st w contentDir dirPath cached Hall Hw Hc.
    apply resolve_cached_valid; [|now apply production_valid].
    now apply production_run_keeps_entry.
  - intros w st contentDir dirPath cached Hdev Hc. split.
    + intros Hf.
      destruct (Config.isCacheValid w st) eqn:Hv.
      * unfold Config.isCacheValid in Hv. rewrite Hdev in Hv.
        now apply Z.ltb_lt.
      * exfalso. revert Hf. unfold Config.resolveDirectoryConfig.
        rewrite Hc, Hv. cbn zeta.
        destruct (Config.existsSync w _).
        -- now destruct (Config.parseConfigFile w _).
        -- now destruct (_ && _).
    + intros Hlt.
      rewrite (resolve_cached_valid _ _ _ _ _ Hc); [reflexivity|].
      unfold Config.isCacheValid. rewrite Hdev. now apply Z.ltb_lt.
  - intros w st contentDir dirPath Hf.
    destruct (resolve_miss_stores w st contentDir dirPath Hf) as (config & _ & ->).
    reflexivity.
Qed.

Lemma settings_never_expire_in_production_shared_ttl_in_development_witness :
  let w1 := SampleConfig.world_at SampleConfig.in_production 0 [] "" in
  let w2 := SampleConfig.world_at SampleConfig.in_production 4000 [] "" in
  let w3 := SampleConfig.world_at SampleConfig.in_production 9000000
              ["content/guides/_config.md"] SampleConfig.blog_settings in
  let st1 := Config.after
               (Config.resolveDirectoryConfig w1 Config.initial "./content" "guides") in
  Config.resolveDirectoryConfig w3
    (resolve_final [(w2, "./content", "api")] st1) "./content" "guides"
  = {| Config.outcome := Returned Config.DEFAULT_DOCS_CONFIG;
       Config.after := resolve_final [(w2, "./content", "api")] st1;
       Config.fromCache := true; Config.warnings := [] |}.
Proof.
  intros w1 w2 w3 st1.
  apply (proj1 settings_never_expire_in_production_shared_ttl_in_development).
  - repeat constructor.
  - reflexivity.
  - vm_compute. reflexivity.
Defined.

(** C8. [resolveDirectoryConfig] returns a configuration for every input,
    it never throws. When it reads a settings file that cannot be read, or
    whose front matter the YAML parser rejects, it returns the built-in
    docs defaults and logs a warning; a file without front matter gives the
    same defaults. *)
Theorem resolve_never_fails_bad_file_gives_defaults
    (w : Config.World) (st : Config.State) (contentDir dirPath : string) :
  let r := Config.resolveDirectoryConfig w st contentDir dirPath in
  let path := Config.configPathOf contentDir dirPath in
  (exists config, Config.outcome r = Returned config)
  /\ (Config.existsSync w path = true ->
      Config.fromCache r = false ->
      (forall e,
          Config.readFileSync w path = Thrown e ->
          Config.outcome r = Returned Config.DEFAULT_DOCS_CONFIG
          /\ Config.warnings r = ["Error reading config"])
      /\ (forall content body e,
          Config.readFileSync w path = Returned content ->
          Config.frontmatter_match content = Some body ->
          Config.yaml_parse w body = Thrown e ->
          Config.outcome r = Returned Config.DEFAULT_DOCS_CONFIG
          /\ Config.warnings r = ["Failed to parse _config.md frontmatter"])
      /\ (forall content,
          Config.readFileSync w path = Returned content ->
          Config.frontmatter_match content = None ->
          Config.outcome r = Returned Config.DEFAULT_DOCS_CONFIG
          /\ Config.warnings r = [])).
Proof.
  intros r path. split; [apply resolve_returns|].
  intros He Hf.
  destruct (resolve_miss_reads_file w st contentDir dirPath He Hf) as [Ho Hw].
  fold r path in Ho, Hw. rewrite Ho, Hw.
  split; [|split].
  - intros e Hread. now rewrite (parse_unreadable _ _ _ Hread).
  - intros content body e Hread Hfm Hyaml.
    now rewrite (parse_yaml_error _ _ _ _ _ Hread Hfm Hyaml).
  - intros content Hread Hfm.
    now rewrite (parse_no_frontmatter _ _ _ Hread Hfm).
Qed.

Lemma resolve_never_fails_bad_file_gives_defaults_witness :
  Config.outcome
    (Config.resolveDirectoryConfig SampleConfig.unreadable_world Config.initial
       "./content" "docs")
  = Returned Config.DEFAULT_DOCS_CONFIG
  /\ Config.warnings
       (Config.resolveDirectoryConfig SampleConfig.unreadable_world Config.initial
          "./content" "docs")
     = ["Error reading config"].
Proof.
  destruct (resolve_never_fails_bad_file_gives_defaults
              SampleConfig.unreadable_world Config.initial "./content" "docs")
    as [_ H].
  destruct (H eq_refl eq_refl) as (Hunreadable & _ & _).
  exact (Hunreadable "EACCES" eq_refl).
Defined.

(** ** The brand cache of brand.ts *)

Lemma brand_try_leaves_cached w st path config st' :
  Brand.getBrandConfig_try w st path = Returned (config, st') ->
  Brand.brandCache st' = Some config.
Proof.
  unfold Brand.getBrandConfig_try.
  destruct (Brand.statSync w path) as [mtimeMs|e]; simpl; [|discriminate].
  assert (Hparse : forall r : Outcome (Brand.BrandConfig * Brand.State),
    r = (let! content := Brand.readFileSync w path in
         match Config.frontmatter_match content with
         | None =>
             Returned (Brand.DEFAULT_BRAND,
                       {| Brand.brandCache := Some Brand.DEFAULT_BRAND;
                          Brand.brandMtime := mtimeMs |})
         | Some body =>
             let! parsed := Brand.yaml_parse w body in
             let! config := Brand.parse_brand (Js.or parsed (JObj [])) in
             Returned (config, {| Brand.brandCache := Some config;
                                  Brand.brandMtime := mtimeMs |})
         end) ->
    r = Returned (config, st') -> Brand.brandCache st' = Some config).
  { intros r -> Hr.
    destruct (Brand.readFileSync w path) as [content|e]; simpl in Hr;
      [|discriminate].
    destruct (Config.frontmatter_match content) as [body|].
    - destruct (Brand.yaml_parse w body) as [parsed|e]; simpl in Hr;
        [|discriminate].
      destruct (Brand.parse_brand _) as [c|e]; simpl in Hr; [|discriminate].
      now injection Hr as <- <-.
    - now injection Hr as <- <-. }
  destruct (Brand.brandCache st) as [cached|] eqn:Hc.
  - destruct (mtimeMs =? Brand.brandMtime st).
    + now intros [= <- <-].
    + now apply Hparse.
  - now apply Hparse.
Qed.

(** Whatever a call returns is the cached configuration afterwards. *)
Lemma brand_call_leaves_cached w st contentDir :
  Brand.brandCache (snd (Brand.getBrandConfig w st contentDir))
  = Some (fst (Brand.getBrandConfig w st contentDir)).
Proof.
  unfold Brand.getBrandConfig.
  destruct (Brand.existsSync w _); simpl.
  - destruct (Brand.getBrandConfig_try w st _) as [[config st']|e] eqn:Ht;
      [|reflexivity].
    simpl. eapply brand_try_leaves_cached; eauto.
  - destruct (Brand.brandCache st) eqn:Hc; simpl; [exact Hc | reflexivity].
Qed.

Lemma brand_call_without_file w st contentDir cached :
  Brand.existsSync w (Brand.brandPathOf contentDir) = false ->
  Brand.brandCache st = Some cached ->
  Brand.getBrandConfig w st contentDir = (cached, st).
Proof.
  intros He Hc. unfold Brand.getBrandConfig. now rewrite He, Hc.
Qed.

(** C10. After a call of [getBrandConfig] that returned a configuration
    (the one parsed from the brand file, in particular), every later call
    that finds no brand file returns that same configuration and leaves the
    cache as it is; the defaults come back only once [invalidateBrandCache]
    has emptied the cache. *)
Theorem deleted_brand_file_keeps_cached_config
    (w0 : Brand.World) (st0 : Brand.State) (dir0 : string)
    (calls : list (Brand.World * string)) :
  let config := fst (Brand.getBrandConfig w0 st0 dir0) in
  let st := snd (Brand.getBrandConfig w0 st0 dir0) in
  List.Forall
    (fun c => Brand.existsSync (fst c) (Brand.brandPathOf (snd c)) = false)
    calls ->
  Brand.run calls st = (map (fun _ => config) calls, st)
  /\ forall w contentDir,
       Brand.existsSync w (Brand.brandPathOf contentDir) = false ->
       fst (Brand.getBrandConfig w (Brand.invalidateBrandCache st) contentDir)
       = Brand.DEFAULT_BRAND.
Proof.
  intros config st Hcalls. split.
  - pose proof (brand_call_leaves_cached w0 st0 dir0) as Hc.
    fold config st in Hc. clearbody config st.
    induction Hcalls as [|[w d] rest Hw _ IH]; [reflexivity|].
    simpl in Hw. cbn [Brand.run map].
    rewrite (brand_call_without_file _ _ _ _ Hw Hc), IH. reflexivity.
  - intros w contentDir He. unfold Brand.getBrandConfig. now rewrite He.
Qed.

Lemma deleted_brand_file_keeps_cached_config_witness :
  Brand.run
    [(SampleBrand.file_deleted, "./content"); (SampleBrand.file_deleted, "./content")]
    (snd (Brand.getBrandConfig SampleBrand.with_file Brand.initial "./content"))
  = ([SampleBrand.acme; SampleBrand.acme],
     snd (Brand.getBrandConfig SampleBrand.with_file Brand.initial "./content")).
Proof.
  apply (deleted_brand_file_keeps_cached_config
           SampleBrand.with_file Brand.initial "./content"
           [(SampleBrand.file_deleted, "./content");
            (SampleBrand.file_deleted, "./content")]).
  repeat constructor.
Defined.

(** ** The derivatives of image-processor.ts *)

Lemma getSharp_loads w st :
  fst (fst (ImageProcessor.getSharp w st)) = sharp_loads w st.
Proof.
  unfold ImageProcessor.getSharp, sharp_loads.
  destruct (ImageProcessor.sharpAvailable st), (ImageProcessor.sharpModule st),
    (ImageProcessor.importSharp w); reflexivity.
Qed.

Lemma process_unavailable w st src options :
  sharp_loads w st = false ->
  fst (fst (fst (ImageProcessor.processImageBuffer w st src options))) = None
  /\ snd (fst (ImageProcessor.processImageBuffer w st src options))
     = [ImageProcessor.SharpUnavailable].
Proof.
  intros Hl. unfold ImageProcessor.processImageBuffer.
  pose proof (getSharp_loads w st) as Hg. rewrite Hl in Hg.
  destruct (ImageProcessor.getSharp w st) as [[loaded st'] warned].
  simpl in Hg. subst loaded. split; reflexivity.
Qed.

Lemma process_loaded w st src options :
  sharp_loads w st = true ->
  match ImageProcessor.sharp w src (ImageProcessor.pipeline_of options) with
  | Returned (data, info) =>
      exists image,
        fst (fst (fst (ImageProcessor.processImageBuffer w st src options)))
        = Some image
        /\ ImageProcessor.buffer image = data
        /\ snd (fst (ImageProcessor.processImageBuffer w st src options))
           = [ImageProcessor.CodecRun src (ImageProcessor.pipeline_of options)]
  | Thrown _ =>
      fst (fst (fst (ImageProcessor.processImageBuffer w st src options))) = None
      /\ snd (fst (ImageProcessor.processImageBuffer w st src options))
         = [ImageProcessor.CodecRun src (ImageProcessor.pipeline_of options);
            ImageProcessor.CodecRaised]
  end.
Proof.
  intros Hl. unfold ImageProcessor.processImageBuffer.
  pose proof (getSharp_loads w st) as Hg. rewrite Hl in Hg.
  destruct (ImageProcessor.getSharp w st) as [[loaded st'] warned].
  simpl in Hg. subst loaded. simpl.
  destruct (ImageProcessor.sharp w src _) as [[data info]|e]; simpl.
  - eexists. repeat split.
  - split; reflexivity.
Qed.

(** Past the disk cache, with a readable source, the call is
    [processImageBuffer] on the source bytes, then the write. *)
Lemma get_processed_miss w st sourcePath cacheDir options src :
  ImageProcessor.cached_derivative w sourcePath
    (ImageProcessor.cachePathOf sourcePath cacheDir options) = None ->
  ImageProcessor.readFile w sourcePath = Returned src ->
  let r := ImageProcessor.getProcessedImage w st sourcePath cacheDir options in
  let p := ImageProcessor.processImageBuffer w st src options in
  ImageProcessor.outcome r = Returned (fst (fst (fst p)))
  /\ ImageProcessor.after r = snd (fst (fst p))
  /\ exists written, ImageProcessor.events r = snd (fst p) ++ written.
Proof.
  intros Hc Hr. unfold ImageProcessor.getProcessedImage. rewrite Hc, Hr.
  destruct (ImageProcessor.processImageBuffer w st src options)
    as [[[result st'] evs] warned].
  destruct result as [image|]; simpl.
  - destruct (ImageProcessor.writeDerivative w _ _); simpl;
      repeat split; eexists; reflexivity.
  - repeat split. exists []. now rewrite app_nil_r.
Qed.

(** C4. Whenever a call of [getProcessedImage] finds sharp unavailable or
    sees the codec raise, it returns [null] and does not throw; this is
    what happens, past the disk cache and with a readable source, whenever
    sharp cannot be loaded or throws on the source bytes; and what the call
    returns does not depend on whether the derivative can be written. *)
Theorem codec_failure_returns_use_original
    (w : ImageProcessor.World) (st : ImageProcessor.State)
    (sourcePath cacheDir : string) (options : ImageProcessor.ImageOptions) :
  let r := ImageProcessor.getProcessedImage w st sourcePath cacheDir options in
  (In ImageProcessor.SharpUnavailable (ImageProcessor.events r)
   \/ In ImageProcessor.CodecRaised (ImageProcessor.events r) ->
   ImageProcessor.outcome r = Returned None)
  /\ (forall src,
        ImageProcessor.cached_derivative w sourcePath
          (ImageProcessor.cachePathOf sourcePath cacheDir options) = None ->
        ImageProcessor.readFile w sourcePath = Returned src ->
        sharp_loads w st = false
        \/ (exists e, ImageProcessor.sharp w src (ImageProcessor.pipeline_of options)
                      = Thrown e) ->
        ImageProcessor.outcome r = Returned None)
  /\ (forall write,
        ImageProcessor.outcome
          (ImageProcessor.getProcessedImage (with_write w write) st
             sourcePath cacheDir options)
        = ImageProcessor.outcome r).
Proof.
  intros r.
  assert (Hdown : forall src,
    ImageProcessor.cached_derivative w sourcePath
      (ImageProcessor.cachePathOf sourcePath cacheDir options) = None ->
    ImageProcessor.readFile w sourcePath = Returned src ->
    sharp_loads w st = false
    \/ (exists e, ImageProcessor.sharp w src (ImageProcessor.pipeline_of options)
                  = Thrown e) ->
    ImageProcessor.outcome r = Returned None).
  { intros src Hc Hr Hfail.
    destruct (get_processed_miss w st sourcePath cacheDir options src Hc Hr)
      as (Ho & _ & _).
    fold r in Ho. rewrite Ho. f_equal.
    destruct (sharp_loads w st) eqn:Hl.
    - destruct Hfail as [Hf|[e He]]; [discriminate|].
      pose proof (process_loaded w st src options Hl) as Hp.
      rewrite He in Hp. apply Hp.
    - apply (process_unavailable w st src options Hl). }
  split; [|split; [exact Hdown|]].
  - subst r. unfold ImageProcessor.getProcessedImage.
    destruct (ImageProcessor.cached_derivative w sourcePath _);
      [intros [[]|[]]|].
    destruct (ImageProcessor.readFile w sourcePath) as [src|];
      [|intros [[]|[]]].
    unfold ImageProcessor.processImageBuffer.
    destruct (ImageProcessor.getSharp w st) as [[loaded st'] warned].
    destruct loaded; simpl; [|reflexivity].
    destruct (ImageProcessor.sharp w src _) as [[data info]|e]; simpl;
      [|reflexivity].
    destruct (ImageProcessor.writeDerivative w _ _); simpl;
      intros [H|H]; intuition discriminate.
  - intros write. subst r. unfold ImageProcessor.getProcessedImage.
    change (ImageProcessor.cached_derivative (with_write w write))
      with (ImageProcessor.cached_derivative w).
    destruct (ImageProcessor.cached_derivative w sourcePath _); [reflexivity|].
    change (ImageProcessor.readFile (with_write w write))
      with (ImageProcessor.readFile w).
    destruct (ImageProcessor.readFile w sourcePath) as [src|]; [|reflexivity].
    change (ImageProcessor.processImageBuffer (with_write w write))
      with (ImageProcessor.processImageBuffer w).
    destruct (ImageProcessor.processImageBuffer w st src options)
      as [[[result st'] evs] warned].
    destruct result as [image|]; [|reflexivity].
    destruct (ImageProcessor.writeDerivative _ _ _),
      (ImageProcessor.writeDerivative _ _ _); reflexivity.
Qed.

Lemma codec_failure_returns_use_original_witness :
  ImageProcessor.outcome
    (ImageProcessor.getProcessedImage
       (SampleImage.world 2000 None false false false) ImageProcessor.initial
       "/srv/content/assets/photo.png" "/srv/content/.cache/images"
       SampleImage.w800_webp)
  = Returned None.
Proof.
  apply (proj1 (codec_failure_returns_use_original
                  (SampleImage.world 2000 None false false false)
                  ImageProcessor.initial
                  "/srv/content/assets/photo.png" "/srv/content/.cache/images"
                  SampleImage.w800_webp)).
  left. vm_compute. left. reflexivity.
Defined.

Lemma cached_derivative_fresh w sourcePath cachePath sourceMtime cacheMtime data :
  ImageProcessor.existsSync w cachePath = true ->
  ImageProcessor.stat w sourcePath = Returned sourceMtime ->
  ImageProcessor.stat w cachePath = Returned cacheMtime ->
  sourceMtime <= cacheMtime ->
  ImageProcessor.readFile w cachePath = Returned data ->
  exists image,
    ImageProcessor.cached_derivative w sourcePath cachePath = Some image
    /\ ImageProcessor.buffer image = data.
Proof.
  intros He Hs Hc Hle Hr. unfold ImageProcessor.cached_derivative.
  rewrite He, Hs, Hc, Hr.
  assert (Hge : (cacheMtime >=? sourceMtime) = true)
    by (rewrite Z.geb_leb; now apply Z.leb_le).
  rewrite Hge. eexists. split; reflexivity.
Qed.

Lemma cached_derivative_stale w sourcePath cachePath :
  ImageProcessor.existsSync w cachePath = false
  \/ (exists sourceMtime cacheMtime,
        ImageProcessor.stat w sourcePath = Returned sourceMtime
        /\ ImageProcessor.stat w cachePath = Returned cacheMtime
        /\ cacheMtime < sourceMtime) ->
  ImageProcessor.cached_derivative w sourcePath cachePath = None.
Proof.
  unfold ImageProcessor.cached_derivative.
  intros [He|(sm & cm & Hs & Hc & Hlt)].
  - now rewrite He.
  - rewrite Hs, Hc.
    assert (Hge : (cm >=? sm) = false)
      by (rewrite Z.geb_leb; apply Z.leb_gt; lia).
    rewrite Hge. now destruct (ImageProcessor.existsSync w cachePath).
Qed.

(** What [processImageBuffer] returns once sharp is loaded and has made
    [data] and [info] of the source. *)
Lemma process_loaded_image w st src options data info :
  sharp_loads w st = true ->
  ImageProcessor.sharp w src (ImageProcessor.pipeline_of options)
  = Returned (data, info) ->
  fst (fst (fst (ImageProcessor.processImageBuffer w st src options)))
  = Some {| ImageProcessor.buffer := data;
            ImageProcessor.mimeType :=
              ImageProcessor.getMimeType
                match ImageProcessor.format options with
                | Some ImageProcessor.original | None =>
                    ImageProcessor.infoFormat info
                | Some f => ImageProcessor.format_name f
                end;
            ImageProcessor.outWidth := Some (ImageProcessor.infoWidth info);
            ImageProcessor.outHeight := Some (ImageProcessor.infoHeight info) |}.
Proof.
  intros Hl Hs. rewrite <- getSharp_loads in Hl.
  unfold ImageProcessor.processImageBuffer.
  destruct (ImageProcessor.getSharp w st) as [[loaded st'] warned].
  simpl in Hl. subst loaded. simpl. now rewrite Hs.
Qed.

(** C5. When a file exists at the derivative path with a modification time
    at or after the source's, the call returns the bytes read from that
    file, runs no codec and writes nothing. When the derivative is absent,
    or older than the source, the codec is run on the bytes of the source,
    with the pipeline of the options, whenever sharp loads: the call
    returns the very buffer, width and height that sharp makes of them, or
    [null] when sharp throws; when sharp does not load no codec runs and
    the call returns [null]. *)
Theorem fresh_derivative_served_else_source_processed
    (w : ImageProcessor.World) (st : ImageProcessor.State)
    (sourcePath cacheDir : string) (options : ImageProcessor.ImageOptions) :
  let cachePath := ImageProcessor.cachePathOf sourcePath cacheDir options in
  let r := ImageProcessor.getProcessedImage w st sourcePath cacheDir options in
  (forall sourceMtime cacheMtime data,
      ImageProcessor.existsSync w cachePath = true ->
      ImageProcessor.stat w sourcePath = Returned sourceMtime ->
      ImageProcessor.stat w cachePath = Returned cacheMtime ->
      sourceMtime <= cacheMtime ->
      ImageProcessor.readFile w cachePath = Returned data ->
      (exists image,
          ImageProcessor.outcome r = Returned (Some image)
          /\ ImageProcessor.buffer image = data)
      /\ ImageProcessor.events r = []
      /\ ImageProcessor.after r = st)
  /\ (forall src,
      ImageProcessor.existsSync w cachePath = false
      \/ (exists sourceMtime cacheMtime,
            ImageProcessor.stat w sourcePath = Returned sourceMtime
            /\ ImageProcessor.stat w cachePath = Returned cacheMtime
            /\ cacheMtime < sourceMtime) ->
      ImageProcessor.readFile w sourcePath = Returned src ->
      if sharp_loads w st
      then
        In (ImageProcessor.CodecRun src (ImageProcessor.pipeline_of options))
           (ImageProcessor.events r)
        /\ match ImageProcessor.sharp w src
                  (ImageProcessor.pipeline_of options) with
           | Returned (data, info) =>
               exists image,
                 ImageProcessor.outcome r = Returned (Some image)
                 /\ ImageProcessor.buffer image = data
                 /\ ImageProcessor.outWidth image
                    = Some (ImageProcessor.infoWidth info)
                 /\ ImageProcessor.outHeight image
                    = Some (ImageProcessor.infoHeight info)
           | Thrown _ => ImageProcessor.outcome r = Returned None
           end
      else
        ImageProcessor.outcome r = Returned None
        /\ ImageProcessor.events r = [ImageProcessor.SharpUnavailable]).
Proof.
  intros cachePath r. split.
  - intros sm cm data He Hs Hc Hle Hr.
    destruct (cached_derivative_fresh w sourcePath cachePath sm cm data
                He Hs Hc Hle Hr) as (image & Hd & Hb).
    subst r. unfold ImageProcessor.getProcessedImage.
    fold cachePath. rewrite Hd. simpl. eauto.
  - intros src Hstale Hr.
    apply cached_derivative_stale in Hstale.
    destruct (get_processed_miss w st sourcePath cacheDir options src Hstale Hr)
      as (Ho & _ & written & Hev).
    fold r in Ho, Hev.
    destruct (sharp_loads w st) eqn:Hl.
    + split.
      * rewrite Hev. apply in_or_app. left.
        pose proof (process_loaded w st src options Hl) as Hp.
        destruct (ImageProcessor.sharp w src _) as [[data info]|e].
        -- destruct Hp as (image & _ & _ & ->). now left.
        -- destruct Hp as [_ ->]. now left.
      * destruct (ImageProcessor.sharp w src _) as [[data info]|e] eqn:Hs.
        -- rewrite Ho, (process_loaded_image _ _ _ _ _ _ Hl Hs).
           eexists. repeat split.
        -- rewrite Ho. f_equal.
           pose proof (process_loaded w st src options Hl) as Hp.
           rewrite Hs in Hp. apply Hp.
    + destruct (process_unavailable w st src options Hl) as [Hnone Hevs].
      split; [rewrite Ho; now f_equal|].
      subst r. unfold cachePath in Hstale.
      unfold ImageProcessor.getProcessedImage. rewrite Hstale, Hr.
      destruct (ImageProcessor.processImageBuffer w st src options)
        as [[[result st'] evs] warned].
      simpl in Hnone, Hevs. subst result evs. reflexivity.
Qed.

Lemma fresh_derivative_served_else_source_processed_witness :
  (exists image,
      ImageProcessor.outcome
        (ImageProcessor.getProcessedImage
           (SampleImage.world 2000 (Some 2000) true false false)
           ImageProcessor.initial
           "/srv/content/assets/photo.png" "/srv/content/.cache/images"
           SampleImage.w800_webp)
      = Returned (Some image)
      /\ ImageProcessor.buffer image = SampleImage.small)
  /\ exists image,
      ImageProcessor.outcome
        (ImageProcessor.getProcessedImage
           (SampleImage.world 2000 (Some 1999) true false false)
           ImageProcessor.initial
           "/srv/content/assets/photo.png" "/srv/content/.cache/images"
           SampleImage.w800_webp)
      = Returned (Some image)
      /\ ImageProcessor.buffer image = SampleImage.small
      /\ ImageProcessor.outWidth image = Some 800
      /\ ImageProcessor.outHeight image = Some 600.
Proof.
  split.
  - apply (proj1 (fresh_derivative_served_else_source_processed
                    (SampleImage.world 2000 (Some 2000) true false false)
                    ImageProcessor.initial
                    "/srv/content/assets/photo.png" "/srv/content/.cache/images"
                    SampleImage.w800_webp) 2000 2000 SampleImage.small);
      try reflexivity; try lia.
  - assert (Hstale :
              ImageProcessor.existsSync
                (SampleImage.world 2000 (Some 1999) true false false)
                (ImageProcessor.cachePathOf "/srv/content/assets/photo.png"
                   "/srv/content/.cache/images" SampleImage.w800_webp) = false
              \/ (exists sourceMtime cacheMtime,
                    ImageProcessor.stat
                      (SampleImage.world 2000 (Some 1999) true false false)
                      "/srv/content/assets/photo.png" = Returned sourceMtime
                    /\ ImageProcessor.stat
                         (SampleImage.world 2000 (Some 1999) true false false)
                         (ImageProcessor.cachePathOf
                            "/srv/content/assets/photo.png"
                            "/srv/content/.cache/images" SampleImage.w800_webp)
                       = Returned cacheMtime
                    /\ cacheMtime < sourceMtime)).
    { right. exists 2000, 1999. repeat split; reflexivity. }
    exact (proj2
             (proj2 (fresh_derivative_served_else_source_processed
                       (SampleImage.world 2000 (Some 1999) true false false)
                       ImageProcessor.initial
                       "/srv/content/assets/photo.png"
                       "/srv/content/.cache/images" SampleImage.w800_webp)
                SampleImage.photo Hstale eq_refl)).
Defined.

Lemma parse_bounded_range lo hi v n :
  ImageProcessor.parse_bounded lo hi v = Some n -> lo <= n <= hi.
Proof.
  unfold ImageProcessor.parse_bounded.
  destruct v as [raw|]; [|discriminate].
  destruct (ImageProcessor.q_truthy (Some raw)); [|discriminate].
  destruct (ImageProcessor.parseInt _) as [m|]; [|discriminate].
  destruct (lo <=? m) eqn:H1; [|discriminate].
  destruct (m <=? hi) eqn:H2; [|discriminate].
  intros [= <-]. apply Z.leb_le in H1, H2. lia.
Qed.

Lemma parse_bounded_absent lo hi v :
  no_number_in lo hi v -> ImageProcessor.parse_bounded lo hi v = None.
Proof.
  unfold no_number_in, ImageProcessor.parse_bounded.
  destruct v as [raw|]; [|reflexivity].
  destruct (ImageProcessor.q_truthy (Some raw)); [|reflexivity].
  destruct (ImageProcessor.parseInt _) as [m|]; [|reflexivity].
  intros [H|H].
  - assert (E : (lo <=? m) = false) by (apply Z.leb_gt; lia). now rewrite E.
  - assert (E : (m <=? hi) = false) by (apply Z.leb_gt; lia).
    rewrite E. now destruct (lo <=? m).
Qed.

(** [parseInt] reads past the white space of JavaScript, here a no-break
    space (U+00A0) and a line separator (U+2028). *)
Example parseInt_skips_unicode_white_space :
  ImageProcessor.parseInt
    (String (ascii_of_nat 194) (String (ascii_of_nat 160) "42")) = Some 42
  /\ ImageProcessor.parseInt
       (String (ascii_of_nat 226)
          (String (ascii_of_nat 128) (String (ascii_of_nat 168) " -7px")))
     = Some (-7)
  /\ ImageProcessor.parseInt "px42" = None.
Proof. repeat split; reflexivity. Qed.



(** * Properties of the rest of the code *)

(** ** Prefixes *)

Lemma startsWith_append p rest : Str.startsWith (p +:+ rest) p = true.
Proof.
  induction p as [|c p IH]; simpl; [reflexivity|].
  now rewrite Ascii.eqb_refl.
Qed.

Lemma startsWith_inv s p :
  Str.startsWith s p = true -> exists rest, s = p +:+ rest.
Proof.
  revert s; induction p as [|c p IH]; intros s H.
  - exists s. reflexivity.
  - destruct s as [|d s]; simpl in H; [discriminate|].
    apply andb_true_iff in H as [Hc Hs]. apply Ascii.eqb_eq in Hc as ->.
    destruct (IH _ Hs) as [rest ->]. exists rest. reflexivity.
Qed.

Lemma append_same_length a b x y :
  a +:+ x = b +:+ y -> String.length a = String.length b -> a = b.
Proof.
  revert b; induction a as [|c a IH]; intros [|d b] H Hl;
    simpl in *; try discriminate; [reflexivity|].
  injection H as -> H. f_equal. apply IH; [exact H|lia].
Qed.

(** ** The front matter of [_config.md] and [_brand.md] *)

Lemma until_fence_sound s body :
  Config.until_fence s = Some body ->
  exists rest, s = body +:+ Config.fence +:+ rest.
Proof.
  revert body; induction s as [|c s IH]; intros body H; [discriminate|].
  cbn [Config.until_fence] in H.
  destruct (Str.startsWith (String c s) Config.fence) eqn:E.
  - injection H as <-. apply startsWith_inv in E as [rest E].
    exists rest. exact E.
  - destruct (Config.until_fence s) as [b|] eqn:Eb; [|discriminate].
    injection H as <-. destruct (IH b eq_refl) as [rest ->].
    exists rest. reflexivity.
Qed.

Lemma until_fence_first s body' rest' :
  s = body' +:+ Config.fence +:+ rest' ->
  exists body,
    Config.until_fence s = Some body
    /\ (String.length body <= String.length body')%nat.
Proof.
  revert s; induction body' as [|c b IH]; intros s ->.
  - exists "". split; [|simpl; lia].
    change ("" +:+ Config.fence +:+ rest') with (Config.fence +:+ rest').
    pose proof (startsWith_append Config.fence rest') as Hp.
    destruct (Config.fence +:+ rest') as [|d s] eqn:Es; [discriminate|].
    cbn [Config.until_fence]. now rewrite Hp.
  - change (String c b +:+ Config.fence +:+ rest')
      with (String c (b +:+ Config.fence +:+ rest')).
    cbn [Config.until_fence].
    destruct (Str.startsWith _ Config.fence).
    + exists "". split; [reflexivity|simpl; lia].
    + destruct (IH _ eq_refl) as (body & -> & Hlen).
      exists (String c body). split; [reflexivity|simpl; lia].
Qed.

(** The front matter that [/^---\n([\s\S]*?)\n---/] captures is the
    shortest text between the opening fence at the start of the file and a
    line break followed by three dashes; there is no match exactly when the
    file has no such shape. *)
Theorem frontmatter_is_the_text_before_the_first_fence (content : string) :
  (forall body,
      Config.frontmatter_match content = Some body <->
      (exists rest,
          content = "---" +:+ newline +:+ body +:+ newline +:+ "---" +:+ rest)
      /\ (forall body' rest',
            content = "---" +:+ newline +:+ body' +:+ newline +:+ "---" +:+ rest' ->
            (String.length body <= String.length body')%nat))
  /\ (Config.frontmatter_match content = None <->
      ~ exists body rest,
          content = "---" +:+ newline +:+ body +:+ newline +:+ "---" +:+ rest).
Proof.
  assert (Hopen : forall tail,
             Config.frontmatter_match (("---" +:+ newline) +:+ tail)
             = Config.until_fence tail).
  { intros tail. unfold Config.frontmatter_match.
    rewrite startsWith_append. reflexivity. }
  assert (Hshape : forall b r,
             "---" +:+ newline +:+ b +:+ newline +:+ "---" +:+ r
             = ("---" +:+ newline) +:+ (b +:+ Config.fence +:+ r)).
  { intros b r. reflexivity. }
  assert (Hsome : forall body,
             Config.frontmatter_match content = Some body ->
             exists rest,
               content = "---" +:+ newline +:+ body +:+ newline +:+ "---" +:+ rest).
  { intros body H. unfold Config.frontmatter_match in H.
    destruct (Str.startsWith content ("---" +:+ newline)) eqn:E; [|discriminate].
    apply startsWith_inv in E as [tail ->].
    change (Str.drop (String.length ("---" +:+ newline))
              (("---" +:+ newline) +:+ tail)) with tail in H.
    apply until_fence_sound in H as [rest ->]. exists rest. reflexivity. }
  assert (Hfirst : forall body' rest',
             content = "---" +:+ newline +:+ body' +:+ newline +:+ "---" +:+ rest' ->
             exists body,
               Config.frontmatter_match content = Some body
               /\ (String.length body <= String.length body')%nat).
  { intros body' rest' ->. rewrite Hshape, Hopen.
    now apply (until_fence_first _ body' rest'). }
  split.
  - intros body. split.
    + intros H. split; [now apply Hsome|].
      intros body' rest' E. destruct (Hfirst _ _ E) as (b & Eb & Hlen).
      rewrite H in Eb. now injection Eb as <-.
    + intros [[rest E] Hmin].
      destruct (Hfirst _ _ E) as (b & Eb & Hlen).
      destruct (Hsome _ Eb) as [rest0 E0].
      pose proof (Hmin _ _ E0) as Hge.
      rewrite Eb. f_equal.
      rewrite E in E0. injection E0 as E0.
      symmetry. apply (append_same_length _ _ _ _ E0). lia.
  - split.
    + intros H (body & rest & E). destruct (Hfirst _ _ E) as (b & Eb & _).
      rewrite H in Eb. discriminate.
    + intros H. destruct (Config.frontmatter_match content) as [body|] eqn:E;
        [|reflexivity].
      exfalso. apply H. exists body. now apply Hsome.
Qed.

(** ** The content hash, continued *)

Lemma content_files_app before after :
  content_files (Dir (Some (before ++ after)))
  = content_files (Dir (Some before)) ++ content_files (Dir (Some after)).
Proof.
  induction before as [|[name child] before IH]; [reflexivity|].
  change (((name, child) :: before) ++ after)
    with ((name, child) :: (before ++ after)).
  rewrite !content_files_cons, IH.
  destruct (LlmsCache.skipped name); [reflexivity|].
  destruct child as [[mtime|]|listing].
  - destruct (LlmsCache.tracked name); reflexivity.
  - destruct (LlmsCache.tracked name); reflexivity.
  - now rewrite <- app_assoc.
Qed.

Lemma content_files_middle before e after :
  content_files (Dir (Some (before ++ e :: after)))
  = content_files (Dir (Some before))
    ++ content_files (Dir (Some [e])) ++ content_files (Dir (Some after)).
Proof.
  rewrite content_files_app. f_equal.
  apply (content_files_app [e] after).
Qed.

Lemma content_files_one e rest :
  content_files (Dir (Some (e :: rest)))
  = content_files (Dir (Some [e])) ++ content_files (Dir (Some rest)).
Proof. exact (content_files_app [e] rest). Qed.

Lemma content_files_reordered es es' :
  es ≡ₚ es' -> content_files (Dir (Some es)) ≡ₚ content_files (Dir (Some es')).
Proof.
  induction 1 as [|e l l' _ IH|e e' l|l l' l'' _ IH _ IH'].
  - reflexivity.
  - rewrite (content_files_one e l), (content_files_one e l').
    now apply Permutation_app_head.
  - rewrite (content_files_one e' (e :: l)), (content_files_one e l),
      (content_files_one e (e' :: l)), (content_files_one e' l).
    apply Permutation_app_swap_app.
  - now rewrite IH.
Qed.

Lemma relisted_content_files n n' :
  relisted n n' -> content_files n ≡ₚ content_files n'.
Proof.
  induction 1 as [n|n n' _ IH|n1 n2 n3 _ IH _ IH'|es es' Hp
                 |name listing listing' before after _ IH| |name before after
                 |name before after].
  - reflexivity.
  - now symmetry.
  - now rewrite IH.
  - now apply content_files_reordered.
  - rewrite !content_files_middle.
    apply Permutation_app_head, Permutation_app_tail.
    rewrite !content_files_cons.
    destruct (LlmsCache.skipped name); [reflexivity|].
    apply Permutation_app_tail, Permutation_map, IH.
  - reflexivity.
  - rewrite content_files_middle, content_files_app.
    apply Permutation_app_head.
    rewrite content_files_cons.
    destruct (LlmsCache.skipped name), (LlmsCache.tracked name); reflexivity.
  - rewrite content_files_middle, content_files_app.
    apply Permutation_app_head.
    rewrite content_files_cons.
    destruct (LlmsCache.skipped name); reflexivity.
Qed.

(** The content hash does not depend on the order in which [readdir] lists
    a directory, at any depth, and an entry that cannot be read counts as
    an absent one: a directory whose [readdir] fails or that is empty, a
    file whose [stat] fails. *)
Theorem content_hash_ignores_listing_order_and_unreadable_entries
    (dir : string) (tree tree' : node) :
  relisted tree tree' ->
  LlmsCache.sortedEntries dir tree = LlmsCache.sortedEntries dir tree'
  /\ LlmsCache.computeContentHash dir tree
     = LlmsCache.computeContentHash dir tree'.
Proof.
  intros H. apply relisted_content_files in H.
  pose proof (sortedEntries_perm dir _ _ H) as E.
  split; [exact E|]. unfold LlmsCache.computeContentHash. now rewrite E.
Qed.

Lemma content_hash_ignores_listing_order_and_unreadable_entries_witness :
  LlmsCache.sortedEntries "./content"
    (Dir (Some [("b.md", File (Some 2));
                ("gone.md", File None);
                ("guides", Dir (Some [("x.md", File (Some 3));
                                      ("y.md", File (Some 4))]))]))
  = LlmsCache.sortedEntries "./content"
      (Dir (Some [("guides", Dir (Some [("y.md", File (Some 4));
                                        ("x.md", File (Some 3))]));
                  ("b.md", File (Some 2))])).
Proof.
  apply content_hash_ignores_listing_order_and_unreadable_entries.
  eapply relisted_then.
  { apply (relisted_vanished "gone.md" [("b.md", File (Some 2))]). }
  eapply relisted_then.
  { apply (relisted_below "guides" _
             (Some [("y.md", File (Some 4)); ("x.md", File (Some 3))])
             [("b.md", File (Some 2))] []).
    apply relisted_order. apply perm_swap. }
  apply relisted_order. apply perm_swap.
Defined.

(** ** The cache of llms-cache.ts, continued *)

(** The sections of a request are sorted before anything else is done with
    them: two requests naming the same sections in another order are the
    same request, with the same cache key, the same arguments of the
    generator and the same result. *)
Theorem section_order_does_not_matter
    (w : LlmsCache.World) (st : LlmsCache.State) (contentDir siteName : string)
    (secs secs' : list string) :
  secs ≡ₚ secs' ->
  LlmsCache.getCachedLlmsTxt w st contentDir siteName
    {| LlmsCache.sections := Some secs |}
  = LlmsCache.getCachedLlmsTxt w st contentDir siteName
      {| LlmsCache.sections := Some secs' |}.
Proof.
  intros H.
  assert (E : merge_sort String.le secs = merge_sort String.le secs')
    by now apply sort_eq_iff.
  destruct secs as [|s secs], secs' as [|s' secs'].
  - reflexivity.
  - now apply Permutation_nil_cons in H.
  - symmetry in H. now apply Permutation_nil_cons in H.
  - unfold LlmsCache.getCachedLlmsTxt. cbn [LlmsCache.sections].
    now rewrite E.
Qed.

Lemma section_order_does_not_matter_witness :
  LlmsCache.getCachedLlmsTxt (Sample.llms_world Sample.site "# f0")
    LlmsCache.initial "./content" "f0"
    {| LlmsCache.sections := Some ["guides"; "api"] |}
  = LlmsCache.getCachedLlmsTxt (Sample.llms_world Sample.site "# f0")
      LlmsCache.initial "./content" "f0"
      {| LlmsCache.sections := Some ["api"; "guides"] |}.
Proof.
  apply section_order_does_not_matter. apply perm_swap.
Defined.

(** A generator that throws leaves the cache as it was: the route answers
    its error document, nothing of the failure is stored, and the next
    request that meets the same tree runs the generator again. *)
Theorem failed_generation_is_not_cached
    (w w' : LlmsCache.World) (st : LlmsCache.State)
    (contentDir siteName e t : string) :
  LlmsCache.full_hit st (hash_at w contentDir) = None ->
  LlmsCache.generateLlmText w contentDir siteName
    {| LlmsCache.sections := None |} = Thrown e ->
  hash_at w' contentDir = hash_at w contentDir ->
  LlmsCache.generateLlmText w' contentDir siteName
    {| LlmsCache.sections := None |} = Returned t ->
  LlmsRoute.handler w st contentDir siteName
  = (LlmsRoute.errorDocument, st, 1%nat)
  /\ LlmsRoute.handler w' st contentDir siteName
     = (t,
        {| LlmsCache.cachedLlmsTxt := Some t;
           LlmsCache.cachedLlmsHash := Some (hash_at w' contentDir);
           LlmsCache.cachedLlmsGeneratedAt := LlmsCache.now w';
           LlmsCache.sectionCache := LlmsCache.sectionCache st |},
        1%nat).
Proof.
  intros Hmiss Hthrow Hsame Hgen. unfold LlmsRoute.handler.
  rewrite !(get_unscoped _ _ _ _ {| LlmsCache.sections := None |} eq_refl).
  rewrite Hsame, Hmiss, Hthrow, Hgen. split; reflexivity.
Qed.

(** An empty document is stored by a full-tree request and the status
    reports it as cached, yet it is never served: the next full-tree
    request for the same tree runs the generator again. A section entry
    holding an empty text is served. *)
Theorem empty_document_is_cached_only_for_sections
    (w w' : LlmsCache.World) (st : LlmsCache.State)
    (contentDir siteName : string) (options : LlmsCache.LlmGeneratorOptions) :
  entry_hit st options (hash_at w contentDir) = None ->
  LlmsCache.outcome
    (LlmsCache.getCachedLlmsTxt w st contentDir siteName options) = Returned "" ->
  hash_at w' contentDir = hash_at w contentDir ->
  let st' :=
    LlmsCache.after (LlmsCache.getCachedLlmsTxt w st contentDir siteName options) in
  let again := LlmsCache.getCachedLlmsTxt w' st' contentDir siteName options in
  if scoped options
  then again = {| LlmsCache.outcome := Returned ""; LlmsCache.after := st';
                  LlmsCache.generated := 0 |}
  else LlmsRoute.cached (LlmsRoute.getLlmsCacheStatus st') = true
       /\ LlmsRoute.hash (LlmsRoute.getLlmsCacheStatus st')
          = Some (hash_at w contentDir)
       /\ LlmsCache.generated again = 1%nat.
Proof.
  unfold entry_hit. intros Hmiss Hout Hsame.
  destruct (scoped options) eqn:Hs.
  - rewrite (get_scoped w _ _ _ _ Hs), Hmiss in *.
    destruct (LlmsCache.generateLlmText w _ _ _) as [t|e]; [|discriminate].
    cbn [LlmsCache.outcome LlmsCache.after] in *. injection Hout as ->.
    rewrite (get_scoped w' _ _ _ _ Hs), Hsame.
    unfold LlmsCache.section_hit at 1. cbn [LlmsCache.sectionCache].
    rewrite lookup_insert_eq. cbn [LlmsCache.hash LlmsCache.text].
    now rewrite String.eqb_refl.
  - rewrite (get_unscoped w _ _ _ _ Hs), Hmiss in *.
    destruct (LlmsCache.generateLlmText w _ _ _) as [t|e]; [|discriminate].
    cbn [LlmsCache.outcome LlmsCache.after] in *. injection Hout as ->.
    split; [reflexivity|]. split; [reflexivity|].
    rewrite (get_unscoped w' _ _ _ _ Hs).
    unfold LlmsCache.full_hit at 1.
    cbn [LlmsCache.cachedLlmsTxt LlmsCache.cachedLlmsHash LlmsCache.truthy_text].
    cbn [String.eqb negb andb].
    destruct (LlmsCache.generateLlmText w' _ _ _); reflexivity.
Qed.

Lemma failed_generation_is_not_cached_witness :
  LlmsRoute.handler
    {| LlmsCache.treeAt := fun _ => Sample.one_page;
       LlmsCache.generateLlmText := fun _ _ _ => Thrown "EIO";
       LlmsCache.now := 5 |}
    LlmsCache.initial "./content" "f0"
  = (LlmsRoute.errorDocument, LlmsCache.initial, 1%nat).
Proof.
  assert (Hsame :
            hash_at (Sample.llms_world Sample.one_page "# f0") "./content"
            = hash_at
                {| LlmsCache.treeAt := fun _ => Sample.one_page;
                   LlmsCache.generateLlmText := fun _ _ _ => Thrown "EIO";
                   LlmsCache.now := 5 |} "./content").
  { unfold hash_at. f_equal. }
  exact (proj1
           (failed_generation_is_not_cached
              {| LlmsCache.treeAt := fun _ => Sample.one_page;
                 LlmsCache.generateLlmText := fun _ _ _ => Thrown "EIO";
                 LlmsCache.now := 5 |}
              (Sample.llms_world Sample.one_page "# f0")
              LlmsCache.initial "./content" "f0" "EIO" "# f0"
              eq_refl eq_refl Hsame eq_refl)).
Defined.

Lemma empty_document_is_cached_only_for_sections_witness :
  LlmsCache.generated
    (LlmsCache.getCachedLlmsTxt (Sample.llms_world Sample.one_page "")
       (LlmsCache.after
          (LlmsCache.getCachedLlmsTxt (Sample.llms_world Sample.one_page "")
             LlmsCache.initial "./content" "f0" Sample.everything))
       "./content" "f0" Sample.everything) = 1%nat.
Proof.
  exact (proj2 (proj2
           (empty_document_is_cached_only_for_sections
              (Sample.llms_world Sample.one_page "")
              (Sample.llms_world Sample.one_page "")
              LlmsCache.initial "./content" "f0" Sample.everything
              eq_refl eq_refl eq_refl))).
Defined.

(** ** The directory settings of config.ts, continued *)

Lemma strip_prefix_slash rest : Str.strip_prefix "/" ("/" +:+ rest) = rest.
Proof. reflexivity. Qed.

Lemma strip_prefix_none p s : Str.startsWith s p = false -> Str.strip_prefix p s = s.
Proof. unfold Str.strip_prefix. now intros ->. Qed.

Lemma strip_trailing_slash_added d : Str.strip_trailing_slash (d +:+ "/") = d.
Proof.
  induction d as [|c d IH]; [reflexivity|].
  change (String c d +:+ "/") with (String c (d +:+ "/")).
  cbn [Str.strip_trailing_slash]. rewrite IH.
  now destruct d.
Qed.

Lemma strip_trailing_slash_none d :
  Str.last_char d <> Some "/"%char -> Str.strip_trailing_slash d = d.
Proof.
  induction d as [|c d IH]; [reflexivity|].
  cbn [Str.strip_trailing_slash Str.last_char]. intros H.
  destruct d as [|c' d'].
  - cbn [String.eqb]. destruct (Ascii.eqb c "/") eqn:E; [|reflexivity].
    apply Ascii.eqb_eq in E as ->. now contradiction H.
  - change (String c' d' =? "")%string with false. cbv iota. f_equal. apply IH.
    destruct (Str.last_char (String c' d')) eqn:E; [exact H|].
    cbn [Str.last_char] in E. destruct (Str.last_char d'); discriminate.
Qed.

Lemma resolve_by_normalized_dir w st contentDir d d' :
  Config.normalizeDir d = Config.normalizeDir d' ->
  Config.resolveDirectoryConfig w st contentDir d
  = Config.resolveDirectoryConfig w st contentDir d'.
Proof.
  intros E.
  unfold Config.resolveDirectoryConfig, Config.cacheKeyOf, Config.configPathOf.
  now rewrite E.
Qed.

(** A directory is known to the settings cache by its path without a
    leading and a trailing slash: the spellings [/d], [d/] and [/d/] of a
    directory [d] are the same request as [d], with the same cache entry,
    the same settings file and the same result in every state. *)
Theorem directory_spellings_are_one_request
    (w : Config.World) (st : Config.State) (contentDir d : string) :
  Str.startsWith d "/" = false ->
  Str.last_char d <> Some "/"%char ->
  Config.resolveDirectoryConfig w st contentDir ("/" +:+ d)
  = Config.resolveDirectoryConfig w st contentDir d
  /\ Config.resolveDirectoryConfig w st contentDir (d +:+ "/")
     = Config.resolveDirectoryConfig w st contentDir d
  /\ Config.resolveDirectoryConfig w st contentDir ("/" +:+ d +:+ "/")
     = Config.resolveDirectoryConfig w st contentDir d.
Proof.
  intros Hlead Htrail.
  assert (Hd : Config.normalizeDir d = d).
  { unfold Config.normalizeDir.
    now rewrite (strip_prefix_none _ _ Hlead), strip_trailing_slash_none. }
  repeat split; apply resolve_by_normalized_dir; rewrite Hd;
    unfold Config.normalizeDir.
  - rewrite strip_prefix_slash. now apply strip_trailing_slash_none.
  - destruct d as [|c d']; [reflexivity|].
    rewrite strip_prefix_none; [apply strip_trailing_slash_added|].
    exact Hlead.
  - rewrite strip_prefix_slash. apply strip_trailing_slash_added.
Qed.

Lemma directory_spellings_are_one_request_witness :
  Config.resolveDirectoryConfig
    (SampleConfig.world_at SampleConfig.in_production 0 [] "")
    Config.initial "./content" "/blog/"
  = Config.resolveDirectoryConfig
      (SampleConfig.world_at SampleConfig.in_production 0 [] "")
      Config.initial "./content" "blog".
Proof.
  refine (proj2 (proj2 (directory_spellings_are_one_request _ _ _ "blog" _ _))).
  - reflexivity.
  - discriminate.
Defined.

Lemma firstSegment_of_path seg rest :
  free "/" seg ->
  ConfigPaths.firstSegment ("/" +:+ seg +:+ "/" +:+ rest) = seg
  /\ ConfigPaths.firstSegment ("/" +:+ seg) = seg
  /\ (seg <> "" -> ConfigPaths.firstSegment (seg +:+ "/" +:+ rest) = seg).
Proof.
  intros Hf. unfold ConfigPaths.firstSegment.
  assert (Hsplit : Str.split "/" (seg +:+ "/" +:+ rest)
                   = seg :: Str.split "/" rest).
  { change (seg +:+ "/" +:+ rest) with (seg +:+ String "/" rest).
    now rewrite (split_append "/" seg), (split_free _ _ Hf). }
  repeat split.
  - now rewrite strip_prefix_slash, Hsplit.
  - now rewrite strip_prefix_slash, (split_free _ _ Hf).
  - intros Hne. rewrite strip_prefix_none; [now rewrite Hsplit|].
    destruct seg as [|c seg']; [congruence|].
    apply free_cons in Hf as [Hc _]. cbn [String.append Str.startsWith].
    destruct (Ascii.eqb "/" c) eqn:E; [|reflexivity].
    apply Ascii.eqb_eq in E. congruence.
Qed.

(** The settings of a content path are those of its first segment: what
    follows the first segment plays no part, so that a settings file of a
    nested directory is never read, and a page at the root is resolved as
    the directory of its name. *)
Theorem path_settings_are_those_of_the_first_segment
    (w : Config.World) (st : Config.State) (contentDir seg rest : string) :
  free "/" seg ->
  ConfigPaths.getConfigForPath w st contentDir ("/" +:+ seg +:+ "/" +:+ rest)
  = Config.resolveDirectoryConfig w st contentDir seg
  /\ ConfigPaths.getConfigForPath w st contentDir ("/" +:+ seg)
     = Config.resolveDirectoryConfig w st contentDir seg
  /\ ConfigPaths.resolveLayoutForPath w st contentDir
       ("/" +:+ seg +:+ "/" +:+ rest)
     = ConfigPaths.resolveLayoutForPath w st contentDir ("/" +:+ seg)
  /\ (seg <> "" ->
      ConfigPaths.resolveLayoutForPath w st contentDir (seg +:+ "/" +:+ rest)
      = ConfigPaths.resolveLayoutForPath w st contentDir ("/" +:+ seg)).
Proof.
  intros Hf. destruct (firstSegment_of_path seg rest Hf) as (E1 & E2 & E3).
  unfold ConfigPaths.getConfigForPath, ConfigPaths.resolveLayoutForPath.
  rewrite E1, E2. repeat split. intros Hne. now rewrite (E3 Hne).
Qed.

Lemma path_settings_are_those_of_the_first_segment_witness :
  ConfigPaths.getConfigForPath
    (SampleConfig.world_at SampleConfig.development 0 [] "")
    Config.initial "./content" "/guides/setup/install"
  = Config.resolveDirectoryConfig
      (SampleConfig.world_at SampleConfig.development 0 [] "")
      Config.initial "./content" "guides".
Proof.
  refine (proj1 (path_settings_are_those_of_the_first_segment
                   _ _ _ "guides" "setup/install" _)).
  reflexivity.
Defined.

(** [F0_MODE] decides the layout only for the content root without a
    settings file: with a settings file, or for any other directory, the
    result is the same whatever [F0_MODE] holds; for the root without a
    settings file a call that is not served from the cache gives the blog
    layout exactly when [F0_MODE] is [blog]. *)
Theorem blog_mode_applies_to_the_root_without_settings_file
    (w : Config.World) (st : Config.State) (contentDir dirPath : string) :
  (forall mode,
      Config.existsSync w (Config.configPathOf contentDir dirPath) = true
      \/ Config.normalizeDir dirPath <> "" ->
      Config.resolveDirectoryConfig (with_mode w mode) st contentDir dirPath
      = Config.resolveDirectoryConfig w st contentDir dirPath)
  /\ (Config.existsSync w (Config.configPathOf contentDir dirPath) = false ->
      Config.normalizeDir dirPath = "" ->
      Config.fromCache (Config.resolveDirectoryConfig w st contentDir dirPath)
      = false ->
      exists config,
        Config.outcome (Config.resolveDirectoryConfig w st contentDir dirPath)
        = Returned config
        /\ (Config.layout config = Config.blog
            <-> Config.F0_MODE (Config.env w) = Some "blog")).
Proof.
  split.
  - intros mode H. unfold Config.resolveDirectoryConfig.
    change (Config.isCacheValid (with_mode w mode) st)
      with (Config.isCacheValid w st).
    cbn [with_mode Config.existsSync Config.env Config.F0_MODE
         Config.NUXT_PUBLIC_SITE_NAME Config.NUXT_PUBLIC_SITE_DESCRIPTION].
    change (Config.parseConfigFile (with_mode w mode))
      with (Config.parseConfigFile w).
    unfold Config.store. cbn [with_mode Config.nowAtStore].
    destruct H as [He|Hn].
    + now rewrite He.
    + apply String.eqb_neq in Hn. now rewrite Hn.
  - intros He Hn. unfold Config.resolveDirectoryConfig.
    rewrite He, Hn. cbn [String.eqb andb].
    assert (Hmode : (Config.from_env (Config.F0_MODE (Config.env w)) "" =? "blog")%string
                    = true <-> Config.F0_MODE (Config.env w) = Some "blog").
    { unfold Config.from_env. destruct (Config.F0_MODE (Config.env w)) as [s|].
      - destruct (s =? "")%string eqn:Es.
        + apply String.eqb_eq in Es as ->. split; discriminate.
        + rewrite String.eqb_eq. split; congruence.
      - split; discriminate. }
    destruct (Config.from_env _ _ =? "blog")%string eqn:Em.
    + destruct (Config.configCache st !! _);
        [destruct (Config.isCacheValid w st); [discriminate|]|];
        intros _; eexists; (split; [reflexivity|]); cbn [Config.layout];
        split; intros _; [now apply Hmode| reflexivity | now apply Hmode | reflexivity].
    + assert (Hno : Config.F0_MODE (Config.env w) <> Some "blog").
      { intros E. apply Hmode in E. congruence. }
      destruct (Config.configCache st !! _);
        [destruct (Config.isCacheValid w st); [discriminate|]|];
        intros _; eexists; (split; [reflexivity|]); cbn [Config.layout];
        split; intros E; try discriminate; contradiction.
Qed.

Lemma blog_mode_applies_to_the_root_without_settings_file_witness :
  Config.resolveDirectoryConfig
    (with_mode (SampleConfig.world_at SampleConfig.development 0 [] "")
       (Some "blog"))
    Config.initial "./content" "/posts"
  = Config.resolveDirectoryConfig
      (SampleConfig.world_at SampleConfig.development 0 [] "")
      Config.initial "./content" "/posts".
Proof.
  refine (proj1 (blog_mode_applies_to_the_root_without_settings_file _ _ _ _) _ _).
  right. discriminate.
Defined.

Lemma config_asset_url_served v s :
  Config.resolveAssetUrl v = Returned s -> served_url s = true.
Proof.
  unfold Config.resolveAssetUrl, served_url.
  destruct (Js.truthy v); cbn [negb]; [|now intros [= <-]].
  destruct (Js.as_string v) as [p|e]; cbn [obind]; [|discriminate].
  destruct (Str.startsWith p "http://") eqn:E1; cbn [orb].
  - intros [= <-]. rewrite E1. now rewrite orb_true_r.
  - destruct (Str.startsWith p "https://") eqn:E2.
    + intros [= <-]. rewrite E2. now rewrite orb_true_r.
    + intros H.
      assert (Es : s = "/api/content/" +:+ Str.strip_prefix "./" p)
        by congruence.
      rewrite Es, startsWith_append. apply orb_true_r.
Qed.

Lemma parse_config_hero w path :
  served_url (Config.heroImage (fst (Config.parseConfigFile w path))) = true.
Proof.
  unfold Config.parseConfigFile, Config.parseConfigFile_try.
  destruct (Config.readFileSync w path) as [content|e]; [|reflexivity].
  destruct (Config.extractConfigFrontmatter w content) as [fm warned].
  destruct fm; cbn [Js.get obind]; try reflexivity;
    match goal with
    | |- context [Config.resolveAssetUrl ?v] =>
        destruct (Config.resolveAssetUrl v) as [hero|e] eqn:E; cbn [obind fst];
        [cbn [Config.heroImage]; exact (config_asset_url_served _ _ E)
        |reflexivity]
    end.
Qed.

Lemma resolve_keeps_served_urls w st contentDir dirPath :
  (forall k c, Config.configCache st !! k = Some c ->
               served_url (Config.heroImage c) = true) ->
  let r := Config.resolveDirectoryConfig w st contentDir dirPath in
  (exists config,
      Config.outcome r = Returned config
      /\ served_url (Config.heroImage config) = true)
  /\ (forall k c, Config.configCache (Config.after r) !! k = Some c ->
                  served_url (Config.heroImage c) = true).
Proof.
  intros Hinv r.
  assert (Hstore : forall config warned,
             served_url (Config.heroImage config) = true ->
             let r := Config.store w st (Config.cacheKeyOf contentDir dirPath)
                        config warned in
             (exists config,
                 Config.outcome r = Returned config
                 /\ served_url (Config.heroImage config) = true)
             /\ (forall k c, Config.configCache (Config.after r) !! k = Some c ->
                             served_url (Config.heroImage c) = true)).
  { intros config warned Hc. cbn. split; [eauto|].
    intros k c. destruct (decide (Config.cacheKeyOf contentDir dirPath = k)) as [<-|Hk].
    - rewrite lookup_insert_eq. now intros [= <-].
    - rewrite lookup_insert_ne by exact Hk. apply Hinv. }
  subst r. unfold Config.resolveDirectoryConfig.
  set (compute := if Config.existsSync w _ then _ else _).
  assert (Hcompute :
            (exists config,
                Config.outcome compute = Returned config
                /\ served_url (Config.heroImage config) = true)
            /\ (forall k c,
                   Config.configCache (Config.after compute) !! k = Some c ->
                   served_url (Config.heroImage c) = true)).
  { subst compute. destruct (Config.existsSync w _).
    - pose proof (parse_config_hero w (Config.configPathOf contentDir dirPath)) as Hh.
      destruct (Config.parseConfigFile w _) as [config warned].
      now apply Hstore.
    - destruct (_ && _); now apply Hstore. }
  destruct (Config.configCache st !! _) as [cached|] eqn:Hc; [|exact Hcompute].
  destruct (Config.isCacheValid w st); [|exact Hcompute].
  split; [|exact Hinv]. exists cached. split; [reflexivity|]. eapply Hinv, Hc.
Qed.

(** Whatever the settings files hold, the hero image of every
    configuration that [resolveDirectoryConfig] returns, from an empty
    cache on, is empty, an absolute [http(s)] URL or a URL of the content
    API. *)
Theorem hero_image_is_always_a_served_url
    (calls : list (Config.World * string * string)) :
  List.Forall
    (fun r => exists config,
         Config.outcome r = Returned config
         /\ served_url (Config.heroImage config) = true)
    (resolve_all calls Config.initial).
Proof.
  assert (H : forall st,
             (forall k c, Config.configCache st !! k = Some c ->
                          served_url (Config.heroImage c) = true) ->
             List.Forall
               (fun r => exists config,
                    Config.outcome r = Returned config
                    /\ served_url (Config.heroImage config) = true)
               (resolve_all calls st)).
  { induction calls as [|[[w contentDir] dirPath] calls IH]; intros st Hinv.
    - constructor.
    - cbn [resolve_all].
      destruct (resolve_keeps_served_urls w st contentDir dirPath Hinv)
        as [Hr Hafter].
      constructor; [exact Hr|]. apply IH, Hafter. }
  apply H. intros k c. cbn. now rewrite lookup_empty.
Qed.
(** ** The brand cache of brand.ts, continued *)

(** A failure inside the [try] of [getBrandConfig] gives the defaults,
    caches them and leaves the recorded modification time as it was. What
    the next call makes of a file that can be read again then depends on
    the modification time of the file alone: when it differs from the
    recorded one the file is parsed and its time recorded; when it is the
    recorded one, the file having been parsed before the failure and not
    touched since, the cached defaults are returned and the file is not
    read. *)
Theorem failed_brand_read_keeps_the_recorded_mtime
    (w : Brand.World) (st : Brand.State) (contentDir e : string) :
  let defaults :=
    {| Brand.brandCache := Some Brand.DEFAULT_BRAND;
       Brand.brandMtime := Brand.brandMtime st |} in
  Brand.existsSync w (Brand.brandPathOf contentDir) = true ->
  Brand.getBrandConfig_try w st (Brand.brandPathOf contentDir) = Thrown e ->
  Brand.getBrandConfig w st contentDir = (Brand.DEFAULT_BRAND, defaults)
  /\ forall (w' : Brand.World) (m : Z),
      Brand.existsSync w' (Brand.brandPathOf contentDir) = true ->
      Brand.statSync w' (Brand.brandPathOf contentDir) = Returned m ->
      if m =? Brand.brandMtime st
      then Brand.getBrandConfig w' defaults contentDir
           = (Brand.DEFAULT_BRAND, defaults)
      else forall content body parsed config,
          Brand.readFileSync w' (Brand.brandPathOf contentDir)
          = Returned content ->
          Config.frontmatter_match content = Some body ->
          Brand.yaml_parse w' body = Returned parsed ->
          Brand.parse_brand (Js.or parsed (JObj [])) = Returned config ->
          Brand.getBrandConfig w' defaults contentDir
          = (config,
             {| Brand.brandCache := Some config; Brand.brandMtime := m |}).
Proof.
  intros defaults He Ht. split.
  - unfold Brand.getBrandConfig. now rewrite He, Ht.
  - intros w' m He' Hs. unfold Brand.getBrandConfig, Brand.getBrandConfig_try.
    rewrite He', Hs. subst defaults.
    cbn [negb obind Brand.brandCache Brand.brandMtime].
    destruct (m =? Brand.brandMtime st); [reflexivity|].
    intros content body parsed config Hr Hf Hy Hp.
    rewrite Hr. cbn [obind]. rewrite Hf, Hy. cbn [obind]. now rewrite Hp.
Qed.

Lemma failed_brand_read_keeps_the_recorded_mtime_witness :
  Brand.getBrandConfig SampleBrand.with_file
    {| Brand.brandCache := Some Brand.DEFAULT_BRAND; Brand.brandMtime := 1000 |}
    "./content"
  = (Brand.DEFAULT_BRAND,
     {| Brand.brandCache := Some Brand.DEFAULT_BRAND;
        Brand.brandMtime := 1000 |}).
Proof.
  exact (proj2
           (failed_brand_read_keeps_the_recorded_mtime
              {| Brand.existsSync := fun _ => true;
                 Brand.statSync := fun _ => Thrown "EACCES";
                 Brand.readFileSync := fun _ => Returned SampleBrand.acme_settings;
                 Brand.yaml_parse := fun _ => Thrown "YAMLParseError" |}
              {| Brand.brandCache := Some SampleBrand.acme;
                 Brand.brandMtime := 1000 |}
              "./content" "EACCES" eq_refl eq_refl)
           SampleBrand.with_file 1000 eq_refl eq_refl).
Defined.

Lemma brand_asset_url v s :
  Brand.resolveAssetUrl v = Returned s -> content_url s = true.
Proof.
  unfold Brand.resolveAssetUrl, content_url.
  destruct (Js.truthy v); cbn [negb]; [|now intros [= <-]].
  destruct (Js.as_string v) as [p|e]; cbn [obind]; [|discriminate].
  intros H.
  assert (Es : s = "/api/content/" +:+ Str.strip_prefix "./" p) by congruence.
  rewrite Es, startsWith_append. apply orb_true_r.
Qed.

Lemma parse_brand_urls fm config :
  Brand.parse_brand fm = Returned config -> content_urls config = true.
Proof.
  unfold Brand.parse_brand.
  destruct fm; cbn [Js.get obind]; try discriminate;
    repeat match goal with
           | |- obind ?m _ = _ -> _ =>
               destruct m eqn:?; cbn [obind]; [|discriminate]
           end;
    intros H; injection H as <-; unfold content_urls;
    cbn [Brand.logo Brand.logoDark Brand.favicon Brand.customCss Brand.ogImage];
    repeat match goal with
           | E : Brand.resolveAssetUrl _ = Returned _ |- _ =>
               apply brand_asset_url in E; rewrite E
           end;
    reflexivity.
Qed.

Lemma brand_try_urls w st path config st' :
  (forall c, Brand.brandCache st = Some c -> content_urls c = true) ->
  Brand.getBrandConfig_try w st path = Returned (config, st') ->
  content_urls config = true.
Proof.
  intros Hinv. unfold Brand.getBrandConfig_try.
  destruct (Brand.statSync w path) as [mtimeMs|e]; cbn [obind]; [|discriminate].
  assert (Hparse :
            (let! content := Brand.readFileSync w path in
             match Config.frontmatter_match content with
             | None =>
                 Returned (Brand.DEFAULT_BRAND,
                           {| Brand.brandCache := Some Brand.DEFAULT_BRAND;
                              Brand.brandMtime := mtimeMs |})
             | Some body =>
                 let! parsed := Brand.yaml_parse w body in
                 let! config := Brand.parse_brand (Js.or parsed (JObj [])) in
                 Returned (config, {| Brand.brandCache := Some config;
                                      Brand.brandMtime := mtimeMs |})
             end) = Returned (config, st') ->
            content_urls config = true).
  { destruct (Brand.readFileSync w path) as [content|e]; cbn [obind];
      [|discriminate].
    destruct (Config.frontmatter_match content) as [body|].
    - destruct (Brand.yaml_parse w body) as [parsed|e]; cbn [obind];
        [|discriminate].
      destruct (Brand.parse_brand _) as [c|e] eqn:Ep; cbn [obind];
        [|discriminate].
      intros H. injection H as <- _. exact (parse_brand_urls _ _ Ep).
    - intros H. injection H as <- _. reflexivity. }
  destruct (Brand.brandCache st) as [cached|] eqn:Hc; [|exact Hparse].
  destruct (mtimeMs =? Brand.brandMtime st); [|exact Hparse].
  intros H. injection H as <- _. now apply Hinv.
Qed.

Lemma brand_call_urls w st contentDir :
  (forall c, Brand.brandCache st = Some c -> content_urls c = true) ->
  content_urls (fst (Brand.getBrandConfig w st contentDir)) = true.
Proof.
  intros Hinv. unfold Brand.getBrandConfig.
  destruct (Brand.existsSync w _); cbn [negb].
  - destruct (Brand.getBrandConfig_try w st _) as [[config st']|e] eqn:Ht;
      [|reflexivity].
    exact (brand_try_urls _ _ _ _ _ Hinv Ht).
  - destruct (Brand.brandCache st) as [cached|] eqn:Hc; [|reflexivity].
    now apply Hinv.
Qed.

(** Whatever the brand files hold, the logo, the dark logo, the favicon,
    the style sheet and the OpenGraph image of every configuration that
    [getBrandConfig] returns, from an empty cache on, are empty or URLs of
    the content API: an absolute URL given in [_brand.md] is not passed
    through, it is prefixed like a path of the content directory. *)
Theorem brand_assets_are_always_content_urls
    (calls : list (Brand.World * string)) :
  List.Forall (fun config => content_urls config = true)
    (fst (Brand.run calls Brand.initial)).
Proof.
  assert (H : forall st,
             (forall c, Brand.brandCache st = Some c -> content_urls c = true) ->
             List.Forall (fun config => content_urls config = true)
               (fst (Brand.run calls st))).
  { induction calls as [|[w contentDir] calls IH]; intros st Hinv.
    - constructor.
    - cbn [Brand.run].
      pose proof (brand_call_urls w st contentDir Hinv) as Hc.
      pose proof (brand_call_leaves_cached w st contentDir) as Hl.
      destruct (Brand.getBrandConfig w st contentDir) as [config st'].
      cbn [fst snd] in Hc, Hl.
      assert (Hinv' : forall c, Brand.brandCache st' = Some c ->
                                content_urls c = true).
      { intros c E. rewrite Hl in E. now injection E as <-. }
      specialize (IH st' Hinv').
      destruct (Brand.run calls st') as [configs st''].
      constructor; [exact Hc | exact IH]. }
  apply H. discriminate.
Qed.

(** ** The image processor, continued *)

#[local] Arguments Loader.with_module : simpl never.

(** A call that overlaps no other is the call of [processImageBuffer]
    with the loader's state passed through it. *)
Lemma call_alone (st : ImageProcessor.State) (w : ImageProcessor.World)
    (src : ImageProcessor.Buffer) (options : ImageProcessor.ImageOptions) :
  let entered := Loader.step (Loader.idle st) (Loader.Enter (w, src, options)) in
  let settled := Loader.step (fst entered) (Loader.Settle 0) in
  let b := ImageProcessor.processImageBuffer w st src options in
  fst settled = Loader.idle (snd (fst (fst b)))
  /\ match snd entered, snd settled with
     | Some out, None | None, Some out =>
         out = (fst (fst (fst b)), snd (fst b), snd b)
     | _, _ => False
     end.
Proof.
  unfold Loader.step, Loader.idle, Loader.with_module,
    ImageProcessor.processImageBuffer, ImageProcessor.getSharp.
  destruct st as [[] []]; cbn;
    try (destruct (ImageProcessor.importSharp w); cbn);
    try (destruct (ImageProcessor.sharp w src _) as [[data info]|e]; cbn);
    split; reflexivity.
Qed.

Lemma with_module_warnings (c : Loader.Call) :
  unavailable_warnings (snd (Loader.with_module c)) = 0%nat.
Proof.
  destruct c as [[w src] options].
  unfold Loader.with_module, ImageProcessor.processImageBuffer,
    ImageProcessor.getSharp. cbn.
  destruct (ImageProcessor.sharp w src _) as [[data info]|e]; reflexivity.
Qed.

Lemma step_keeps_unavailable p a :
  ImageProcessor.sharpAvailable (Loader.loader p) = false ->
  ImageProcessor.sharpAvailable (Loader.loader (fst (Loader.step p a))) = false
  /\ forall c, a = Loader.Enter c ->
       snd (Loader.step p a)
       = Some (None, [ImageProcessor.SharpUnavailable], []).
Proof.
  intros Ha. destruct a as [c|i]; unfold Loader.step.
  - rewrite Ha. cbn. split; [exact Ha|reflexivity].
  - split; [|discriminate].
    destruct (nth_error (Loader.waiting p) i) as [c|]; [|exact Ha].
    destruct (ImageProcessor.importSharp (fst (fst c))); [exact Ha|reflexivity].
Qed.

Lemma step_warns_once p a out :
  snd (Loader.step p a) = Some out ->
  (unavailable_warnings (snd out) <= 1)%nat
  /\ forall c, a = Loader.Enter c -> unavailable_warnings (snd out) = 0%nat.
Proof.
  destruct a as [c|i]; unfold Loader.step.
  - destruct (negb _).
    + intros [= <-]. split; [vm_compute; lia|reflexivity].
    + destruct (ImageProcessor.sharpModule _); [|discriminate].
      intros [= <-]. rewrite with_module_warnings. split; [lia|reflexivity].
  - destruct (nth_error (Loader.waiting p) i) as [c|]; [|discriminate].
    destruct (ImageProcessor.importSharp (fst (fst c))); intros [= <-].
    + rewrite with_module_warnings. split; [lia|discriminate].
    + split; [vm_compute; lia|discriminate].
Qed.

Lemma process_step w st src options :
  let r := ImageProcessor.processImageBuffer w st src options in
  let st' := snd (fst (fst r)) in
  (sharp_loads w st = false ->
   fst (fst (fst r)) = None /\ ImageProcessor.sharpAvailable st' = false)
  /\ (sharp_loads w st = true ->
      ImageProcessor.sharpAvailable st' = true
      /\ ImageProcessor.sharpModule st' = true)
  /\ (unavailable_warnings (snd r)
      = if ImageProcessor.sharpAvailable st
           && negb (ImageProcessor.sharpModule st)
           && negb (ImageProcessor.importSharp w)
        then 1 else 0)%nat.
Proof.
  unfold ImageProcessor.processImageBuffer, ImageProcessor.getSharp, sharp_loads.
  destruct st as [[] []], (ImageProcessor.importSharp w);
    cbn [ImageProcessor.sharpAvailable ImageProcessor.sharpModule negb andb orb];
    try (repeat split; (reflexivity || discriminate));
    destruct (ImageProcessor.sharp w src _) as [[data info]|e];
    repeat split; (reflexivity || discriminate).
Qed.

(** The warnings of a run of calls made one after another, by the state
    that the first of them finds. *)
Lemma one_after_another_warns calls :
  forall st,
    (unavailable_warnings
       (Loader.warned
          (Loader.run (Loader.one_after_another calls) (Loader.idle st)))
     <= if ImageProcessor.sharpAvailable st
           && negb (ImageProcessor.sharpModule st)
        then 1 else 0)%nat.
Proof.
  induction calls as [|[[w src] options] calls IH]; intros st.
  - cbn. destruct (_ && _); lia.
  - pose proof (call_alone st w src options) as [Hst Hout].
    pose proof (process_step w st src options) as (Hno & Hyes & Hcount).
    cbn zeta in Hst, Hout, Hno, Hyes, Hcount.
    cbn [Loader.one_after_another flat_map app Loader.run Loader.warned snd].
    rewrite Hst.
    specialize (IH (snd (fst (fst
      (ImageProcessor.processImageBuffer w st src options))))).
    unfold Loader.one_after_another, Loader.warned in IH.
    unfold unavailable_warnings in *.
    rewrite !List.filter_app, !length_app.
    destruct (snd (Loader.step (Loader.idle st) _)) as [o1|],
      (snd (Loader.step (fst (Loader.step (Loader.idle st) _)) _)) as [o2|];
      try contradiction; subst; cbn [snd List.filter length];
      rewrite Hcount;
      (destruct (sharp_loads w st) eqn:Hl;
       [ destruct Hyes as [Ha Hm]; [reflexivity|];
         rewrite Ha, Hm in IH; cbn [andb negb] in IH
       | destruct Hno as [_ Ha]; [reflexivity|];
         rewrite Ha in IH; cbn [andb] in IH ];
       unfold sharp_loads in Hl;
       destruct (ImageProcessor.sharpAvailable st),
         (ImageProcessor.sharpModule st), (ImageProcessor.importSharp w);
       cbn in *; try discriminate; lia).
Qed.



(** Two calls that enter before the import of the first has settled both
    await the import, and both log the warning when it fails. *)
Remark overlapping_first_calls_both_warn :
  let failing := SampleImage.world 5 None false false false in
  let c := (failing, SampleImage.photo, SampleImage.w800_webp) in
  Loader.warned
    (Loader.run [Loader.Enter c; Loader.Enter c; Loader.Settle 0;
                 Loader.Settle 0]
       (Loader.idle ImageProcessor.initial))
  = ["sharp not available"; "sharp not available"].
Proof. reflexivity. Qed.

Lemma parse_options_fields query options :
  ImageProcessor.parseImageOptions query = Some options ->
  exists w h q,
    ImageProcessor.width options
    = ImageProcessor.parse_bounded 1 ImageProcessor.MAX_WIDTH w
    /\ ImageProcessor.height options
       = ImageProcessor.parse_bounded 1 ImageProcessor.MAX_HEIGHT h
    /\ ImageProcessor.quality options = ImageProcessor.parse_bounded 1 100 q.
Proof.
  unfold ImageProcessor.parseImageOptions.
  destruct (negb _ && negb _ && negb _ && negb _); [discriminate|].
  set (o := {| ImageProcessor.width := _ |}).
  intros H.
  assert (E : options = o).
  { destruct (ImageProcessor.width o), (ImageProcessor.height o),
      (ImageProcessor.format o), (ImageProcessor.quality o); congruence. }
  rewrite E. eexists _, _, _. repeat split; reflexivity.
Qed.

(** The limits that [parseImageOptions] enforces are those of the
    pipeline: for options that come from a query the pipeline resizes to
    the very width and height requested, [Math.min] cutting nothing, and
    encodes at the quality requested, or at 80 when none is. *)
Theorem parsed_options_reach_sharp_unclamped
    (query : ImageProcessor.Query) (options : ImageProcessor.ImageOptions) :
  ImageProcessor.parseImageOptions query = Some options ->
  ImageProcessor.resize (ImageProcessor.pipeline_of options)
  = match ImageProcessor.width options, ImageProcessor.height options with
    | None, None => None
    | width, height => Some (width, height)
    end
  /\ ImageProcessor.encoder (ImageProcessor.pipeline_of options)
     = let q := default ImageProcessor.DEFAULT_QUALITY
                  (ImageProcessor.quality options) in
       match ImageProcessor.format options with
       | Some ImageProcessor.webp => ImageProcessor.ToWebp q
       | Some ImageProcessor.avif => ImageProcessor.ToAvif q
       | Some ImageProcessor.jpeg | Some ImageProcessor.jpg =>
           ImageProcessor.ToJpeg q
       | Some ImageProcessor.png => ImageProcessor.ToPng
       | Some ImageProcessor.original | None => ImageProcessor.Keep
       end.
Proof.
  intros H. destruct (parse_options_fields _ _ H) as (w & h & q & Ew & Eh & Eq).
  unfold ImageProcessor.pipeline_of.
  cbn [ImageProcessor.resize ImageProcessor.encoder].
  assert (Hw : forall v, ImageProcessor.width options = Some v ->
                         (v =? 0) = false /\ Z.min v ImageProcessor.MAX_WIDTH = v).
  { intros v E. rewrite Ew in E. apply parse_bounded_range in E.
    split; [apply Z.eqb_neq|apply Z.min_l]; lia. }
  assert (Hh : forall v, ImageProcessor.height options = Some v ->
                         (v =? 0) = false /\ Z.min v ImageProcessor.MAX_HEIGHT = v).
  { intros v E. rewrite Eh in E. apply parse_bounded_range in E.
    split; [apply Z.eqb_neq|apply Z.min_l]; lia. }
  assert (Hq : forall v, ImageProcessor.quality options = Some v ->
                         (v =? 0) = false).
  { intros v E. rewrite Eq in E. apply parse_bounded_range in E.
    apply Z.eqb_neq. lia. }
  unfold ImageProcessor.truthy_num.
  split.
  - destruct (ImageProcessor.width options) as [wd|];
      destruct (ImageProcessor.height options) as [ht|];
      try (destruct (Hw _ eq_refl) as [-> ->]);
      try (destruct (Hh _ eq_refl) as [-> ->]); reflexivity.
  - destruct (ImageProcessor.quality options) as [qv|];
      [rewrite (Hq _ eq_refl)|]; reflexivity.
Qed.

Lemma parsed_options_reach_sharp_unclamped_witness :
  ImageProcessor.resize
    (ImageProcessor.pipeline_of
       {| ImageProcessor.width := Some 3840; ImageProcessor.height := None;
          ImageProcessor.format := None; ImageProcessor.quality := None |})
  = Some (Some 3840, None).
Proof.
  refine (proj1 (parsed_options_reach_sharp_unclamped
                   (SampleImage.query_of (Some "3840") None None None) _ _)).
  reflexivity.
Defined.

(** The derivative of an image is filed under the base name of its source
    alone: two sources of the same file name in different directories have
    one derivative path, and a request for the one is served the
    derivative found there, its own source being neither read nor
    processed. *)
Theorem derivative_is_shared_by_sources_of_the_same_name
    (w : ImageProcessor.World) (st : ImageProcessor.State)
    (source1 source2 cacheDir : string) (options : ImageProcessor.ImageOptions)
    (sourceMtime cacheMtime : Z) (data : ImageProcessor.Buffer) :
  Path.basename source1 = Path.basename source2 ->
  ImageProcessor.existsSync w
    (ImageProcessor.cachePathOf source1 cacheDir options) = true ->
  ImageProcessor.stat w source2 = Returned sourceMtime ->
  ImageProcessor.stat w (ImageProcessor.cachePathOf source1 cacheDir options)
  = Returned cacheMtime ->
  sourceMtime <= cacheMtime ->
  ImageProcessor.readFile w
    (ImageProcessor.cachePathOf source1 cacheDir options) = Returned data ->
  ImageProcessor.cachePathOf source2 cacheDir options
  = ImageProcessor.cachePathOf source1 cacheDir options
  /\ exists image,
      ImageProcessor.getProcessedImage w st source2 cacheDir options
      = {| ImageProcessor.outcome := Returned (Some image);
           ImageProcessor.after := st;
           ImageProcessor.events := [];
           ImageProcessor.warnings := [] |}
      /\ ImageProcessor.buffer image = data.
Proof.
  intros Hb He Hs Hc Hle Hr.
  assert (Ep : ImageProcessor.cachePathOf source2 cacheDir options
               = ImageProcessor.cachePathOf source1 cacheDir options).
  { unfold ImageProcessor.cachePathOf. now rewrite Hb. }
  split; [exact Ep|].
  destruct (cached_derivative_fresh w source2 _ _ _ _ He Hs Hc Hle Hr)
    as (image & Ei & Eb).
  exists image. split; [|exact Eb].
  unfold ImageProcessor.getProcessedImage. now rewrite Ep, Ei.
Qed.

Lemma derivative_is_shared_by_sources_of_the_same_name_witness :
  ImageProcessor.cachePathOf "/srv/content/assets/team/photo.png"
    "/srv/content/.cache/images" SampleImage.w800_webp
  = ImageProcessor.cachePathOf "/srv/content/assets/press/photo.png"
      "/srv/content/.cache/images" SampleImage.w800_webp.
Proof.
  refine (proj1
            (derivative_is_shared_by_sources_of_the_same_name
               {| ImageProcessor.importSharp := true;
                  ImageProcessor.sharp := fun _ _ => Thrown "unused";
                  ImageProcessor.existsSync := fun _ => true;
                  ImageProcessor.stat := fun _ => Returned 7;
                  ImageProcessor.readFile := fun _ => Returned SampleImage.small;
                  ImageProcessor.writeDerivative := fun _ _ => Returned tt |}
               ImageProcessor.initial
               "/srv/content/assets/press/photo.png"
               "/srv/content/assets/team/photo.png"
               "/srv/content/.cache/images" SampleImage.w800_webp
               7 7 SampleImage.small _ _ _ _ _ _));
    reflexivity.
Defined.
(** ** The asset route *)

Lemma concat_app sep (l l' : list string) :
  l <> [] -> l' <> [] ->
  String.concat sep (l ++ l')
  = String.concat sep l +:+ sep +:+ String.concat sep l'.
Proof.
  intros Hl Hl'. induction l as [|x l IH]; [congruence|].
  destruct l as [|y l].
  - destruct l' as [|z l']; [congruence|]. reflexivity.
  - change (String.concat sep ((x :: y :: l) ++ l'))
      with (x +:+ sep +:+ String.concat sep ((y :: l) ++ l')).
    change (String.concat sep (x :: y :: l))
      with (x +:+ sep +:+ String.concat sep (y :: l)).
    rewrite IH by discriminate. now rewrite !append_assoc.
Qed.

Lemma rev_nonempty {A} (l : list A) : l <> [] -> rev l <> [].
Proof.
  intros Hne E. apply Hne. now rewrite <- (rev_involutive l), E.
Qed.

Lemma render_above abs more stack :
  stack <> [] ->
  Path.render abs (more ++ stack)
  = Path.render abs stack
    +:+ match more with
        | [] => ""
        | _ => "/" +:+ String.concat "/" (rev more)
        end.
Proof.
  intros Hne. unfold Path.render. destruct more as [|m more].
  - now rewrite append_nil_r.
  - rewrite rev_app_distr, concat_app, !append_assoc;
      [reflexivity|now apply rev_nonempty|now apply rev_nonempty].
Qed.

Lemma render_last abs stack :
  stack <> [] -> normal (negb abs) stack ->
  Path.render abs stack <> ""
  /\ forall c, Str.last_char (Path.render abs stack) = Some c -> c <> "/"%char.
Proof.
  intros Hne Hn. pose proof (normal_pieces _ _ Hn) as Hpieces.
  destruct stack as [|top below]; [congruence|].
  apply List.Forall_cons_iff in Hpieces as [[Htop Hfree] _].
  assert (E : exists before, Path.render abs (top :: below) = before +:+ top).
  { unfold Path.render. cbn [rev].
    destruct (rev below) as [|s l] eqn:Er.
    - now exists (if abs then "/" else "").
    - exists ((if abs then "/" else "") +:+ String.concat "/" (s :: l) +:+ "/").
      rewrite concat_app by discriminate. now rewrite !append_assoc. }
  destruct E as [before ->]. split.
  - destruct before; [exact Htop|discriminate].
  - intros c. rewrite (last_char_append _ _ Htop). now apply last_char_free.
Qed.

Lemma normalize_spec p stack :
  p <> "" -> Path.segments p = stack -> stack <> [] ->
  Path.normalize p
  = Path.render (Path.isAbsolute p) stack
    +:+ (if match Str.last_char p with
            | Some c => Ascii.eqb c "/"
            | None => false
            end
         then "/" else "").
Proof.
  intros Hp Hs Hne. unfold Path.normalize.
  apply String.eqb_neq in Hp. rewrite Hp, Hs.
  destruct stack; [congruence|reflexivity].
Qed.

Lemma normalize_rendered abs stack (trailing : bool) :
  stack <> [] -> normal (negb abs) stack ->
  Path.normalize (Path.render abs stack +:+ (if trailing then "/" else ""))
  = Path.render abs stack +:+ (if trailing then "/" else "").
Proof.
  intros Hne Hn.
  destruct (render_roundtrip abs stack Hne Hn) as [Habs Hsegs].
  destruct (render_last abs stack Hne Hn) as [Hr Hlast].
  destruct trailing.
  - rewrite (normalize_spec _ stack); [| | |exact Hne].
    + rewrite (isAbsolute_append _ _ Hr), Habs.
      rewrite (last_char_append _ "/") by discriminate.
      reflexivity.
    + destruct (Path.render abs stack); [congruence|discriminate].
    + unfold Path.segments. rewrite (isAbsolute_append _ _ Hr), Habs.
      change (Path.render abs stack +:+ "/")
        with (Path.render abs stack +:+ String "/" "").
      rewrite (split_append "/"), fold_left_app.
      unfold Path.segments in Hsegs. rewrite Habs in Hsegs. now rewrite Hsegs.
  - rewrite append_nil_r, (normalize_spec _ stack Hr Hsegs Hne), Habs.
    destruct (Str.last_char (Path.render abs stack)) as [c|] eqn:El;
      [|apply append_nil_r].
    assert (E : Ascii.eqb c "/" = false)
      by (apply Ascii.eqb_neq; now apply Hlast).
    rewrite E. apply append_nil_r.
Qed.

Lemma fold_seg_step_plain allow segs :
  Forall (fun s => s <> ".." /\ free "/" s) segs ->
  forall stack,
  exists more,
    fold_left (Path.seg_step allow) segs stack = more ++ stack
    /\ Forall (fun s => valid_name s = true) more.
Proof.
  induction 1 as [|seg segs [Hdd Hfree] _ IH]; intros stack.
  - exists []. split; [reflexivity|constructor].
  - cbn [fold_left].
    destruct (String.eqb_spec seg "") as [->|Hempty];
      [exact (IH stack)|].
    destruct (String.eqb_spec seg ".") as [->|Hdot];
      [exact (IH stack)|].
    assert (Hv : valid_name seg = true).
    { unfold valid_name. apply String.eqb_neq in Hempty, Hdot, Hdd.
      unfold free in Hfree. now rewrite Hempty, Hdot, Hdd, Hfree. }
    rewrite (seg_step_valid _ _ _ Hv).
    destruct (IH (seg :: stack)) as (more & -> & Hmore).
    exists (more ++ [seg]). split; [now rewrite <- app_assoc|].
    apply Forall_app. split; [exact Hmore|]. now constructor.
Qed.

Lemma startsWith_first_piece c s :
  Str.startsWith s (hd "" (Str.split c s)) = true.
Proof.
  induction s as [|d s IH]; [reflexivity|].
  cbn [Str.split]. destruct (Ascii.eqb d c); [reflexivity|].
  destruct (Str.split c s) as [|h t]; cbn [hd Str.startsWith] in *;
    rewrite Ascii.eqb_refl; [reflexivity|exact IH].
Qed.

Lemma includes_piece c s x :
  In x (Str.split c s) -> Assets.includes s x = true.
Proof.
  induction s as [|d s IH]; cbn [Str.split Assets.includes].
  - intros [<-|[]]. reflexivity.
  - destruct (Ascii.eqb d c).
    + intros [<-|Hx]; [reflexivity|]. rewrite (IH Hx). apply orb_true_r.
    + pose proof (startsWith_first_piece c s) as Hh.
      destruct (Str.split c s) as [|h t]; cbn [hd] in Hh.
      * intros [<-|[]]. cbn [Str.startsWith]. now rewrite Ascii.eqb_refl.
      * intros [<-|Hx].
        -- cbn [Str.startsWith]. now rewrite Ascii.eqb_refl, Hh.
        -- rewrite IH; [apply orb_true_r|now right].
Qed.

Lemma file_path_rendered (req : Assets.Request) (assetPath : string) :
  Assets.includes assetPath ".." = false ->
  let abs := Path.isAbsolute (Assets.contentDir req) in
  let kept := "assets" :: Path.segments (Assets.contentDir req) in
  Assets.assetsDirOf req = Path.render abs kept
  /\ exists more (trailing : bool),
      Assets.filePathOf req assetPath
      = Path.render abs (more ++ kept) +:+ (if trailing then "/" else "").
Proof.
  intros Hdd.
  set (abs := Path.isAbsolute (Assets.contentDir req)).
  set (A := "assets" :: Path.segments (Assets.contentDir req)).
  assert (HA : normal (negb abs) A)
    by (apply normal_cons; [reflexivity|apply segments_normal]).
  assert (HAne : A <> []) by discriminate.
  assert (Edir : Assets.assetsDirOf req = Path.render abs A)
    by (apply join_name; reflexivity).
  destruct (render_roundtrip abs A HAne HA) as [Habs Hsegs].
  destruct (render_last abs A HAne HA) as [Hr _].
  split; [exact Edir|].
  unfold Assets.filePathOf. rewrite Edir. unfold Path.join.
  apply String.eqb_neq in Hr as Hr'. rewrite Hr'.
  destruct (String.eqb_spec assetPath "") as [->|Hp].
  - exists [], false. cbn [app].
    pose proof (normalize_rendered abs A false HAne HA) as Hn.
    rewrite append_nil_r in Hn. now rewrite !Hn, append_nil_r.
  - set (p := Path.render abs A +:+ "/" +:+ assetPath).
    assert (Hpne : p <> "").
    { subst p. destruct (Path.render abs A); [congruence|discriminate]. }
    assert (Hpabs : Path.isAbsolute p = abs).
    { subst p. now rewrite (isAbsolute_append _ _ Hr). }
    assert (Hpieces : Forall (fun s => s <> ".." /\ free "/" s)
                        (Str.split "/" assetPath)).
    { apply List.Forall_forall. intros x Hx. split.
      - intros ->. apply includes_piece in Hx. congruence.
      - pose proof (split_pieces_free "/" assetPath) as Hf.
        rewrite List.Forall_forall in Hf. now apply Hf. }
    destruct (fold_seg_step_plain (negb abs) _ Hpieces A)
      as (more & Hfold & Hmore).
    assert (Hpsegs : Path.segments p = more ++ A).
    { unfold Path.segments. rewrite Hpabs. subst p.
      change (Path.render abs A +:+ "/" +:+ assetPath)
        with (Path.render abs A +:+ String "/" assetPath).
      rewrite (split_append "/"), fold_left_app.
      unfold Path.segments in Hsegs. rewrite Habs in Hsegs.
      now rewrite Hsegs. }
    assert (Hne : more ++ A <> []).
    { intros E. apply app_eq_nil in E as [_ E]. congruence. }
    rewrite (normalize_spec p _ Hpne Hpsegs Hne), Hpabs.
    exists more,
      (match Str.last_char p with
       | Some c => Ascii.eqb c "/"
       | None => false
       end).
    apply normalize_rendered; [exact Hne|].
    now apply normal_app.
Qed.

Lemma second_guard_passes (req : Assets.Request) (assetPath : string) :
  Assets.includes assetPath ".." = false ->
  Str.startsWith (Assets.filePathOf req assetPath) (Assets.assetsDirOf req)
  = true.
Proof.
  intros Hdd.
  destruct (file_path_rendered req assetPath Hdd)
    as (Edir & more & trailing & E).
  rewrite E, render_above, <- Edir, append_assoc by discriminate.
  apply startsWith_append.
Qed.

(** Past the first guard of the asset route, the path that the route
    reads is the assets directory or a path below it, whatever the content
    directory and the requested path: no request without [..] leads
    outside the assets directory, nor to a sibling whose name begins with
    [assets], and the second guard of the route never fires. *)
Theorem asset_route_stays_below_the_assets_directory
    (req : Assets.Request) (assetPath : string) :
  Assets.includes assetPath ".." = false ->
  (exists rest,
      Assets.filePathOf req assetPath = Assets.assetsDirOf req +:+ rest
      /\ (rest = "" \/ Str.startsWith rest "/" = true))
  /\ Str.startsWith (Assets.filePathOf req assetPath) (Assets.assetsDirOf req)
     = true.
Proof.
  intros Hdd.
  destruct (file_path_rendered req assetPath Hdd)
    as (Edir & more & trailing & E).
  rewrite render_above, <- Edir, append_assoc in E by discriminate.
  split.
  - eexists. split; [exact E|].
    destruct more as [|m more]; [|now right].
    destruct trailing; [now right|now left].
  - rewrite E. apply startsWith_append.
Qed.

Lemma asset_route_stays_below_the_assets_directory_witness :
  Str.startsWith
    (Assets.filePathOf
       {| Assets.contentDir := "/srv/content";
          Assets.isFile := fun _ => Returned true;
          Assets.query := fun _ => None;
          Assets.mimeLookup := fun _ => None |}
       "images/./logo.svg")
    "/srv/content/assets" = true.
Proof.
  refine (proj2 (asset_route_stays_below_the_assets_directory
                   {| Assets.contentDir := "/srv/content";
                      Assets.isFile := fun _ => Returned true;
                      Assets.query := fun _ => None;
                      Assets.mimeLookup := fun _ => None |}
                   "images/./logo.svg" _)).
  reflexivity.
Defined.

(** An asset that exists and can be read is always served: when the image
    cannot be processed, for whatever reason, the route answers the bytes
    of the file itself with the cache lifetime of an original, never an
    error; and what it marks as processed is a raster image requested with
    valid options. *)
Theorem readable_asset_is_always_served
    (w : ImageProcessor.World) (req : Assets.Request)
    (st : ImageProcessor.State) (assetPath : string)
    (content : ImageProcessor.Buffer) :
  Assets.includes assetPath ".." = false ->
  Assets.includes assetPath "//" = false ->
  Assets.isFile req (Assets.filePathOf req assetPath) = Returned true ->
  ImageProcessor.readFile w (Assets.filePathOf req assetPath)
  = Returned content ->
  exists body contentType cacheControl processed,
    fst (Assets.handler w req st assetPath)
    = Assets.Served body contentType cacheControl processed
    /\ if processed
       then cacheControl = "public, max-age=604800"
            /\ Assets.isProcessableImage (Assets.filePathOf req assetPath)
               = true
            /\ ImageProcessor.parseImageOptions (Assets.query req) <> None
       else body = content /\ cacheControl = "public, max-age=86400".
Proof.
  intros Hdd Hss Hfile Hread.
  pose proof (second_guard_passes req assetPath Hdd) as Hbelow.
  assert (Horiginal : exists contentType,
             Assets.serve_original w req (Assets.filePathOf req assetPath)
             = Assets.Served content contentType "public, max-age=86400" false).
  { unfold Assets.serve_original. rewrite Hread. eauto. }
  destruct Horiginal as [ct Horiginal].
  unfold Assets.handler. rewrite Hdd, Hss, Hbelow, Hfile. cbn [orb negb].
  destruct (ImageProcessor.parseImageOptions (Assets.query req))
    as [imageOptions|] eqn:Eo;
    [|rewrite Horiginal; cbn [fst]; eexists _, _, _, false; eauto].
  destruct (Assets.isProcessableImage _) eqn:Ep;
    [|rewrite Horiginal; cbn [fst]; eexists _, _, _, false; eauto].
  set (r := ImageProcessor.getProcessedImage w st _ _ imageOptions).
  assert (Hr : exists result, ImageProcessor.outcome r = Returned result).
  { subst r. unfold ImageProcessor.getProcessedImage.
    destruct (ImageProcessor.cached_derivative w _ _) as [image|];
      [cbn; eauto|].
    rewrite Hread.
    destruct (ImageProcessor.processImageBuffer w st content imageOptions)
      as [[[[image|] st'] evs] warned]; [|cbn; eauto].
    destruct (ImageProcessor.writeDerivative w _ _); cbn; eauto. }
  destruct Hr as [[image|] ->]; cbn [fst].
  - eexists _, _, _, true. split; [reflexivity|]. repeat split. discriminate.
  - rewrite Horiginal. eexists _, _, _, false. eauto.
Qed.

Lemma readable_asset_is_always_served_witness :
  exists body contentType cacheControl processed,
    fst (Assets.handler (SampleImage.world 5 None false false false)
           {| Assets.contentDir := "/srv/content";
              Assets.isFile := fun _ => Returned true;
              Assets.query :=
                SampleImage.query_of (Some "800") None (Some "webp") None;
              Assets.mimeLookup := fun _ => Some "image/png" |}
           ImageProcessor.initial "photo.png")
    = Assets.Served body contentType cacheControl processed
    /\ if processed
       then cacheControl = "public, max-age=604800"
            /\ Assets.isProcessableImage "/srv/content/assets/photo.png" = true
            /\ ImageProcessor.parseImageOptions
                 (SampleImage.query_of (Some "800") None (Some "webp") None)
               <> None
       else body = SampleImage.photo /\ cacheControl = "public, max-age=86400".
Proof.
  apply (readable_asset_is_always_served
           (SampleImage.world 5 None false false false)
           {| Assets.contentDir := "/srv/content";
              Assets.isFile := fun _ => Returned true;
              Assets.query :=
                SampleImage.query_of (Some "800") None (Some "webp") None;
              Assets.mimeLookup := fun _ => Some "image/png" |}
           ImageProcessor.initial "photo.png" SampleImage.photo);
    reflexivity.
Defined.

(** The asset route answers no other error than 403, 404 and 500; a
    request whose path holds [..] or [//] is refused with 403 before any
    file is looked at, the loader of sharp being left as it was. *)
Theorem asset_route_errors_are_403_404_500
    (w : ImageProcessor.World) (req : Assets.Request)
    (st : ImageProcessor.State) (assetPath : string) :
  (forall statusCode,
      fst (Assets.handler w req st assetPath) = Assets.HttpError statusCode ->
      statusCode = 403 \/ statusCode = 404 \/ statusCode = 500)
  /\ (Assets.includes assetPath ".." || Assets.includes assetPath "//" = true ->
      forall w' req',
        Assets.handler w' req' st assetPath = (Assets.HttpError 403, st)).
Proof.
  split.
  - intros statusCode.
    assert (Herr : forall code c,
               Assets.on_error code = Assets.HttpError c ->
               c = 403 \/ c = 404 \/ c = 500).
    { intros code c. unfold Assets.on_error.
      destruct (code =? "ENOENT")%string; intros [= <-]; auto. }
    assert (Horiginal : forall path c,
               Assets.serve_original w req path = Assets.HttpError c ->
               c = 403 \/ c = 404 \/ c = 500).
    { intros path c. unfold Assets.serve_original.
      destruct (ImageProcessor.readFile w path); [discriminate|apply Herr]. }
    unfold Assets.handler.
    destruct (_ || _); [intros [= <-]; auto|].
    destruct (negb _); [intros [= <-]; auto|].
    destruct (Assets.isFile req _) as [[]|code]; cbn [fst];
      [|intros [= <-]; auto|apply Herr].
    destruct (ImageProcessor.parseImageOptions _); [|apply Horiginal].
    destruct (Assets.isProcessableImage _); [|apply Horiginal].
    destruct (ImageProcessor.outcome _) as [[image|]|code]; cbn [fst];
      [discriminate|apply Horiginal|apply Herr].
  - intros H w' req'. unfold Assets.handler. now rewrite H.
Qed.

(** ** The feed: [escapeXml] *)

Lemma replaceAll_append c rep a b :
  Feed.replaceAll c rep (a +:+ b)
  = Feed.replaceAll c rep a +:+ Feed.replaceAll c rep b.
Proof.
  induction a as [|d a IH]; [reflexivity|].
  change (String d a +:+ b) with (String d (a +:+ b)).
  cbn [Feed.replaceAll]. rewrite IH.
  destruct (Ascii.eqb d c); [now rewrite append_assoc|reflexivity].
Qed.

Lemma escapeXml_append a b :
  Feed.escapeXml (a +:+ b) = Feed.escapeXml a +:+ Feed.escapeXml b.
Proof. unfold Feed.escapeXml. now rewrite !replaceAll_append. Qed.

Lemma escapeXml_one c : Feed.escapeXml (String c "") = xml_entity c.
Proof. destruct c as [[] [] [] [] [] [] [] []]; reflexivity. Qed.

Lemma escapeXml_cons c s :
  Feed.escapeXml (String c s) = xml_entity c +:+ Feed.escapeXml s.
Proof.
  change (String c s) with (String c "" +:+ s).
  now rewrite escapeXml_append, escapeXml_one.
Qed.

Lemma xml_entity_free c :
  free "<" (xml_entity c) /\ free ">" (xml_entity c)
  /\ free Feed.quote (xml_entity c) /\ free "'" (xml_entity c).
Proof. destruct c as [[] [] [] [] [] [] [] []]; repeat split; reflexivity. Qed.

Lemma xml_first_entity c rest :
  xml_first (xml_entity c +:+ rest) = Some (c, rest).
Proof. destruct c as [[] [] [] [] [] [] [] []]; reflexivity. Qed.

(** The five replacements of [escapeXml], made one after the other with
    the ampersand first, come to replacing every character by its entity
    at once: no entity is escaped a second time. The result holds none of
    [<], [>], the double quote and the apostrophe, and two texts with the
    same escaped form are the same text. *)
Theorem escapeXml_replaces_each_character_once (text : string) :
  Feed.escapeXml text = xml_entities text
  /\ (free "<" (Feed.escapeXml text) /\ free ">" (Feed.escapeXml text)
      /\ free Feed.quote (Feed.escapeXml text)
      /\ free "'" (Feed.escapeXml text))
  /\ forall text', Feed.escapeXml text = Feed.escapeXml text' -> text = text'.
Proof.
  split; [|split].
  - induction text as [|c text IH]; [reflexivity|].
    rewrite escapeXml_cons, IH. reflexivity.
  - induction text as [|c text (IH1 & IH2 & IH3 & IH4)];
      [repeat split; reflexivity|].
    rewrite escapeXml_cons.
    destruct (xml_entity_free c) as (H1 & H2 & H3 & H4).
    repeat split; apply free_append; split; assumption.
  - induction text as [|c text IH]; intros [|c' text'].
    + reflexivity.
    + rewrite escapeXml_cons. intros E.
      apply (f_equal xml_first) in E. rewrite xml_first_entity in E.
      discriminate.
    + rewrite escapeXml_cons. intros E.
      apply (f_equal xml_first) in E. rewrite xml_first_entity in E.
      discriminate.
    + rewrite !escapeXml_cons. intros E.
      apply (f_equal xml_first) in E. rewrite !xml_first_entity in E.
      injection E as -> E. f_equal. now apply IH.
Qed.

(** ** The layout of a page *)

Lemma firstSegment_free contentPath : free "/" (ConfigPaths.firstSegment contentPath).
Proof.
  unfold ConfigPaths.firstSegment.
  pose proof (split_pieces_free "/" (Str.strip_prefix "/" contentPath)) as H.
  destruct (Str.split "/" _) as [|seg rest]; [reflexivity|].
  now apply List.Forall_cons_iff in H as [H _].
Qed.

Lemma normalizeDir_segment seg :
  free "/" seg -> Config.normalizeDir seg = seg.
Proof.
  intros Hf. unfold Config.normalizeDir.
  assert (Hlead : Str.startsWith seg "/" = false).
  { destruct seg as [|c seg']; [reflexivity|].
    apply free_cons in Hf as [Hc _]. cbn [Str.startsWith].
    destruct (Ascii.eqb "/" c) eqn:E; [|reflexivity].
    apply Ascii.eqb_eq in E. congruence. }
  rewrite (strip_prefix_none _ _ Hlead). apply strip_trailing_slash_none.
  intros E. now apply (last_char_free _ _ Hf) in E.
Qed.

(** The content API resolves the layout of a page from the first segment
    of its slug, the home page under the slug [home]: where that segment
    names no directory with a settings file, a page resolved afresh gets
    the docs layout and the default settings, also when [F0_MODE] is
    [blog]. *)
Theorem pages_without_settings_get_the_docs_layout
    (w : Config.World) (st : Config.State) (contentDir slug : string) :
  let contentSlug := ContentApi.contentSlugOf slug in
  ConfigPaths.firstSegment contentSlug <> "" ->
  Config.existsSync w
    (Config.configPathOf contentDir (ConfigPaths.firstSegment contentSlug))
  = false ->
  Config.fromCache (ConfigPaths.getConfigForPath w st contentDir contentSlug)
  = false ->
  fst (ContentApi.layoutOf w st contentDir slug) = Returned Config.docs
  /\ Config.outcome (ConfigPaths.getConfigForPath w st contentDir contentSlug)
     = Returned Config.DEFAULT_DOCS_CONFIG.
Proof.
  intros contentSlug Hseg He.
  unfold ContentApi.layoutOf, ConfigPaths.resolveLayoutForPath,
    ConfigPaths.getConfigForPath. fold contentSlug. cbn [fst].
  set (seg := ConfigPaths.firstSegment contentSlug) in *.
  assert (Hn : Config.normalizeDir seg = seg)
    by apply normalizeDir_segment, firstSegment_free.
  unfold Config.resolveDirectoryConfig. rewrite He, Hn.
  apply String.eqb_neq in Hseg. rewrite Hseg. cbn [andb].
  destruct (Config.configCache st !! _);
    [destruct (Config.isCacheValid w st); [discriminate|]|];
    intros _; split; reflexivity.
Qed.

Lemma pages_without_settings_get_the_docs_layout_witness :
  fst (ContentApi.layoutOf
         (with_mode (SampleConfig.world_at SampleConfig.development 0 [] "")
            (Some "blog"))
         Config.initial "./content" "")
  = Returned Config.docs.
Proof.
  refine (proj1 (pages_without_settings_get_the_docs_layout
                   (with_mode
                      (SampleConfig.world_at SampleConfig.development 0 [] "")
                      (Some "blog"))
                   Config.initial "./content" "" _ _ _)).
  - discriminate.
  - reflexivity.
  - reflexivity.
Defined.

(** ** The pages of the blog index *)

Lemma slice_chunk {A} (l : list A) (s p : nat) :
  BlogIndex.slice l (Z.of_nat s) (Z.of_nat s + Z.of_nat p)
  = firstn p (skipn s l).
Proof.
  unfold BlogIndex.slice. cbv beta zeta.
  assert (Hs : (Z.of_nat s <? 0) = false) by (apply Z.ltb_ge; lia).
  assert (He : (Z.of_nat s + Z.of_nat p <? 0) = false) by (apply Z.ltb_ge; lia).
  rewrite Hs, He. cbv iota.
  destruct (Nat.le_gt_cases (length l) s) as [Hout|Hin].
  - rewrite !skipn_all2 by lia. now rewrite !firstn_nil.
  - replace (Z.to_nat (Z.min (Z.of_nat s) (Z.of_nat (length l)))) with s by lia.
    match goal with
    | |- firstn ?n _ = _ =>
        replace n with (Nat.min p (length l - s)) by lia
    end.
    rewrite <- (firstn_all (skipn s l)) at 2.
    now rewrite firstn_firstn, length_skipn.
Qed.

Lemma chunks_concat {A} (p : nat) :
  forall (n : nat) (l : list A),
    (length l <= n * p)%nat ->
    concat (map (fun k => firstn p (skipn (k * p) l)) (seq 0 n)) = l.
Proof.
  induction n as [|n IH]; intros l Hl.
  - destruct l; [reflexivity|simpl in Hl; lia].
  - rewrite <- cons_seq, <- seq_shift. cbn [map]. rewrite map_map.
    cbn [concat skipn Nat.mul].
    transitivity (firstn p l ++ skipn p l); [|apply firstn_skipn].
    f_equal.
    rewrite <- (IH (skipn p l)) at 1 by (rewrite length_skipn; lia).
    f_equal. apply map_ext. intros k.
    now rewrite skipn_skipn, Nat.add_comm.
Qed.

(** With a positive [posts_per_page] the pages of the blog index from 1 to
    [totalPages] hold every post once, in order; [totalPages] is at least
    1, no page holds more than [posts_per_page] posts and a page past the
    last one is empty. With a [posts_per_page] of zero every page is empty,
    whatever the posts; with a negative one the first page holds the posts
    but the last ones and the other pages are empty. *)
Theorem blog_pages_partition_the_posts {A} (posts : list A)
    (postsPerPage : Z) :
  (0 < postsPerPage ->
   exists pages : nat,
     BlogIndex.totalPages (Z.of_nat (length posts)) postsPerPage
     = BlogIndex.Finite (Z.of_nat pages)
     /\ (1 <= pages)%nat
     /\ concat (map (fun k => BlogIndex.paginatedPosts posts
                                (Z.of_nat k + 1) postsPerPage)
                  (seq 0 pages)) = posts
     /\ (forall page, Z.of_nat pages < page ->
           BlogIndex.paginatedPosts posts page postsPerPage = [])
     /\ (forall page, 1 <= page ->
           Z.of_nat (length (BlogIndex.paginatedPosts posts page postsPerPage))
           <= postsPerPage))
  /\ (postsPerPage = 0 ->
      forall page, 1 <= page ->
        BlogIndex.paginatedPosts posts page postsPerPage = [])
  /\ (postsPerPage < 0 ->
      BlogIndex.paginatedPosts posts 1 postsPerPage
      = firstn (Z.to_nat (Z.of_nat (length posts) + postsPerPage)) posts
      /\ forall page, 2 <= page ->
           BlogIndex.paginatedPosts posts page postsPerPage = []).
Proof.
  split; [|split].
  - intros Hp.
    set (p := Z.to_nat postsPerPage).
    assert (Ep : postsPerPage = Z.of_nat p) by lia.
    assert (Hpage : forall k : nat,
               BlogIndex.paginatedPosts posts (Z.of_nat k + 1) postsPerPage
               = firstn p (skipn (k * p) posts)).
    { intros k. unfold BlogIndex.paginatedPosts.
      replace ((Z.of_nat k + 1 - 1) * postsPerPage) with (Z.of_nat (k * p)) by lia.
      rewrite Ep. apply slice_chunk. }
    set (len := Z.of_nat (length posts)).
    set (q := - ((- len) / postsPerPage)).
    assert (Hq : len <= q * postsPerPage /\ 0 <= q).
    { subst q. pose proof (Z.mul_div_le (- len) postsPerPage Hp).
      pose proof (Z.div_le_upper_bound (- len) postsPerPage 0 Hp).
      split; [lia|]. assert (- len / postsPerPage <= 0); [|lia].
      apply Z.div_le_upper_bound; lia. }
    exists (Z.to_nat (Z.max 1 q)).
    assert (Hlen : (length posts <= Z.to_nat (Z.max 1 q) * p)%nat) by nia.
    split; [|split; [lia|split; [|split]]].
    + unfold BlogIndex.totalPages, BlogIndex.ceil_div.
      assert (E0 : (postsPerPage =? 0) = false) by (apply Z.eqb_neq; lia).
      rewrite E0. cbn [BlogIndex.at_least_one]. fold len q. f_equal. lia.
    + rewrite (map_ext _ _ Hpage). now apply chunks_concat.
    + intros page Hpast.
      replace page with (Z.of_nat (Z.to_nat (page - 1)) + 1) by lia.
      rewrite Hpage. rewrite skipn_all2; [apply firstn_nil|]. nia.
    + intros page Hge.
      replace page with (Z.of_nat (Z.to_nat (page - 1)) + 1) by lia.
      rewrite Hpage. rewrite length_firstn. lia.
  - intros -> page Hge. unfold BlogIndex.paginatedPosts, BlogIndex.slice.
    cbv beta zeta. rewrite Z.mul_0_r. cbn [Z.add Z.ltb Z.compare].
    now rewrite Z.sub_diag.
  - intros Hp. split.
    + unfold BlogIndex.paginatedPosts, BlogIndex.slice. cbv beta zeta.
      replace ((1 - 1) * postsPerPage) with 0 by lia.
      replace (0 + postsPerPage) with postsPerPage by lia.
      assert (E : (postsPerPage <? 0) = true) by now apply Z.ltb_lt.
      rewrite E. change (0 <? 0) with false. cbv iota.
      replace (Z.to_nat (Z.min 0 (Z.of_nat (length posts)))) with 0%nat by lia.
      cbn [skipn]. f_equal. lia.
    + intros page Hge. unfold BlogIndex.paginatedPosts, BlogIndex.slice.
      cbv beta zeta.
      assert (Hstart : (page - 1) * postsPerPage < 0) by nia.
      match goal with
      | |- firstn ?n _ = _ => replace n with 0%nat; [reflexivity|]
      end.
      destruct (Z.ltb_spec ((page - 1) * postsPerPage) 0),
        (Z.ltb_spec ((page - 1) * postsPerPage + postsPerPage) 0); lia.
Qed.

Lemma blog_pages_partition_the_posts_witness :
  BlogIndex.paginatedPosts ["a"; "b"; "c"] 2 0 = [].
Proof.
  refine (proj1 (proj2 (blog_pages_partition_the_posts ["a"; "b"; "c"] 0))
            _ 2 _); lia.
Defined.
